(** * dsp_go: FIR, IIR and Goertzel engines, embedded and verified

    The Go sources under [pkg/filters] are translated function by function,
    and after them the phase detector of [pkg/detectors], the window of
    [pkg/windows] and the signal generator of [pkg/generators].
    Go's [float64] is kept abstract behind the class [Scalar], so that every
    definition can be run on IEEE binary64 numbers (instance [binary64], on
    the kernel's primitive floats, each operation rounded on its own) and
    reasoned about in exact arithmetic (instance [exact], on the real
    numbers).  Go's [int] is [Z]: the integers of the code are cursors and
    counters bounded by a slice length or by [totalN], and never wrap.
    Slices are lists indexed by [Z]; a run-time panic is the [Panicked]
    outcome; a returned [error] is the [Err] result. *)

From Stdlib Require Import ZArith List Bool String QArith Lia.
From Stdlib Require Import Floats.
From Stdlib Require Import Reals Lra.
Import ListNotations.

Set Implicit Arguments.
Local Open Scope string_scope.
Local Open Scope list_scope.
Local Open Scope Z_scope.

(** ** Outcomes: a call either returns or panics *)

Inductive outcome (A : Type) : Type :=
| Returned (a : A)
| Panicked (msg : string).
Arguments Returned {A} a.
Arguments Panicked {A} msg.

Definition bind {A B : Type} (m : outcome A) (k : A -> outcome B) : outcome B :=
  match m with
  | Returned a => k a
  | Panicked msg => Panicked msg
  end.

Notation "x <- m ;; k" := (bind m (fun x => k))
  (at level 61, m at next level, right associativity).
Notation "' p <- m ;; k" := (bind m (fun p => k))
  (at level 61, p pattern, m at next level, right associativity).

Definition panics {A : Type} (m : outcome A) : Prop :=
  exists msg, m = Panicked msg.

Definition returns {A : Type} (m : outcome A) : Prop :=
  exists a, m = Returned a.

(** ** Scalars: what the code asks of [float64] *)

Class Scalar (F : Type) : Type := {
  lit : Q -> F;            (* a decimal constant of the source text *)
  of_int : Z -> F;         (* the conversion float64(i) *)
  trunc : F -> Z;          (* the conversion int(x) *)
  add : F -> F -> F;
  sub : F -> F -> F;
  mul : F -> F -> F;
  div : F -> F -> F;
  opp : F -> F;
  fabs : F -> F;           (* math.Abs *)
  fsqrt : F -> F;          (* math.Sqrt *)
  ltb : F -> F -> bool;
  leb : F -> F -> bool;
  eqb : F -> F -> bool
}.

(** The functions of Go's [math] package that have no counterpart among the
    primitive float operations. *)
Class Libm (F : Type) : Type := {
  fpi : F;                 (* math.Pi *)
  fcos : F -> F;
  fsin : F -> F;
  ftan : F -> F;
  fexp : F -> F
}.

(** [math.Inf(1)]. *)
Class Infinity (F : Type) : Type := { finf : F }.

Definition zero {F} `{Scalar F} : F := lit 0.
Definition gtb {F} `{Scalar F} (x y : F) : bool := ltb y x.
Definition geb {F} `{Scalar F} (x y : F) : bool := leb y x.

(** ** Slices *)

Section Slices.
Context {A : Type}.

Definition len (l : list A) : Z := Z.of_nat (List.length l).

Definition in_range (l : list A) (i : Z) : bool :=
  (0 <=? i) && (i <? len l).

(** [l[i]], which panics out of range. *)
Definition index (d : A) (l : list A) (i : Z) : outcome A :=
  if in_range l i then Returned (nth (Z.to_nat i) l d)
  else Panicked "index out of range".

Fixpoint upd (l : list A) (n : nat) (v : A) : list A :=
  match l, n with
  | [], _ => []
  | _ :: t, O => v :: t
  | h :: t, S n' => h :: upd t n' v
  end.

(** [l[i] = v], which panics out of range. *)
Definition store (l : list A) (i : Z) (v : A) : outcome (list A) :=
  if in_range l i then Returned (upd l (Z.to_nat i) v)
  else Panicked "index out of range".

(** [make([]T, n)] for a zero value [d]. *)
Definition make (d : A) (n : Z) : list A := repeat d (Z.to_nat n).
End Slices.

(** Go's [%] truncates toward zero and panics on a zero divisor. *)
Definition go_rem (a b : Z) : outcome Z :=
  if b =? 0 then Panicked "integer divide by zero" else Returned (Z.rem a b).

(** ** pkg/filters/fir.go *)

Module FIR.
Section WithScalar.
Context {F : Type} `{Scalar F}.

Record FIRFilter : Type := {
  coeffs : list F;
  buffer : list F;
  pos : Z
}.

(** The filter keeps the caller's slice as its coefficients (no copy is
    made); the caller is taken not to write to it afterwards. *)
Definition NewFIRFilter (cs : list F) : outcome FIRFilter :=
  if len cs =? 0 then Panicked "FIRFilter: coefficients cannot be empty"
  else
    let n := len cs in
    Returned {| coeffs := cs; buffer := make zero n; pos := n - 1 |}.

(** The convolution loop of [Tick]: [cs] is [coeffs[coeffIdx:]]. *)
Fixpoint conv_loop (cs buf : list F) (output : F) (bufIdx : Z) : outcome F :=
  match cs with
  | [] => Returned output
  | c :: cs' =>
      x <- index zero buf bufIdx ;;
      let output := add output (mul c x) in
      let bufIdx := bufIdx - 1 in
      let bufIdx := if bufIdx <? 0 then len buf - 1 else bufIdx in
      conv_loop cs' buf output bufIdx
  end.

Definition Tick (f : FIRFilter) (input : F) : outcome (FIRFilter * F) :=
  p <- go_rem (pos f + 1) (len (buffer f)) ;;
  buf <- store (buffer f) p input ;;
  output <- conv_loop (coeffs f) buf zero p ;;
  Returned ({| coeffs := coeffs f; buffer := buf; pos := p |}, output).

Definition Reset (f : FIRFilter) : FIRFilter :=
  {| coeffs := coeffs f;
     buffer := map (fun _ => zero) (buffer f);
     pos := len (buffer f) - 1 |}.

Definition GetCoefficients (f : FIRFilter) : list F := coeffs f.
Definition GetBufferSize (f : FIRFilter) : Z := len (buffer f).

(** A caller ticking through a sequence of samples, collecting the outputs. *)
Fixpoint ticks (f : FIRFilter) (inputs : list F) : outcome (FIRFilter * list F) :=
  match inputs with
  | [] => Returned (f, [])
  | x :: rest =>
      '(f1, y) <- Tick f x ;;
      '(f2, ys) <- ticks f1 rest ;;
      Returned (f2, y :: ys)
  end.
End WithScalar.
Arguments FIRFilter F : clear implicits.
End FIR.

(** ** Go's [complex128]: a pair of scalars *)

Section Complex.
Context {F : Type} `{Scalar F}.

Definition complex : Type := (F * F)%type.
Definition re (c : complex) : F := fst c.
Definition im (c : complex) : F := snd c.

Definition cadd (x y : complex) : complex :=
  (add (re x) (re y), add (im x) (im y)).

Definition cmul (x y : complex) : complex :=
  (sub (mul (re x) (re y)) (mul (im x) (im y)),
   add (mul (re x) (im y)) (mul (im x) (re y))).
End Complex.
Arguments complex F : clear implicits.

(** Complex division is the Go runtime's; the embedding takes it as given. *)
Class ComplexDiv (F : Type) : Type := {
  cdiv : complex F -> complex F -> complex F
}.

(** ** pkg/filters: the IIR engine *)

Module IIR.
Section WithScalar.
Context {F : Type} `{Scalar F}.

Record IIRFilter : Type := {
  bCoeffs : list F;
  aCoeffs : list F;
  xBuffer : list F;
  yBuffer : list F;
  xPos : Z;
  yPos : Z;
  order : Z
}.

(** The two slices are taken as values: the caller's backing arrays, which
    the normalisation loops overwrite in place before the copies are made,
    are assumed not to overlap. *)
Definition NewIIRFilter (bCoeffs aCoeffs : list F) : outcome IIRFilter :=
  if len bCoeffs =? 0 then Panicked "IIRFilter: b coefficients cannot be empty"
  else if len aCoeffs =? 0 then Panicked "IIRFilter: a coefficients cannot be empty"
  else
    a0 <- index zero aCoeffs 0 ;;
    let '(bCoeffs, aCoeffs) :=
      if gtb (fabs (sub a0 (lit 1.0))) (lit 1e-10) then
        let normalizer := a0 in
        (map (fun b => div b normalizer) bCoeffs,
         map (fun a => div a normalizer) aCoeffs)
      else (bCoeffs, aCoeffs) in
    let order := Z.max (len bCoeffs) (len aCoeffs) - 1 in
    Returned {| bCoeffs := bCoeffs; aCoeffs := aCoeffs;
                xBuffer := make zero (len bCoeffs);
                yBuffer := make zero (len aCoeffs);
                xPos := 0; yPos := 0; order := order |}.

(** [idx := (pos - i) % len(buf); if idx < 0 { idx += len(buf) }; buf[idx]] *)
Definition lookback (buf : list F) (pos i : Z) : outcome F :=
  idx <- go_rem (pos - i) (len buf) ;;
  let idx := if idx <? 0 then idx + len buf else idx in
  index zero buf idx.

(** The feedforward loop; [bs] is [bCoeffs[i:]]. *)
Fixpoint feedforward (bs : list F) (i : Z) (xBuf : list F) (xPos : Z)
         (output : F) : outcome F :=
  match bs with
  | [] => Returned output
  | b :: bs' =>
      x <- lookback xBuf xPos i ;;
      feedforward bs' (i + 1) xBuf xPos (add output (mul b x))
  end.

(** The feedback loop; [as_] is [aCoeffs[i:]], entered with [i = 1]. *)
Fixpoint feedback (as_ : list F) (i : Z) (yBuf : list F) (yPos : Z)
         (output : F) : outcome F :=
  match as_ with
  | [] => Returned output
  | a :: as' =>
      y <- lookback yBuf yPos i ;;
      feedback as' (i + 1) yBuf yPos (sub output (mul a y))
  end.

Definition Tick (f : IIRFilter) (input : F) : outcome (IIRFilter * F) :=
  xb <- store (xBuffer f) (xPos f) input ;;
  output <- feedforward (bCoeffs f) 0 xb (xPos f) zero ;;
  output <- feedback (skipn 1 (aCoeffs f)) 1 (yBuffer f) (yPos f) output ;;
  yb <- store (yBuffer f) (yPos f) output ;;
  xp <- go_rem (xPos f + 1) (len xb) ;;
  yp <- go_rem (yPos f + 1) (len yb) ;;
  Returned ({| bCoeffs := bCoeffs f; aCoeffs := aCoeffs f;
               xBuffer := xb; yBuffer := yb;
               xPos := xp; yPos := yp; order := order f |}, output).

Definition Reset (f : IIRFilter) : IIRFilter :=
  {| bCoeffs := bCoeffs f; aCoeffs := aCoeffs f;
     xBuffer := map (fun _ => zero) (xBuffer f);
     yBuffer := map (fun _ => zero) (yBuffer f);
     xPos := 0; yPos := 0; order := order f |}.

Fixpoint Process (f : IIRFilter) (input : list F) : outcome (IIRFilter * list F) :=
  match input with
  | [] => Returned (f, [])
  | val :: rest =>
      '(f1, y) <- Tick f val ;;
      '(f2, ys) <- Process f1 rest ;;
      Returned (f2, y :: ys)
  end.

Definition GetBCoeffs (f : IIRFilter) : list F := bCoeffs f.
Definition GetACoeffs (f : IIRFilter) : list F := aCoeffs f.
Definition GetOrder (f : IIRFilter) : Z := order f.

Definition IsStable (f : IIRFilter) : bool :=
  if len (aCoeffs f) <=? 1 then true
  else if len (aCoeffs f) =? 2 then
    ltb (fabs (nth 1 (aCoeffs f) zero)) (lit 1.0)
  else if len (aCoeffs f) =? 3 then
    let a1 := nth 1 (aCoeffs f) zero in
    let a2 := nth 2 (aCoeffs f) zero in
    ltb a2 (lit 1.0) && gtb a2 (lit (-1.0))
    && gtb a2 (sub (opp a1) (lit 1.0)) && gtb a2 (sub a1 (lit 1.0))
  else true.

(** The accumulation loop shared by numerator and denominator:
    [sum += complex(c, 0) * zPower; zPower *= z]. *)
Fixpoint zsum_loop (cs : list F) (z sum zPower : complex F) : complex F :=
  match cs with
  | [] => sum
  | c :: cs' => zsum_loop cs' z (cadd sum (cmul (c, zero) zPower)) (cmul zPower z)
  end.

Definition czero : complex F := (zero, zero).
Definition cone : complex F := (lit 1, lit 0).

Section Analysis.
Context `{Libm F} `{Infinity F} `{ComplexDiv F}.

Definition GetFrequencyResponse (f : IIRFilter) (freq : F)
  : outcome (complex F) :=
  if ltb freq (lit 0) || gtb freq (lit 0.5) then
    Panicked "frequency must be between 0 and 0.5 (Nyquist)"
  else
    let omega := mul (mul (lit 2.0) fpi) freq in
    let z : complex F := (fcos omega, fsin omega) in
    let bSum := zsum_loop (bCoeffs f) z czero cone in
    let aSum := zsum_loop (aCoeffs f) z czero cone in
    if eqb (re aSum) (lit 0) && eqb (im aSum) (lit 0) then
      Returned (finf, lit 0)
    else Returned (cdiv bSum aSum).
End Analysis.

(** *** Design factories *)
Section Design.
Context `{Libm F}.

Definition bad_cutoff (fc : F) : bool := leb fc (lit 0) || geb fc (lit 0.5).
Definition cutoff_msg : string :=
  "IIRFilter: cutoff frequency must be between 0 and 0.5".
Definition q_msg : string := "IIRFilter: Q must be positive".

Definition NewFirstOrderLowPass (fc : F) : outcome IIRFilter :=
  if bad_cutoff fc then Panicked cutoff_msg
  else
    let alpha := ftan (mul fpi fc) in
    let b0 := div alpha (add (lit 1) alpha) in
    let b1 := b0 in
    let a1 := div (sub (lit 1) alpha) (add (lit 1) alpha) in
    NewIIRFilter [b0; b1] [lit 1; opp a1].

Definition NewFirstOrderHighPass (fc : F) : outcome IIRFilter :=
  if bad_cutoff fc then Panicked cutoff_msg
  else
    let alpha := ftan (mul fpi fc) in
    let b0 := div (lit 1.0) (add (lit 1) alpha) in
    let b1 := opp b0 in
    let a1 := div (sub (lit 1) alpha) (add (lit 1) alpha) in
    NewIIRFilter [b0; b1] [lit 1; opp a1].

(** The second-order sections share everything but the numerator. *)
Definition biquad (fc Q : F) (num : F -> F -> F * F * F) : outcome IIRFilter :=
  if bad_cutoff fc then Panicked cutoff_msg
  else if leb Q (lit 0) then Panicked q_msg
  else
    let w0 := mul (mul (lit 2.0) fpi) fc in
    let alpha := div (fsin w0) (mul (lit 2.0) Q) in
    let cosW0 := fcos w0 in
    let '(b0, b1, b2) := num alpha cosW0 in
    let a0 := add (lit 1.0) alpha in
    let a1 := mul (lit (-2.0)) cosW0 in
    let a2 := sub (lit 1.0) alpha in
    let b0 := div b0 a0 in
    let b1 := div b1 a0 in
    let b2 := div b2 a0 in
    let a1 := div a1 a0 in
    let a2 := div a2 a0 in
    NewIIRFilter [b0; b1; b2] [lit 1; a1; a2].

Definition NewSecondOrderLowPass (fc Q : F) : outcome IIRFilter :=
  biquad fc Q (fun _ cosW0 =>
    (div (sub (lit 1.0) cosW0) (lit 2.0),
     sub (lit 1.0) cosW0,
     div (sub (lit 1.0) cosW0) (lit 2.0))).

Definition NewSecondOrderHighPass (fc Q : F) : outcome IIRFilter :=
  biquad fc Q (fun _ cosW0 =>
    (div (add (lit 1.0) cosW0) (lit 2.0),
     opp (add (lit 1.0) cosW0),
     div (add (lit 1.0) cosW0) (lit 2.0))).

Definition NewSecondOrderBandPass (fc Q : F) : outcome IIRFilter :=
  biquad fc Q (fun alpha _ => (alpha, lit 0.0, opp alpha)).

Definition NewFirstOrderLowPassExp (fc : F) : outcome IIRFilter :=
  if bad_cutoff fc then Panicked cutoff_msg
  else
    let alpha := sub (lit 1.0) (fexp (mul (mul (lit (-2.0)) fpi) fc)) in
    NewIIRFilter [alpha] [lit 1; opp (sub (lit 1) alpha)].

Definition NewFirstOrderHighPassExp (fc : F) : outcome IIRFilter :=
  if bad_cutoff fc then Panicked cutoff_msg
  else
    let alpha := sub (lit 1.0) (fexp (mul (mul (lit (-2.0)) fpi) fc)) in
    let b0 := div (add (lit 1) alpha) (lit 2.0) in
    let b1 := opp b0 in
    let a1 := opp (sub (lit 1) alpha) in
    NewIIRFilter [b0; b1] [lit 1; a1].
End Design.
End WithScalar.
Arguments IIRFilter F : clear implicits.
End IIR.

(** ** pkg/filters/goertzel_filter.go *)

Inductive result (E A : Type) : Type :=
| Ok (a : A)
| Err (e : E).
Arguments Ok {E A} a.
Arguments Err {E A} e.

Module Goertzel.
Section WithScalar.
Context {F : Type} `{Scalar F}.

Inductive error : Type :=
| InvalidParameterError (Param : string) (Value : F) (Reason : string)
| InvalidStateError (Reason : string).

Definition is_invalid_state (e : error) : bool :=
  match e with InvalidStateError _ => true | _ => false end.

Record GoertzelFilter : Type := {
  k : Z;
  w : F;
  cosW : F;
  sinW : F;
  q1 : F;
  q2 : F;
  n : Z;
  totalN : Z;
  coeff : F
}.

Definition NewGoertzelFilter `{Libm F} (freq samplingRate : F) (totalN : Z)
  : result error GoertzelFilter :=
  if leb freq (lit 0) then
    Err (InvalidParameterError "freq" freq "frequency must be positive")
  else if leb samplingRate (lit 0) then
    Err (InvalidParameterError "samplingRate" samplingRate
           "sampling rate must be positive")
  else if totalN <=? 0 then
    Err (InvalidParameterError "totalN" (of_int totalN)
           "total samples must be positive")
  else if geb freq (div samplingRate (lit 2)) then
    Err (InvalidParameterError "freq" freq
           "frequency must be less than Nyquist frequency (samplingRate/2)")
  else
    let k := trunc (add (lit 0.5) (div (mul (of_int totalN) freq) samplingRate)) in
    let k := if k >=? totalN then totalN - 1 else k in
    let w := div (mul (mul (lit 2) fpi) (of_int k)) (of_int totalN) in
    let cosW := fcos w in
    let sinW := fsin w in
    Ok {| k := k; w := w; cosW := cosW; sinW := sinW;
          coeff := mul (lit 2) cosW;
          q1 := lit 0; q2 := lit 0; n := 0; totalN := totalN |}.

(** Methods take the receiver pointer, [None] being [nil].  A method that
    fails returns before it writes, so [Err] leaves the receiver as it was. *)
Definition not_initialized : error :=
  InvalidStateError "filter is not initialized".

Definition Process (gf : option GoertzelFilter) (input : F)
  : result error GoertzelFilter :=
  match gf with
  | None => Err not_initialized
  | Some g =>
      if n g >=? totalN g then
        Err (InvalidStateError "all samples have already been processed")
      else
        let q0 := sub (add input (mul (coeff g) (q1 g))) (q2 g) in
        Ok {| k := k g; w := w g; cosW := cosW g; sinW := sinW g;
              coeff := coeff g;
              q2 := q1 g; q1 := q0; n := n g + 1; totalN := totalN g |}
  end.

Definition Reset (gf : option GoertzelFilter) : result error GoertzelFilter :=
  match gf with
  | None => Err not_initialized
  | Some g =>
      Ok {| k := k g; w := w g; cosW := cosW g; sinW := sinW g;
            coeff := coeff g;
            q1 := lit 0; q2 := lit 0; n := 0; totalN := totalN g |}
  end.

Definition no_samples : error :=
  InvalidStateError "no samples have been processed yet".

(** The radicand of [GetMagnitude]. *)
Definition magnitudeSquared (g : GoertzelFilter) : F :=
  sub (add (mul (q1 g) (q1 g)) (mul (q2 g) (q2 g)))
      (mul (mul (coeff g) (q1 g)) (q2 g)).

Definition GetMagnitude (gf : option GoertzelFilter) : result error F :=
  match gf with
  | None => Err not_initialized
  | Some g =>
      if n g =? 0 then Err no_samples
      else
        let magnitudeSquared := magnitudeSquared g in
        if ltb magnitudeSquared (lit 0) then Ok (lit 0)
        else Ok (div (mul (lit 2) (fsqrt magnitudeSquared)) (of_int (totalN g)))
  end.

(** The radicand of [GetMagnitudeOptimized]. *)
Definition magnitudeSquaredOptimized (g : GoertzelFilter) : F :=
  let realPart := sub (q1 g) (mul (q2 g) (cosW g)) in
  let imagPart := mul (q2 g) (sinW g) in
  add (mul realPart realPart) (mul imagPart imagPart).

Definition GetMagnitudeOptimized (gf : option GoertzelFilter) : result error F :=
  match gf with
  | None => Err not_initialized
  | Some g =>
      if n g =? 0 then Err no_samples
      else
        let magnitudeSquared := magnitudeSquaredOptimized g in
        if ltb magnitudeSquared (lit 0) then Ok (lit 0)
        else Ok (div (mul (lit 2) (fsqrt magnitudeSquared)) (of_int (totalN g)))
  end.

Definition GetPower (gf : option GoertzelFilter) : result error F :=
  match GetMagnitude gf with
  | Err e => Err e
  | Ok magnitude => Ok (div (mul magnitude magnitude) (lit 2))
  end.

Definition IsComplete (gf : option GoertzelFilter) : bool :=
  match gf with
  | None => false
  | Some g => n g >=? totalN g
  end.

Definition GetProcessedCount (gf : option GoertzelFilter) : Z :=
  match gf with
  | None => 0
  | Some g => n g
  end.

Definition GetCoefficient (gf : option GoertzelFilter) : Z :=
  match gf with
  | None => 0
  | Some g => k g
  end.

(** A caller feeding samples one by one, stopping at the first failure. *)
Fixpoint feed (g : GoertzelFilter) (samples : list F)
  : result error GoertzelFilter :=
  match samples with
  | [] => Ok g
  | x :: rest =>
      match Process (Some g) x with
      | Ok g' => feed g' rest
      | Err e => Err e
      end
  end.

(** The states a caller can obtain: a successful construction, then any
    sequence of successful [Process] and [Reset] calls. *)
Inductive reachable `{Libm F} : GoertzelFilter -> Prop :=
| reach_new freq samplingRate totalN g :
    NewGoertzelFilter freq samplingRate totalN = Ok g -> reachable g
| reach_process g input g' :
    reachable g -> Process (Some g) input = Ok g' -> reachable g'
| reach_reset g g' :
    reachable g -> Reset (Some g) = Ok g' -> reachable g'.
End WithScalar.
Arguments GoertzelFilter F : clear implicits.
Arguments error F : clear implicits.
End Goertzel.

(** ** The two number systems *)

Module Binary64.
(** [float64(i)] for [|i| < 2^63], rounded to nearest even. *)
Definition of_Z (z : Z) : float :=
  match z with
  | Z0 => PrimFloat.zero
  | Zpos _ => PrimFloat.of_uint63 (Uint63.of_Z z)
  | Zneg _ => PrimFloat.opp (PrimFloat.of_uint63 (Uint63.of_Z (- z)))
  end.

(** A decimal constant [n/d] with [|n|, d < 2^53]: numerator and
    denominator convert exactly, and the division rounds the quotient once,
    as the compiler's conversion of the constant does. *)
Definition of_Q (q : Q) : float :=
  PrimFloat.div (of_Z (Qnum q)) (of_Z (Zpos (Qden q))).

(** [int(x)]: truncation toward zero; where the value does not fit an
    [int], which Go leaves to the implementation, the amd64 result. *)
Definition to_Z (x : float) : Z :=
  match Prim2SF x with
  | S754_finite s m e =>
      let mag := if (0 <=? e)%Z then Z.pos m * 2 ^ e
                 else Z.pos m / 2 ^ (- e) in
      let v := if s then - mag else mag in
      if (- 2 ^ 63 <=? v) && (v <? 2 ^ 63) then v else - 2 ^ 63
  | S754_zero _ => 0
  | _ => - 2 ^ 63
  end.

(** [math.Pi] as a [float64]. *)
Definition pi : float := 0x1.921fb54442d18p+1%float.
End Binary64.

#[export] Instance binary64 : Scalar float := {|
  lit := Binary64.of_Q;
  of_int := Binary64.of_Z;
  trunc := Binary64.to_Z;
  add := PrimFloat.add;
  sub := PrimFloat.sub;
  mul := PrimFloat.mul;
  div := PrimFloat.div;
  opp := PrimFloat.opp;
  fabs := PrimFloat.abs;
  fsqrt := PrimFloat.sqrt;
  ltb := PrimFloat.ltb;
  leb := PrimFloat.leb;
  eqb := PrimFloat.eqb
|}.

#[export] Instance binary64_inf : Infinity float := {| finf := PrimFloat.infinity |}.

(** The primitive floats have no transcendental functions: a binary64
    [math] library is whatever the platform provides. *)
Definition binary64_libm (fcos fsin ftan fexp : float -> float) : Libm float :=
  {| fpi := Binary64.pi; fcos := fcos; fsin := fsin; ftan := ftan; fexp := fexp |}.

Module Exact.
Definition Rtrunc (x : R) : Z :=
  if Rle_dec 0 x then Int_part x else (- Int_part (- x))%Z.
Definition Rltb (x y : R) : bool := if Rlt_dec x y then true else false.
Definition Rleb (x y : R) : bool := if Rle_dec x y then true else false.
Definition Reqb (x y : R) : bool := if Req_dec_T x y then true else false.

Definition Cdiv (x y : R * R) : R * R :=
  let d := (fst y * fst y + snd y * snd y)%R in
  (((fst x * fst y + snd x * snd y) / d)%R,
   ((snd x * fst y - fst x * snd y) / d)%R).
End Exact.

#[export] Instance exact : Scalar R := {|
  lit := Q2R;
  of_int := IZR;
  trunc := Exact.Rtrunc;
  add := Rplus;
  sub := Rminus;
  mul := Rmult;
  div := Rdiv;
  opp := Ropp;
  fabs := Rabs;
  fsqrt := sqrt;
  ltb := Exact.Rltb;
  leb := Exact.Rleb;
  eqb := Exact.Reqb
|}.

#[export] Instance exact_libm : Libm R :=
  {| fpi := PI; fcos := cos; fsin := sin; ftan := tan; fexp := exp |}.

#[export] Instance exact_cdiv : ComplexDiv R := {| cdiv := Exact.Cdiv |}.

(** * Specification vocabulary *)

(** ** Ring buffers

    [look buf p i] is the cell [i] steps behind the cursor [p]; [window]
    lists the [m] cells behind the cursor, newest first; [recent] lists the
    [m] newest samples of a history, padded with zeros. *)

Section RingSpec.
Context {F : Type} `{Scalar F}.

Definition look (buf : list F) (p i : Z) : F :=
  nth (Z.to_nat ((p - i) mod len buf)) buf zero.

Definition window (buf : list F) (p : Z) (m : nat) : list F :=
  map (fun i => look buf p (Z.of_nat i)) (seq 0 m).

Definition recent (hist : list F) (m : nat) : list F :=
  map (fun i => nth i hist zero) (seq 0 m).

(** The sum [acc + c0*x0 + c1*x1 + ...], added up from the left. *)
Fixpoint dot (cs xs : list F) (acc : F) : F :=
  match cs, xs with
  | c :: cs', x :: xs' => dot cs' xs' (add acc (mul c x))
  | _, _ => acc
  end.

(** The same with subtraction, for the feedback part. *)
Fixpoint dot_sub (cs xs : list F) (acc : F) : F :=
  match cs, xs with
  | c :: cs', x :: xs' => dot_sub cs' xs' (sub acc (mul c x))
  | _, _ => acc
  end.

(** [buf] holds the newest [len buf] samples of [hist] behind cursor [p]. *)
Definition holds (buf : list F) (p : Z) (hist : list F) : Prop :=
  forall i : nat, Z.of_nat i < len buf -> look buf p (Z.of_nat i) = nth i hist zero.

(** The cells [k], [k+1], ... behind the cursor. *)
Definition window_from (buf : list F) (p : Z) (k m : nat) : list F :=
  map (fun i => look buf p (Z.of_nat i)) (seq k m).

End RingSpec.

(** ** FIR states *)

Module FIRSpec.
Import FIR.

Section WithScalar.
Context {F : Type} `{Scalar F}.

(** The constructor's invariant: as many cells as coefficients, at least
    one, and the cursor inside the buffer. *)
Definition wf (f : FIRFilter F) : Prop :=
  0 < len (coeffs f) /\ len (buffer f) = len (coeffs f)
  /\ 0 <= pos f < len (buffer f).

(** [reached cs f hist]: [f] is obtained from [NewFIRFilter cs] by [Tick] and
    [Reset] calls, and [hist] lists the samples ticked in since construction
    or the last reset, newest first. *)
Inductive reached (cs : list F) : FIRFilter F -> list F -> Prop :=
| reached_new f0 :
    NewFIRFilter cs = Returned f0 -> reached cs f0 []
| reached_tick f hist x f' y :
    reached cs f hist -> Tick f x = Returned (f', y) -> reached cs f' (x :: hist)
| reached_reset f hist :
    reached cs f hist -> reached cs (Reset f) [].

End WithScalar.
End FIRSpec.

(** ** IIR states *)

Module IIRSpec.
Import IIR.

Section WithScalar.
Context {F : Type} `{Scalar F}.

Definition wf (f : IIRFilter F) : Prop :=
  0 < len (bCoeffs f) /\ 0 < len (aCoeffs f)
  /\ len (xBuffer f) = len (bCoeffs f) /\ len (yBuffer f) = len (aCoeffs f)
  /\ 0 <= xPos f < len (xBuffer f) /\ 0 <= yPos f < len (yBuffer f).

(** [reached b a f xs ys]: [f] is obtained from a successful
    [NewIIRFilter b a] by [Tick] and [Reset] calls; [xs] and [ys] list the
    inputs and outputs since construction or the last reset, newest first. *)
Inductive reached (b a : list F) : IIRFilter F -> list F -> list F -> Prop :=
| reached_new f0 :
    NewIIRFilter b a = Returned f0 -> reached b a f0 [] []
| reached_tick f xs ys x f' y :
    reached b a f xs ys -> Tick f x = Returned (f', y) ->
    reached b a f' (x :: xs) (y :: ys)
| reached_reset f xs ys :
    reached b a f xs ys -> reached b a (Reset f) [] [].

(** What the constructor does to the coefficient sequences. *)
Definition normalized (b a : list F) : list F * list F :=
  let a0 := nth 0 a zero in
  if gtb (fabs (sub a0 (lit 1.0))) (lit 1e-10)
  then (map (fun c => div c a0) b, map (fun c => div c a0) a)
  else (b, a).

(** The output of one tick, read from the buffers: the feedforward sum over
    the input cells (the new sample included), less the feedback sum over the
    output cells one to [Q-1] steps behind the cursor. *)
Definition tick_output (f : IIRFilter F) (x : F) : F :=
  let xb := upd (xBuffer f) (Z.to_nat (xPos f)) x in
  dot_sub (skipn 1 (aCoeffs f))
          (window_from (yBuffer f) (yPos f) 1 (List.length (aCoeffs f) - 1))
          (dot (bCoeffs f) (window xb (xPos f) (List.length (bCoeffs f))) zero).

(** The same output, read from the histories: the recurrence
    [y[n] = sum b[i]*x[n-i] - sum_(i>=1) a[i]*y[n-i]]. *)
Definition recurrence (b a xs ys : list F) : F :=
  dot_sub (skipn 1 a) (recent ys (List.length a - 1))
          (dot b (recent xs (List.length b)) zero).

Definition tick_state (f : IIRFilter F) (x : F) : IIRFilter F :=
  {| bCoeffs := bCoeffs f; aCoeffs := aCoeffs f;
     xBuffer := upd (xBuffer f) (Z.to_nat (xPos f)) x;
     yBuffer := upd (yBuffer f) (Z.to_nat (yPos f)) (tick_output f x);
     xPos := (xPos f + 1) mod len (bCoeffs f);
     yPos := (yPos f + 1) mod len (aCoeffs f);
     order := order f |}.

Definition tracks (f : IIRFilter F) (xs ys : list F) : Prop :=
  wf f
  /\ holds (xBuffer f) ((xPos f - 1) mod len (xBuffer f)) xs
  /\ holds (yBuffer f) ((yPos f - 1) mod len (yBuffer f)) ys.

End WithScalar.
End IIRSpec.

(** ** Polynomials in [z] *)

Section Polynomials.
Context {F : Type} `{Scalar F}.

(** [z^k] by successive multiplication, starting from [complex(1, 0)]. *)
Fixpoint zpow (z : complex F) (k : nat) : complex F :=
  match k with
  | O => IIR.cone
  | S k' => cmul (zpow z k') z
  end.

(** [sum + c0*z^k + c1*z^(k+1) + ...], added up from the left. *)
Fixpoint zterms (cs : list F) (z : complex F) (k : nat) (sum : complex F)
  : complex F :=
  match cs with
  | [] => sum
  | c :: cs' => zterms cs' z (S k) (cadd sum (cmul (c, zero) (zpow z k)))
  end.

(** The polynomial [sum_i cs[i] * z^i]. *)
Definition zpoly (cs : list F) (z : complex F) : complex F :=
  zterms cs z 0 IIR.czero.

End Polynomials.

(** ** Goertzel states *)

Module GoertzelSpec.
Import Goertzel.

Section WithScalar.
Context {F : Type} `{Scalar F} `{Libm F}.

(** The constructor's four checks, in one boolean. *)
Definition invalid (freq samplingRate : F) (totalN : Z) : bool :=
  leb freq (lit 0) || leb samplingRate (lit 0) || (totalN <=? 0)
  || geb freq (div samplingRate (lit 2)).

(** What construction establishes and no method disturbs. *)
Definition consistent (g : GoertzelFilter F) : Prop :=
  cosW g = fcos (w g) /\ sinW g = fsin (w g)
  /\ coeff g = mul (lit 2) (fcos (w g))
  /\ 0 < totalN g /\ 0 <= n g <= totalN g.

End WithScalar.
End GoertzelSpec.

(** ** Filters and runs of the test suite *)

#[local] Set Warnings "-inexact-float".

(** The outputs of a FIR filter built from [cs] and ticked through [inputs]. *)
Definition fir_run {F : Type} `{Scalar F} (cs inputs : list F) : outcome (list F) :=
  f <- FIR.NewFIRFilter cs ;;
  '(_, ys) <- FIR.ticks f inputs ;;
  Returned ys.

(** The filter of the test suite: coefficients [1, 2, 3] on binary64. *)
Definition fir123 : FIR.FIRFilter float :=
  {| FIR.coeffs := [1; 2; 3]%float; FIR.buffer := [0; 0; 0]%float; FIR.pos := 2 |}.

(** The outputs of an IIR filter built from [b] and [a] and run over [input]. *)
Definition iir_run {F : Type} `{Scalar F} (b a input : list F) : outcome (list F) :=
  f <- IIR.NewIIRFilter b a ;;
  '(_, ys) <- IIR.Process f input ;;
  Returned ys.

(** The filter of the test suite, [b = [0.5]], [a = [1, 0.3]], on binary64. *)
Definition iir_test : IIR.IIRFilter float :=
  {| IIR.bCoeffs := [0.5]%float; IIR.aCoeffs := [1; 0.3]%float;
     IIR.xBuffer := [0]%float; IIR.yBuffer := [0; 0]%float;
     IIR.xPos := 0; IIR.yPos := 0; IIR.order := 1 |}.

(** A denominator whose leading coefficient is off by [5e-11]. *)
Definition a_near_one : list float := [1.00000000005; 0.3]%float.

(** [IsStable] on the filter built from [b] and [a]. *)
Definition stable_of {F : Type} `{Scalar F} (b a : list F) : outcome bool :=
  f <- IIR.NewIIRFilter b a ;;
  Returned (IIR.IsStable f).

(** The detector [NewGoertzelFilter(1, 1000, 2)] builds on binary64: bin
    [k = int(0.5 + 2*1/1000) = 0], so [w = 0], [cosW = 1], [sinW = 0] and
    [coeff = 2]. *)
Definition goertzel_dc : Goertzel.GoertzelFilter float :=
  {| Goertzel.k := 0; Goertzel.w := 0%float;
     Goertzel.cosW := 1%float; Goertzel.sinW := 0%float;
     Goertzel.q1 := 0%float; Goertzel.q2 := 0%float;
     Goertzel.n := 0; Goertzel.totalN := 2; Goertzel.coeff := 2%float |}.


(** ** Whole runs of the FIR engine *)

Section FirRunSpec.
Context {F : Type} `{Scalar F}.

(** The outputs the difference equation [y[n] = sum_k cs[k]*x[n-k]]
    prescribes for [inputs], given the samples [hist] that came before
    (newest first). *)
Fixpoint fir_outputs (cs hist inputs : list F) : list F :=
  match inputs with
  | [] => []
  | x :: rest =>
      dot cs (recent (x :: hist) (List.length cs)) zero
      :: fir_outputs cs (x :: hist) rest
  end.
End FirRunSpec.

(** Sample-wise sum of two real sequences of the same length. *)
Fixpoint vadd (u v : list R) : list R :=
  match u, v with
  | a :: u', b :: v' => (a + b)%R :: vadd u' v'
  | _, _ => []
  end.

(** The coefficient sequence of a pure delay by [d] samples, over the
    reals: [d] zeros, a one, [e] zeros. *)
Definition delay_coeffs (d e : nat) : list R :=
  repeat 0%R d ++ 1%R :: repeat 0%R e.

(** ** Whole runs of the IIR engine *)

Section IirRunSpec.
Context {F : Type} `{Scalar F}.

(** The outputs the recurrence prescribes for [inputs], given the inputs
    [xs] and outputs [ys] that came before (newest first). *)
Fixpoint iir_outputs (b a xs ys inputs : list F) : list F :=
  match inputs with
  | [] => []
  | x :: rest =>
      let y := IIRSpec.recurrence b a (x :: xs) ys in
      y :: iir_outputs b a (x :: xs) (y :: ys) rest
  end.
End IirRunSpec.

(** ** Real polynomials *)

(** [cs[0] + cs[1]*x + cs[2]*x^2 + ...] over the reals. *)
Fixpoint polyR (cs : list R) (x : R) : R :=
  match cs with
  | [] => 0%R
  | c :: cs' => (c + x * polyR cs' x)%R
  end.

(** ** pkg/filters/goertzel_filter.go, continued *)

Module GoertzelMore.
Import Goertzel.

Section WithScalar.
Context {F : Type} `{Scalar F}.

Definition GetTargetFrequency (gf : option (GoertzelFilter F)) (samplingRate : F)
  : F :=
  match gf with
  | None => lit 0
  | Some g =>
      if totalN g =? 0 then lit 0
      else div (mul (of_int (k g)) samplingRate) (of_int (totalN g))
  end.

(** [evolves g0 g]: [g] is obtained from [g0] by successful [Process] and
    [Reset] calls. *)
Inductive evolves (g0 : GoertzelFilter F) : GoertzelFilter F -> Prop :=
| evolves_refl : evolves g0 g0
| evolves_process g input g' :
    evolves g0 g -> Process (Some g) input = Ok g' -> evolves g0 g'
| evolves_reset g g' :
    evolves g0 g -> Reset (Some g) = Ok g' -> evolves g0 g'.
End WithScalar.
End GoertzelMore.

(** The real and imaginary parts of [sum_i hist[i] * e^(j*(k+i)*w)]: for
    [k = 0] and [hist] the samples newest first, the correlation of the
    signal with the complex exponential of angular frequency [w]. *)
Fixpoint cos_sum (w : R) (hist : list R) (k : nat) : R :=
  match hist with
  | [] => 0%R
  | x :: t => (x * cos (INR k * w) + cos_sum w t (S k))%R
  end.

Fixpoint sin_sum (w : R) (hist : list R) (k : nat) : R :=
  match hist with
  | [] => 0%R
  | x :: t => (x * sin (INR k * w) + sin_sum w t (S k))%R
  end.

(** ** pkg/detectors/phase.go *)

(** [math.Mod]. *)
Class Fmod (F : Type) : Type := { fmod : F -> F -> F }.

(** [cmplx.Abs] and [cmplx.Phase]. *)
Class Cmplx (F : Type) : Type := {
  cabs : complex F -> F;
  cphase : complex F -> F
}.

Module Phase.
Section WithScalar.
Context {F : Type} `{Scalar F} `{Libm F} `{Fmod F} `{Cmplx F} `{ComplexDiv F}.

Record CoherentPhaseDetector : Type := {
  referenceSignal : complex F;
  phaseOffset : F;
  alpha : F;
  filteredError : F
}.

Definition normalizePhase (phase : F) : F :=
  let phase := fmod (add phase fpi) (mul (lit 2) fpi) in
  let phase := if ltb phase (lit 0) then add phase (mul (lit 2) fpi) else phase in
  let phase := sub phase fpi in
  if eqb phase (opp fpi) then fpi else phase.

Definition NewCoherentPhaseDetector (referenceSignal : complex F) (alpha : F)
  : CoherentPhaseDetector :=
  let refMagnitude := cabs referenceSignal in
  let refNorm := cdiv referenceSignal (refMagnitude, lit 0) in
  let alpha := if leb alpha (lit 0) || gtb alpha (lit 1) then lit 0.1 else alpha in
  {| referenceSignal := refNorm; phaseOffset := lit 0; alpha := alpha;
     filteredError := lit 0 |}.

Definition Detect (cpd : CoherentPhaseDetector) (inputSignal : complex F)
  : CoherentPhaseDetector * F :=
  let inputMagnitude := cabs inputSignal in
  let inputNorm := cdiv inputSignal (inputMagnitude, lit 0) in
  let phaseDiff := sub (cphase inputNorm) (cphase (referenceSignal cpd)) in
  let phaseDiff := normalizePhase phaseDiff in
  let filtered := add (mul (alpha cpd) phaseDiff)
                      (mul (sub (lit 1) (alpha cpd)) (filteredError cpd)) in
  let correctedPhase := sub filtered (phaseOffset cpd) in
  ({| referenceSignal := referenceSignal cpd; phaseOffset := phaseOffset cpd;
      alpha := alpha cpd; filteredError := filtered |},
   normalizePhase correctedPhase).

Definition UpdateOffset (cpd : CoherentPhaseDetector) : CoherentPhaseDetector :=
  {| referenceSignal := referenceSignal cpd;
     phaseOffset := add (phaseOffset cpd) (filteredError cpd);
     alpha := alpha cpd; filteredError := lit 0 |}.

Definition SetPhaseOffset (cpd : CoherentPhaseDetector) (offset : F)
  : CoherentPhaseDetector :=
  {| referenceSignal := referenceSignal cpd;
     phaseOffset := normalizePhase offset;
     alpha := alpha cpd; filteredError := filteredError cpd |}.

Definition GetFilteredError (cpd : CoherentPhaseDetector) : F := filteredError cpd.
Definition GetPhaseOffset (cpd : CoherentPhaseDetector) : F := phaseOffset cpd.

Definition UpdateReferenceSignal (cpd : CoherentPhaseDetector) (newRef : complex F)
  : CoherentPhaseDetector :=
  let magnitude := cabs newRef in
  {| referenceSignal := cdiv newRef (magnitude, lit 0);
     phaseOffset := phaseOffset cpd; alpha := alpha cpd;
     filteredError := filteredError cpd |}.

(** The detectors a caller can hold: a constructed one, after any calls. *)
Inductive reachable : CoherentPhaseDetector -> Prop :=
| reach_new ref a : reachable (NewCoherentPhaseDetector ref a)
| reach_detect cpd input : reachable cpd -> reachable (fst (Detect cpd input))
| reach_update cpd : reachable cpd -> reachable (UpdateOffset cpd)
| reach_set cpd offset : reachable cpd -> reachable (SetPhaseOffset cpd offset)
| reach_ref cpd newRef : reachable cpd -> reachable (UpdateReferenceSignal cpd newRef).
End WithScalar.
Arguments CoherentPhaseDetector F : clear implicits.
End Phase.

(** [math.Mod], [cmplx.Abs] and [cmplx.Phase] over the reals. *)
Module ExactMath.
(** The remainder [x - y*trunc(x/y)]: its sign is that of [x]. *)
Definition Rfmod (x y : R) : R := (x - y * IZR (Exact.Rtrunc (x / y)))%R.

Definition Ratan2 (y x : R) : R :=
  if Rlt_dec 0 x then atan (y / x)
  else if Rlt_dec x 0 then
         (if Rle_dec 0 y then atan (y / x) + PI else atan (y / x) - PI)%R
       else if Rlt_dec 0 y then (PI / 2)%R
            else if Rlt_dec y 0 then (- PI / 2)%R else 0%R.
End ExactMath.

#[export] Instance exact_fmod : Fmod R := {| fmod := ExactMath.Rfmod |}.

#[export] Instance exact_cmplx : Cmplx R := {|
  cabs := fun c => sqrt (fst c * fst c + snd c * snd c);
  cphase := fun c => ExactMath.Ratan2 (snd c) (fst c)
|}.

(** ** pkg/windows *)

Module Windows.
Section WithScalar.
Context {F : Type} `{Scalar F} `{Libm F}.

(** The value the loop of [blackmanHarrisWindow] writes at index [n]. *)
Definition term (N n : Z) : F :=
  let a0 := lit 0.35875 in
  let a1 := lit 0.48829 in
  let a2 := lit 0.14128 in
  let a3 := lit 0.01168 in
  let x := div (mul (mul fpi (lit 2)) (of_int n)) (of_int (N - 1)) in
  sub (add (sub a0 (mul a1 (fcos x))) (mul a2 (fcos (mul (lit 2) x))))
      (mul a3 (fcos (mul (lit 3) x))).

(** [for n := ...; n < N; n++ { window[n] = ... }] with [todo] rounds left. *)
Fixpoint window_loop (todo : nat) (N n : Z) (window : list F) : outcome (list F) :=
  match todo with
  | O => Returned window
  | S todo' =>
      window <- store window n (term N n) ;;
      window_loop todo' N (n + 1) window
  end.

Definition blackmanHarrisWindow (N : Z) : outcome (list F) :=
  if N <? 0 then Panicked "makeslice: len out of range"
  else window_loop (Z.to_nat N) N 0 (make zero N).

(** [for i := ...; i < N; i++ { modifiedCoeffs[i] = coeffs[i] * window[i] }]. *)
Fixpoint apply_loop (todo : nat) (i : Z) (coeffs window modifiedCoeffs : list F)
  : outcome (list F) :=
  match todo with
  | O => Returned modifiedCoeffs
  | S todo' =>
      c <- index zero coeffs i ;;
      w <- index zero window i ;;
      modifiedCoeffs <- store modifiedCoeffs i (mul c w) ;;
      apply_loop todo' (i + 1) coeffs window modifiedCoeffs
  end.

Definition ApplyBlackmanHarrisWindow (coeffs : list F) : outcome (list F) :=
  let N := len coeffs in
  window <- blackmanHarrisWindow N ;;
  apply_loop (Z.to_nat N) 0 coeffs window (make zero N).
End WithScalar.
End Windows.

(** ** pkg/generators/reference_signal_generator.go *)

(** [math.Floor] and [math.Round]. *)
Class Rounding (F : Type) : Type := {
  ffloor : F -> F;
  fround : F -> F
}.

Module Generators.

(** [type SignalType int]: every integer is a signal type, five are named. *)
Definition SignalType : Type := Z.
Definition Sine : SignalType := 0.
Definition Cosine : SignalType := 1.
Definition Square : SignalType := 2.
Definition Sawtooth : SignalType := 3.
Definition Triangle : SignalType := 4.

Section WithScalar.
Context {F : Type} `{Scalar F} `{Libm F} `{Rounding F}.

Record ReferenceSignalGenerator : Type := {
  Frequency : F;
  SampleRate : F;
  TotalTime : F;
  Amplitude : F;
  Phase : F;
  Kind : SignalType;       (* the field SignalType *)
  DutyCycle : F
}.

(** The errors of [validate]: which check failed, with the numbers its
    message prints. *)
Inductive error : Type :=
| BadFrequency (frequency : F)
| BadSampleRate (sampleRate : F)
| BadTotalTime (totalTime : F)
| BadAmplitude (amplitude : F)
| BadDutyCycle (dutyCycle : F)
| NyquistViolated (frequency halfRate : F).

Definition NewReferenceSignalGenerator : ReferenceSignalGenerator :=
  {| Frequency := lit 1000.0; SampleRate := lit 8000.0; TotalTime := lit 1.0;
     Amplitude := lit 1.0; Phase := lit 0.0; Kind := Sine;
     DutyCycle := lit 0.5 |}.

Definition validate (rsg : ReferenceSignalGenerator) : option error :=
  if leb (Frequency rsg) (lit 0) then Some (BadFrequency (Frequency rsg))
  else if leb (SampleRate rsg) (lit 0) then Some (BadSampleRate (SampleRate rsg))
  else if leb (TotalTime rsg) (lit 0) then Some (BadTotalTime (TotalTime rsg))
  else if leb (Amplitude rsg) (lit 0) then Some (BadAmplitude (Amplitude rsg))
  else if leb (DutyCycle rsg) (lit 0) || geb (DutyCycle rsg) (lit 1)
       then Some (BadDutyCycle (DutyCycle rsg))
  else if geb (mul (Frequency rsg) (lit 2)) (SampleRate rsg)
       then Some (NyquistViolated (Frequency rsg) (div (SampleRate rsg) (lit 2)))
  else None.

Definition generateSine (rsg : ReferenceSignalGenerator) (angularFreq time : F) : F :=
  mul (Amplitude rsg) (fsin (add (mul angularFreq time) (Phase rsg))).

Definition generateCosine (rsg : ReferenceSignalGenerator) (angularFreq time : F) : F :=
  mul (Amplitude rsg) (fcos (add (mul angularFreq time) (Phase rsg))).

Definition generateSquare (rsg : ReferenceSignalGenerator) (normalizedTime : F) : F :=
  let phase := add normalizedTime (div (Phase rsg) (mul (lit 2) fpi)) in
  let fractionalPart := sub phase (ffloor phase) in
  if ltb fractionalPart (DutyCycle rsg) then Amplitude rsg
  else opp (Amplitude rsg).

Definition generateSawtooth (rsg : ReferenceSignalGenerator) (normalizedTime : F) : F :=
  let phase := add normalizedTime (div (Phase rsg) (mul (lit 2) fpi)) in
  let fractionalPart := sub phase (ffloor phase) in
  mul (Amplitude rsg) (sub (mul (lit 2) fractionalPart) (lit 1)).

Definition generateTriangle (rsg : ReferenceSignalGenerator) (normalizedTime : F) : F :=
  let phase := add normalizedTime (div (Phase rsg) (mul (lit 2) fpi)) in
  let fractionalPart := sub phase (ffloor phase) in
  if ltb fractionalPart (lit 0.25) then
    mul (mul (Amplitude rsg) (lit 4)) fractionalPart
  else if ltb fractionalPart (lit 0.75) then
    mul (Amplitude rsg) (sub (lit 2) (mul (lit 4) fractionalPart))
  else
    mul (Amplitude rsg) (sub (mul (lit 4) fractionalPart) (lit 4)).

(** One round of the loop of [Generate]: the [switch] has no default, so a
    signal type that is none of the five leaves [signals[i]] as it is. *)
Definition generate_step (rsg : ReferenceSignalGenerator)
    (timeStep angularFreq : F) (i : Z) (signals : list F) : outcome (list F) :=
  let time := mul (of_int i) timeStep in
  let normalizedTime := mul (Frequency rsg) time in
  if Kind rsg =? Sine then store signals i (generateSine rsg angularFreq time)
  else if Kind rsg =? Cosine then
    store signals i (generateCosine rsg angularFreq time)
  else if Kind rsg =? Square then
    store signals i (generateSquare rsg normalizedTime)
  else if Kind rsg =? Sawtooth then
    store signals i (generateSawtooth rsg normalizedTime)
  else if Kind rsg =? Triangle then
    store signals i (generateTriangle rsg normalizedTime)
  else Returned signals.

Fixpoint generate_loop (rsg : ReferenceSignalGenerator) (timeStep angularFreq : F)
    (todo : nat) (i : Z) (signals : list F) : outcome (list F) :=
  match todo with
  | O => Returned signals
  | S todo' =>
      signals <- generate_step rsg timeStep angularFreq i signals ;;
      generate_loop rsg timeStep angularFreq todo' (i + 1) signals
  end.

Definition Generate (rsg : ReferenceSignalGenerator)
  : outcome (result error (list F)) :=
  match validate rsg with
  | Some err => Returned (Err err)
  | None =>
      let numSamples := trunc (fround (mul (TotalTime rsg) (SampleRate rsg))) in
      if numSamples <? 0 then Panicked "makeslice: len out of range"
      else
        let signals := make zero numSamples in
        let timeStep := div (lit 1.0) (SampleRate rsg) in
        let angularFreq := mul (mul (lit 2) fpi) (Frequency rsg) in
        signals <- generate_loop rsg timeStep angularFreq
                     (Z.to_nat numSamples) 0 signals ;;
        Returned (Ok signals)
  end.
End WithScalar.
Arguments ReferenceSignalGenerator F : clear implicits.
Arguments error F : clear implicits.
End Generators.

(** [math.Floor] and [math.Round] (halves away from zero) over the reals. *)
Module ExactRounding.
Definition Rfloor (x : R) : R := IZR (Int_part x).
Definition Rround (x : R) : R :=
  if Rle_dec 0 x then IZR (Int_part (x + 1 / 2))
  else (- IZR (Int_part (- x + 1 / 2)))%R.
End ExactRounding.

#[export] Instance exact_rounding : Rounding R :=
  {| ffloor := ExactRounding.Rfloor; fround := ExactRounding.Rround |}.

(** ** pkg/filters: the IIR engine, group delay *)

Module IIRGroupDelay.
Import IIR.
Section WithScalar.
Context {F : Type} `{Scalar F} `{Libm F} `{ComplexDiv F} `{Cmplx F}.

Definition csub (x y : complex F) : complex F :=
  (sub (re x) (re y), sub (im x) (im y)).

(** The loop over one coefficient slice, [cs] being what is left of it from
    index [i] on:
    [sum += complex(c, 0) * zPower;
     if i > 0 { primeSum += complex(c*float64(i), 0) * zPower / z };
     zPower *= z]. *)
Fixpoint deriv_loop (cs : list F) (i : Z) (z sum primeSum zPower : complex F)
  : complex F * complex F :=
  match cs with
  | [] => (sum, primeSum)
  | c :: cs' =>
      let sum := cadd sum (cmul (c, zero) zPower) in
      let primeSum :=
        if 0 <? i then
          cadd primeSum (cdiv (cmul (mul c (of_int i), zero) zPower) z)
        else primeSum in
      deriv_loop cs' (i + 1) z sum primeSum (cmul zPower z)
  end.

Definition GetGroupDelay (f : IIRFilter F) (freq : F) : outcome F :=
  if ltb freq (lit 0) || gtb freq (lit 0.5) then
    Panicked "frequency must be between 0 and 0.5 (Nyquist)"
  else
    let omega := mul (mul (lit 2.0) fpi) freq in
    let z : complex F := (fcos omega, fsin omega) in
    let '(bSum, bPrimeSum) := deriv_loop (bCoeffs f) 0 z czero czero cone in
    let '(aSum, aPrimeSum) := deriv_loop (aCoeffs f) 0 z czero czero cone in
    let h := cdiv bSum aSum in
    if ltb (cabs h) (lit 1e-12) then Returned (lit 0)
    else
      let hDeriv := cdiv (csub (cmul bPrimeSum aSum) (cmul bSum aPrimeSum))
                         (cmul aSum aSum) in
      Returned (re (cdiv (cmul z hDeriv) h)).
End WithScalar.
End IIRGroupDelay.

(** The sum of a real sequence, and its first moment
    [i*cs[0] + (i+1)*cs[1] + ...]. *)
Fixpoint total (cs : list R) : R :=
  match cs with
  | [] => 0%R
  | c :: cs' => (c + total cs')%R
  end.

Fixpoint moment (cs : list R) (i : Z) : R :=
  match cs with
  | [] => 0%R
  | c :: cs' => (c * IZR i + moment cs' (i + 1))%R
  end.

(** * Properties *)

(** ** Slices and outcomes *)

Section SliceFacts.
Context {A : Type}.
Implicit Types (l : list A) (v d : A).

Lemma len_nonneg l : 0 <= len l.
Proof. unfold len; lia. Qed.

Lemma length_upd l k v : List.length (upd l k v) = List.length l.
Proof.
  revert k; induction l as [|h t IH]; intros [|k]; simpl; auto.
Qed.

Lemma len_upd l k v : len (upd l k v) = len l.
Proof. unfold len; now rewrite length_upd. Qed.

Lemma nth_upd_same l k v d :
  (k < List.length l)%nat -> nth k (upd l k v) d = v.
Proof.
  revert k; induction l as [|h t IH]; intros [|k] Hk; simpl in *;
    try lia; auto.
  apply IH; lia.
Qed.

Lemma nth_upd_other l k m v d : k <> m -> nth m (upd l k v) d = nth m l d.
Proof.
  revert k m; induction l as [|h t IH]; intros [|k] [|m] Hkm; simpl;
    auto; try congruence.
Qed.

Lemma len_make d z : 0 <= z -> len (make d z) = z.
Proof. intros Hz; unfold len, make; rewrite repeat_length; lia. Qed.

Lemma nth_make d z k : nth k (make d z) d = d.
Proof.
  unfold make; generalize (Z.to_nat z) as m; intros m; revert k.
  induction m as [|m IH]; intros [|k]; simpl; auto.
Qed.

Lemma map_const_make d l : map (fun _ => d) l = make d (len l).
Proof.
  unfold make, len; rewrite Nat2Z.id.
  induction l as [|h t IH]; simpl; congruence.
Qed.

Lemma index_ok d l i :
  0 <= i < len l -> index d l i = Returned (nth (Z.to_nat i) l d).
Proof.
  intros Hi; unfold index, in_range.
  replace (0 <=? i) with true by (symmetry; apply Z.leb_le; lia).
  replace (i <? len l) with true by (symmetry; apply Z.ltb_lt; lia).
  reflexivity.
Qed.

Lemma store_ok l i v :
  0 <= i < len l -> store l i v = Returned (upd l (Z.to_nat i) v).
Proof.
  intros Hi; unfold store, in_range.
  replace (0 <=? i) with true by (symmetry; apply Z.leb_le; lia).
  replace (i <? len l) with true by (symmetry; apply Z.ltb_lt; lia).
  reflexivity.
Qed.
End SliceFacts.

Lemma go_rem_ok a b : 0 <= a -> 0 < b -> go_rem a b = Returned (a mod b).
Proof.
  intros Ha Hb; unfold go_rem.
  replace (b =? 0) with false by (symmetry; apply Z.eqb_neq; lia).
  now rewrite Z.rem_mod_nonneg by lia.
Qed.

(** ** Ring buffers *)

Section RingFacts.
Context {F : Type} `{Scalar F}.

Lemma window_recent buf p hist m :
  holds buf p hist -> Z.of_nat m <= len buf -> window buf p m = recent hist m.
Proof.
  intros Hh Hm; unfold window, recent.
  apply map_ext_in; intros i Hi; apply in_seq in Hi.
  apply Hh; lia.
Qed.

Lemma window_shift buf p m :
  0 < len buf ->
  map (fun i => look buf p (Z.of_nat i)) (seq 1 m) = window buf ((p - 1) mod len buf) m.
Proof.
  intros Hn; unfold window.
  rewrite <- seq_shift, map_map.
  apply map_ext; intros i; unfold look.
  rewrite Zminus_mod_idemp_l.
  do 2 f_equal. f_equal. lia.
Qed.

Lemma holds_make z p : holds (make zero z) p [].
Proof.
  intros i _; unfold look; rewrite nth_make; now destruct i.
Qed.

(** Writing [x] at the cursor [p] makes it the newest sample. *)
Lemma holds_push buf p q hist x :
  0 < len buf -> 0 <= p < len buf ->
  q = (p - 1) mod len buf ->
  holds buf q hist ->
  holds (upd buf (Z.to_nat p) x) p (x :: hist).
Proof.
  intros Hn Hp -> Hh i Hi; rewrite len_upd in Hi.
  unfold look; rewrite len_upd.
  destruct i as [|i].
  - simpl; rewrite Z.sub_0_r, Z.mod_small by lia.
    apply nth_upd_same; unfold len in *; lia.
  - assert (Hne : (p - Z.of_nat (S i)) mod len buf <> p).
    { intros E.
      assert (Hd : (Z.of_nat (S i)) mod len buf = 0).
      { rewrite <- (Z.mod_small p (len buf)) in E at 2 by lia.
        pose proof (Zminus_mod p (p - Z.of_nat (S i)) (len buf)) as M.
        rewrite E, Z.sub_diag, Z.mod_0_l in M by lia.
        replace (p - (p - Z.of_nat (S i))) with (Z.of_nat (S i)) in M by lia.
        exact M. }
      rewrite Z.mod_small in Hd by lia. lia. }
    rewrite nth_upd_other.
    + specialize (Hh i); unfold look in Hh.
      rewrite Zminus_mod_idemp_l in Hh.
      replace (p - 1 - Z.of_nat i) with (p - Z.of_nat (S i)) in Hh by lia.
      simpl nth at 2. apply Hh; lia.
    + intros E; apply Hne.
      pose proof (Z.mod_pos_bound (p - Z.of_nat (S i)) (len buf) Hn).
      lia.
Qed.
End RingFacts.

(** ** FIR engine *)

Module FIRFacts.
Import FIR FIRSpec.

Section WithScalar.
Context {F : Type} `{Scalar F}.

Lemma conv_loop_window (cs buf : list F) (out : F) (j : Z) :
  0 <= j < len buf ->
  conv_loop cs buf out j = Returned (dot cs (window buf j (List.length cs)) out).
Proof.
  revert out j; induction cs as [|c cs IH]; intros out j Hj; [reflexivity|].
  cbn [conv_loop]. rewrite index_ok by assumption. cbn [bind].
  assert (Hn : 0 < len buf) by lia.
  assert (Hj' : (if j - 1 <? 0 then len buf - 1 else j - 1) = (j - 1) mod len buf).
  { destruct (Z.ltb_spec (j - 1) 0).
    - replace (j - 1) with (-1) by lia.
      replace (-1) with (len buf - 1 + (-1) * len buf) by lia.
      rewrite Z.mod_add, Z.mod_small by lia. reflexivity.
    - now rewrite Z.mod_small by lia. }
  rewrite Hj', IH by (apply Z.mod_pos_bound; lia).
  f_equal. cbn [List.length]. unfold window at 2. cbn [seq map dot].
  rewrite window_shift by assumption.
  unfold look at 1. cbn [Z.of_nat]. rewrite Z.sub_0_r, (Z.mod_small j) by lia.
  reflexivity.
Qed.

Lemma NewFIRFilter_ok (cs : list F) :
  cs <> [] ->
  NewFIRFilter cs =
  Returned {| coeffs := cs; buffer := make zero (len cs); pos := len cs - 1 |}.
Proof.
  intros Hcs; unfold NewFIRFilter.
  destruct (Z.eqb_spec (len cs) 0) as [E|E]; [|reflexivity].
  destruct cs; [congruence | unfold len in E; simpl in E; lia].
Qed.

Lemma NewFIRFilter_inv (cs : list F) (f0 : FIRFilter F) :
  NewFIRFilter cs = Returned f0 ->
  f0 = {| coeffs := cs; buffer := make zero (len cs); pos := len cs - 1 |}
  /\ 0 < len cs.
Proof.
  unfold NewFIRFilter.
  destruct (Z.eqb_spec (len cs) 0) as [E|E]; [discriminate|].
  intros [= <-]. split; [reflexivity|]. pose proof (len_nonneg cs). lia.
Qed.

(** One tick on a well-formed filter whose buffer holds [hist]. *)
Lemma Tick_holds (f : FIRFilter F) (hist : list F) (x : F) :
  wf f -> holds (buffer f) (pos f) hist ->
  let p := (pos f + 1) mod len (buffer f) in
  let buf := upd (buffer f) (Z.to_nat p) x in
  Tick f x =
  Returned ({| coeffs := coeffs f; buffer := buf; pos := p |},
            dot (coeffs f) (window buf p (List.length (coeffs f))) zero)
  /\ holds buf p (x :: hist)
  /\ 0 <= p < len (buffer f).
Proof.
  intros (Hn & Hlen & Hpos) Hh p buf.
  assert (Hp : 0 <= p < len (buffer f)) by (apply Z.mod_pos_bound; lia).
  split; [|split; [|exact Hp]].
  - unfold Tick. rewrite go_rem_ok by lia. cbn [bind]. fold p.
    rewrite store_ok by assumption. cbn [bind]. fold buf.
    rewrite conv_loop_window by (unfold buf; rewrite len_upd; assumption).
    reflexivity.
  - apply holds_push with (q := pos f); try assumption; try lia.
    unfold p. rewrite Zminus_mod_idemp_l.
    replace (pos f + 1 - 1) with (pos f) by lia.
    now rewrite Z.mod_small by lia.
Qed.

Lemma reached_inv (cs : list F) (f : FIRFilter F) (hist : list F) :
  reached cs f hist ->
  wf f /\ coeffs f = cs /\ holds (buffer f) (pos f) hist.
Proof.
  induction 1 as [f0 Hnew | f hist x f' y _ (Hwf & Hcs & Hh) Ht
                 | f hist _ (Hwf & Hcs & Hh)].
  - apply NewFIRFilter_inv in Hnew as [-> Hn]. unfold wf; cbn.
    rewrite len_make by lia. repeat split; try lia. apply holds_make.
  - destruct (Tick_holds x Hwf Hh) as (Ht' & Hh' & Hp).
    rewrite Ht in Ht'. injection Ht' as -> _.
    destruct Hwf as (Hn & Hlen & Hpos). unfold wf; cbn.
    rewrite len_upd. repeat split; try assumption; lia.
  - destruct Hwf as (Hn & Hlen & Hpos). unfold wf, Reset; cbn.
    rewrite map_const_make, len_make by lia.
    repeat split; try assumption; try lia. apply holds_make.
Qed.

(** A reset filter is the freshly constructed one. *)
Lemma Reset_fresh (cs : list F) (f : FIRFilter F) (hist : list F) :
  reached cs f hist -> NewFIRFilter cs = Returned (Reset f).
Proof.
  intros Hr. destruct (reached_inv Hr) as ((Hn & Hlen & Hpos) & Hcs & _).
  rewrite Hcs in Hn.
  rewrite NewFIRFilter_ok by (intros ->; unfold len in Hn; simpl in Hn; lia).
  unfold Reset. rewrite map_const_make, Hlen, Hcs. reflexivity.
Qed.

(** Ticking never panics on a reachable filter. *)
Lemma ticks_total (cs : list F) (inputs : list F) :
  forall f hist, reached cs f hist ->
  exists f' ys, ticks f inputs = Returned (f', ys)
                /\ reached cs f' (rev inputs ++ hist)
                /\ List.length ys = List.length inputs.
Proof.
  induction inputs as [|x rest IH]; intros f hist Hr.
  - exists f, []. now repeat split.
  - destruct (reached_inv Hr) as (Hwf & _ & Hh).
    destruct (Tick_holds x Hwf Hh) as (Ht & _ & _).
    pose proof (reached_tick x Hr Ht) as Hr'.
    destruct (IH _ _ Hr') as (f' & ys & Hts & Hr'' & Hl).
    eexists f', (_ :: ys). cbn [ticks]. rewrite Ht. cbn [bind]. rewrite Hts.
    cbn [bind rev List.length]. rewrite <- app_assoc. cbn [app].
    repeat split; [exact Hr'' | now rewrite Hl].
Qed.
End WithScalar.
End FIRFacts.

(** C1. On every filter obtained from the constructor (with a non-empty
    coefficient sequence) by ticks and resets, [Tick] returns: it moves the
    cursor one cell forward modulo the buffer length, writes the input in
    that cell, leaves the coefficients alone and returns the convolution sum
    over the ring buffer, which pairs the newest sample with [b[0]] and the
    sample ticked in [k] steps earlier with [b[k]] (zero before the first
    sample).  Every non-empty coefficient sequence is accepted, and on
    binary64 the coefficients [1, 2, 3] answer the impulse [1, 0, 0, 0] with
    [1, 2, 3, 0]. *)
Theorem fir_tick_convolution :
  (forall (F : Type) (S : Scalar F) (cs : list F) (f : FIR.FIRFilter F)
          (hist : list F) (x : F),
      FIRSpec.reached cs f hist ->
      exists f' y,
        FIR.Tick f x = Returned (f', y)
        /\ FIR.pos f' = (FIR.pos f + 1) mod len cs
        /\ FIR.buffer f' = upd (FIR.buffer f) (Z.to_nat (FIR.pos f')) x
        /\ FIR.coeffs f' = cs
        /\ y = dot cs (window (FIR.buffer f') (FIR.pos f') (List.length cs)) zero
        /\ y = dot cs (recent (x :: hist) (List.length cs)) zero)
  /\ (forall (F : Type) (S : Scalar F) (cs : list F),
         cs <> [] ->
         exists f0, FIR.NewFIRFilter cs = Returned f0 /\ FIRSpec.reached cs f0 [])
  /\ fir_run [1; 2; 3]%float [1; 0; 0; 0]%float = Returned [1; 2; 3; 0]%float.
Proof.
  split; [|split].
  - intros F S cs f hist x Hr.
    destruct (FIRFacts.reached_inv Hr) as (Hwf & Hcs & Hh).
    destruct (FIRFacts.Tick_holds x Hwf Hh) as (Ht & Hh' & Hp).
    destruct Hwf as (Hn & Hlen & Hpos).
    eexists _, _. split; [exact Ht|]. cbn [FIR.pos FIR.buffer FIR.coeffs].
    rewrite Hcs in *. rewrite Hlen in *.
    repeat split.
    f_equal. apply window_recent; [exact Hh'|].
    rewrite len_upd, Hlen. unfold len. lia.
  - intros F S cs Hcs. eexists. split.
    + apply FIRFacts.NewFIRFilter_ok, Hcs.
    + constructor. apply FIRFacts.NewFIRFilter_ok, Hcs.
  - vm_compute. reflexivity.
Qed.

(** The first tick of the test filter. *)
Lemma fir_tick_convolution_witness :
  exists f' y,
    FIR.Tick fir123 1%float = Returned (f', y)
    /\ FIR.pos f' = (FIR.pos fir123 + 1) mod len [1; 2; 3]%float
    /\ FIR.buffer f' = upd (FIR.buffer fir123) (Z.to_nat (FIR.pos f')) 1%float
    /\ FIR.coeffs f' = [1; 2; 3]%float
    /\ y = dot [1; 2; 3]%float (window (FIR.buffer f') (FIR.pos f') 3) zero
    /\ y = dot [1; 2; 3]%float (recent [1%float] 3) zero.
Proof.
  apply (proj1 fir_tick_convolution float binary64 [1; 2; 3]%float fir123 []).
  apply FIRSpec.reached_new. vm_compute. reflexivity.
Defined.

(** C7. Whatever ticks and resets a filter built from [cs] has been through,
    after [Reset] it answers any input sequence exactly as the filter
    freshly built from [cs] does: same outputs, same final state, and
    neither run panics. *)
Theorem fir_reset_replays_fresh :
  forall (F : Type) (S : Scalar F) (cs : list F) (f : FIR.FIRFilter F)
         (hist s : list F),
    FIRSpec.reached cs f hist ->
    exists f0 f1 ys,
      FIR.NewFIRFilter cs = Returned f0
      /\ FIR.ticks f0 s = Returned (f1, ys)
      /\ FIR.ticks (FIR.Reset f) s = Returned (f1, ys)
      /\ List.length ys = List.length s.
Proof.
  intros F S cs f hist s Hr.
  pose proof (FIRFacts.Reset_fresh Hr) as Hnew.
  destruct (FIRFacts.ticks_total s (FIRSpec.reached_new _ Hnew))
    as (f1 & ys & Hts & _ & Hl).
  exists (FIR.Reset f), f1, ys. auto.
Qed.

(** The test filter after two ticks, reset, against a fresh one. *)
Lemma fir_reset_replays_fresh_witness :
  exists f0 f1 ys,
    FIR.NewFIRFilter [1; 2; 3]%float = Returned f0
    /\ FIR.ticks f0 [1; 0; 0; 0]%float = Returned (f1, ys)
    /\ FIR.ticks
         (FIR.Reset {| FIR.coeffs := [1; 2; 3]%float;
                       FIR.buffer := [5; 7; 0]%float; FIR.pos := 1 |})
         [1; 0; 0; 0]%float = Returned (f1, ys)
    /\ List.length ys = 4%nat.
Proof.
  apply (fir_reset_replays_fresh (S := binary64) (cs := [1; 2; 3]%float)
           (hist := [7; 5]%float) [1; 0; 0; 0]%float).
  apply FIRSpec.reached_tick with (f := {| FIR.coeffs := [1; 2; 3]%float;
                                            FIR.buffer := [5; 0; 0]%float;
                                            FIR.pos := 0 |}) (y := 17%float);
    [|vm_compute; reflexivity].
  apply FIRSpec.reached_tick with (f := fir123) (y := 5%float);
    [|vm_compute; reflexivity].
  apply FIRSpec.reached_new. vm_compute. reflexivity.
Defined.

(** ** IIR engine *)

(** Go's remainder, corrected by the divisor when negative, is the
    mathematical residue. *)
Lemma rem_fixup (a b : Z) :
  0 < b ->
  (if Z.rem a b <? 0 then Z.rem a b + b else Z.rem a b) = a mod b.
Proof.
  intros Hb.
  pose proof (Z.quot_rem' a b) as E.
  assert (Habs : Z.abs (Z.rem a b) < Z.abs b) by (apply Z.rem_bound_abs; lia).
  destruct (Z.ltb_spec (Z.rem a b) 0) as [Hneg|Hpos].
  - apply Zmod_unique with (q := Z.quot a b - 1); lia.
  - apply Zmod_unique with (q := Z.quot a b); lia.
Qed.

Module IIRFacts.
Import IIR IIRSpec.

Section WithScalar.
Context {F : Type} `{Scalar F}.

Lemma lookback_look (buf : list F) (p i : Z) :
  0 < len buf -> lookback buf p i = Returned (look buf p i).
Proof.
  intros Hn. unfold lookback, go_rem.
  replace (len buf =? 0) with false by (symmetry; apply Z.eqb_neq; lia).
  cbn [bind]. rewrite rem_fixup by assumption.
  apply index_ok, Z.mod_pos_bound, Hn.
Qed.

Lemma feedforward_window (bs buf : list F) (p : Z) (k : nat) (out : F) :
  0 < len buf ->
  feedforward bs (Z.of_nat k) buf p out
  = Returned (dot bs (window_from buf p k (List.length bs)) out).
Proof.
  intros Hn. revert k out; induction bs as [|b bs IH]; intros k out;
    [reflexivity|].
  cbn [feedforward]. rewrite lookback_look by assumption. cbn [bind].
  replace (Z.of_nat k + 1) with (Z.of_nat (S k)) by lia.
  rewrite IH. reflexivity.
Qed.

Lemma feedback_window (cs buf : list F) (p : Z) (k : nat) (out : F) :
  0 < len buf ->
  feedback cs (Z.of_nat k) buf p out
  = Returned (dot_sub cs (window_from buf p k (List.length cs)) out).
Proof.
  intros Hn. revert k out; induction cs as [|c cs IH]; intros k out;
    [reflexivity|].
  cbn [feedback]. rewrite lookback_look by assumption. cbn [bind].
  replace (Z.of_nat k + 1) with (Z.of_nat (S k)) by lia.
  rewrite IH. reflexivity.
Qed.

Lemma NewIIRFilter_ok (b a : list F) :
  b <> [] -> a <> [] ->
  NewIIRFilter b a =
  Returned {| bCoeffs := fst (normalized b a); aCoeffs := snd (normalized b a);
              xBuffer := make zero (len b); yBuffer := make zero (len a);
              xPos := 0; yPos := 0; order := Z.max (len b) (len a) - 1 |}.
Proof.
  intros Hb Ha. unfold NewIIRFilter, normalized.
  destruct b as [|b0 b]; [congruence|]. destruct a as [|a0 a]; [congruence|].
  replace (len (b0 :: b) =? 0) with false
    by (symmetry; apply Z.eqb_neq; unfold len; simpl; lia).
  replace (len (a0 :: a) =? 0) with false
    by (symmetry; apply Z.eqb_neq; unfold len; simpl; lia).
  rewrite index_ok by (unfold len; simpl; lia). cbn [bind Z.to_nat nth].
  destruct (gtb _ _); cbn [fst snd]; unfold len;
    rewrite ?length_map; reflexivity.
Qed.

Lemma NewIIRFilter_inv (b a : list F) (f0 : IIRFilter F) :
  NewIIRFilter b a = Returned f0 ->
  b <> [] /\ a <> []
  /\ f0 = {| bCoeffs := fst (normalized b a); aCoeffs := snd (normalized b a);
             xBuffer := make zero (len b); yBuffer := make zero (len a);
             xPos := 0; yPos := 0; order := Z.max (len b) (len a) - 1 |}.
Proof.
  intros Hnew.
  destruct b as [|b0 b]; [discriminate|].
  destruct a as [|a0 a]; [discriminate|].
  rewrite NewIIRFilter_ok in Hnew by discriminate.
  injection Hnew as <-. repeat split; discriminate.
Qed.

Lemma len_normalized (b a : list F) :
  len (fst (normalized b a)) = len b /\ len (snd (normalized b a)) = len a.
Proof.
  unfold normalized. destruct (gtb _ _); cbn [fst snd]; unfold len;
    rewrite ?length_map; auto.
Qed.
Lemma pred_succ_mod (p m : Z) : 0 <= p < m -> ((p + 1) mod m - 1) mod m = p.
Proof.
  intros Hp. rewrite Zminus_mod_idemp_l.
  replace (p + 1 - 1) with p by lia. now apply Z.mod_small.
Qed.

Lemma Tick_tracks (f : IIRFilter F) (xs ys : list F) (x : F) :
  tracks f xs ys ->
  Tick f x = Returned (tick_state f x, tick_output f x)
  /\ tick_output f x = recurrence (bCoeffs f) (aCoeffs f) (x :: xs) ys
  /\ tracks (tick_state f x) (x :: xs) (tick_output f x :: ys).
Proof.
  intros ((Hb & Ha & Hxl & Hyl & Hxp & Hyp) & Hx & Hy).
  assert (Hx' : holds (upd (xBuffer f) (Z.to_nat (xPos f)) x) (xPos f) (x :: xs)).
  { apply holds_push with (q := (xPos f - 1) mod len (xBuffer f));
      auto; lia. }
  assert (Hy' : holds (upd (yBuffer f) (Z.to_nat (yPos f)) (tick_output f x))
                      (yPos f) (tick_output f x :: ys)).
  { apply holds_push with (q := (yPos f - 1) mod len (yBuffer f));
      auto; lia. }
  assert (Hla : List.length (skipn 1 (aCoeffs f)) = (List.length (aCoeffs f) - 1)%nat).
  { now rewrite length_skipn. }
  split; [|split].
  - unfold Tick. rewrite store_ok by assumption. cbn [bind].
    change 0 with (Z.of_nat 0).
    rewrite feedforward_window by (rewrite len_upd; lia). cbn [bind].
    change 1 with (Z.of_nat 1) at 1.
    rewrite feedback_window by lia. cbn [bind]. rewrite Hla.
    fold (tick_output f x).
    rewrite store_ok by assumption. cbn [bind].
    rewrite !go_rem_ok by (rewrite ?len_upd; lia). cbn [bind].
    rewrite !len_upd, Hxl, Hyl. reflexivity.
  - unfold tick_output, recurrence. f_equal.
    + unfold window_from. rewrite window_shift by lia.
      apply window_recent; [exact Hy|]. unfold len in *. lia.
    + f_equal. apply window_recent; [exact Hx'|].
      rewrite len_upd. unfold len in *. lia.
  - unfold tracks, wf, tick_state; cbn.
    rewrite !len_upd, <- Hxl, <- Hyl, !pred_succ_mod by assumption.
    repeat split; try lia; try assumption;
      try (apply Z.mod_pos_bound; lia).
Qed.

Lemma reached_tracks (b a : list F) (f : IIRFilter F) (xs ys : list F) :
  reached b a f xs ys -> tracks f xs ys.
Proof.
  induction 1 as [f0 Hnew | f xs ys x f' y _ IH Ht | f xs ys _ IH].
  - apply NewIIRFilter_inv in Hnew as (Hb & Ha & ->).
    destruct (len_normalized b a) as [Eb Ea].
    assert (0 < len b) by (destruct b; [congruence | unfold len; simpl; lia]).
    assert (0 < len a) by (destruct a; [congruence | unfold len; simpl; lia]).
    unfold tracks, wf; cbn. rewrite Eb, Ea, !len_make by lia.
    repeat split; try lia; apply holds_make.
  - destruct (Tick_tracks x IH) as (Ht' & _ & Htr).
    rewrite Ht in Ht'. injection Ht' as -> ->. exact Htr.
  - destruct IH as ((Hb & Ha & Hxl & Hyl & Hxp & Hyp) & _ & _).
    unfold tracks, wf, Reset; cbn.
    rewrite !map_const_make, !len_make by lia.
    repeat split; try lia; apply holds_make.
Qed.

(** No method changes the coefficients. *)
Lemma Tick_coeffs (f f' : IIRFilter F) (x y : F) :
  Tick f x = Returned (f', y) ->
  bCoeffs f' = bCoeffs f /\ aCoeffs f' = aCoeffs f.
Proof.
  unfold Tick.
  repeat match goal with
         | |- context [bind ?m _] => destruct m; cbn [bind]; try discriminate
         end.
  intros [= <- _]. auto.
Qed.

Lemma Process_coeffs (input : list F) :
  forall (f f' : IIRFilter F) (ys : list F),
    Process f input = Returned (f', ys) ->
    bCoeffs f' = bCoeffs f /\ aCoeffs f' = aCoeffs f.
Proof.
  induction input as [|x rest IH]; intros f f' ys; cbn [Process].
  - intros [= <- _]. auto.
  - destruct (Tick f x) as [[f1 y]|] eqn:Ht; cbn [bind]; [|discriminate].
    destruct (Process f1 rest) as [[f2 ys']|] eqn:Hp; cbn [bind]; [|discriminate].
    intros [= <- _].
    destruct (Tick_coeffs _ _ Ht) as [Eb Ea]. rewrite <- Eb, <- Ea.
    eapply IH, Hp.
Qed.

Lemma reached_coeffs (b a : list F) (f : IIRFilter F) (xs ys : list F) :
  reached b a f xs ys -> (bCoeffs f, aCoeffs f) = normalized b a.
Proof.
  induction 1 as [f0 Hnew | f xs ys x f' y _ IH Ht | f xs ys _ IH].
  - apply NewIIRFilter_inv in Hnew as (_ & _ & ->). cbn.
    now destruct (normalized b a).
  - destruct (Tick_coeffs _ _ Ht) as [-> ->]. exact IH.
  - exact IH.
Qed.

Lemma Process_total (b a input : list F) :
  forall f xs ys, reached b a f xs ys ->
  exists f' out, Process f input = Returned (f', out)
                 /\ List.length out = List.length input.
Proof.
  induction input as [|x rest IH]; intros f xs ys Hr.
  - exists f, []. auto.
  - destruct (Tick_tracks x (reached_tracks Hr)) as (Ht & _ & _).
    destruct (IH _ _ _ (reached_tick x Hr Ht)) as (f' & out & Hp & Hl).
    exists f', (tick_output f x :: out). cbn [Process].
    rewrite Ht. cbn [bind]. rewrite Hp. cbn [bind List.length]. auto.
Qed.
End WithScalar.
End IIRFacts.

(** C2. On every filter obtained from the constructor by ticks and resets,
    [Tick] returns: it stores the input at the input cursor, computes
    [y = sum_(i<P) b[i]*x[n-i] - sum_(1<=i<Q) a[i]*y[n-i]] from the two ring
    buffers (which hold exactly the histories, zero before the first
    sample), stores [y] at the output cursor and advances both cursors
    modulo the buffer lengths, leaving the coefficients alone.  On binary64
    the filter [b = [0.5]], [a = [1, 0.3]] answers the impulse
    [1, 0, 0, 0, 0] with [0.5, -0.15, 0.045, -0.0135, 0.00405]. *)
Theorem iir_tick_recurrence :
  (forall (F : Type) (S : Scalar F) (b a : list F) (f : IIR.IIRFilter F)
          (xs ys : list F) (x : F),
      IIRSpec.reached b a f xs ys ->
      exists f' y,
        IIR.Tick f x = Returned (f', y)
        /\ y = IIRSpec.recurrence (IIR.bCoeffs f) (IIR.aCoeffs f) (x :: xs) ys
        /\ y = IIRSpec.tick_output f x
        /\ IIR.xBuffer f' = upd (IIR.xBuffer f) (Z.to_nat (IIR.xPos f)) x
        /\ IIR.yBuffer f' = upd (IIR.yBuffer f) (Z.to_nat (IIR.yPos f)) y
        /\ IIR.xPos f' = (IIR.xPos f + 1) mod len (IIR.xBuffer f)
        /\ IIR.yPos f' = (IIR.yPos f + 1) mod len (IIR.yBuffer f)
        /\ IIR.bCoeffs f' = IIR.bCoeffs f /\ IIR.aCoeffs f' = IIR.aCoeffs f
        /\ IIRSpec.reached b a f' (x :: xs) (y :: ys))
  /\ iir_run [0.5]%float [1; 0.3]%float [1; 0; 0; 0; 0]%float
     = Returned [0.5; -0.15; 0.045; -0.0135; 0.00405]%float.
Proof.
  split.
  - intros F S b a f xs ys x Hr.
    pose proof (IIRFacts.reached_tracks Hr) as Htr.
    destruct (IIRFacts.Tick_tracks x Htr) as (Ht & Hrec & _).
    destruct Htr as ((_ & _ & Hxl & Hyl & _) & _).
    exists (IIRSpec.tick_state f x), (IIRSpec.tick_output f x).
    cbn [IIRSpec.tick_state IIR.xBuffer IIR.yBuffer IIR.xPos IIR.yPos
         IIR.bCoeffs IIR.aCoeffs].
    rewrite Hxl, Hyl.
    repeat split; try assumption.
    eapply IIRSpec.reached_tick; eassumption.
  - vm_compute. reflexivity.
Qed.

(** The first tick of the test filter. *)
Lemma iir_tick_recurrence_witness :
  exists f' y,
    IIR.Tick iir_test 1%float = Returned (f', y)
    /\ y = IIRSpec.recurrence (IIR.bCoeffs iir_test) (IIR.aCoeffs iir_test)
                                [1%float] []
    /\ y = IIRSpec.tick_output iir_test 1%float
    /\ IIR.xBuffer f' = upd (IIR.xBuffer iir_test) (Z.to_nat (IIR.xPos iir_test)) 1%float
    /\ IIR.yBuffer f' = upd (IIR.yBuffer iir_test) (Z.to_nat (IIR.yPos iir_test)) y
    /\ IIR.xPos f' = (IIR.xPos iir_test + 1) mod len (IIR.xBuffer iir_test)
    /\ IIR.yPos f' = (IIR.yPos iir_test + 1) mod len (IIR.yBuffer iir_test)
    /\ IIR.bCoeffs f' = IIR.bCoeffs iir_test
    /\ IIR.aCoeffs f' = IIR.aCoeffs iir_test
    /\ IIRSpec.reached [0.5]%float [1; 0.3]%float f' [1%float] [y].
Proof.
  apply (proj1 iir_tick_recurrence float binary64 [0.5]%float [1; 0.3]%float
               iir_test [] [] 1%float).
  apply IIRSpec.reached_new. vm_compute. reflexivity.
Defined.

(** ** Exact arithmetic: the comparisons decide the order of the reals *)

Module ExactFacts.
Import Exact.

Lemma Rltb_lt (x y : R) : Rltb x y = true <-> (x < y)%R.
Proof. unfold Rltb; destruct (Rlt_dec x y); split; auto; discriminate. Qed.

Lemma Rltb_ge (x y : R) : Rltb x y = false <-> (y <= x)%R.
Proof.
  unfold Rltb; destruct (Rlt_dec x y); split; auto; try discriminate; lra.
Qed.

Lemma Rleb_le (x y : R) : Rleb x y = true <-> (x <= y)%R.
Proof. unfold Rleb; destruct (Rle_dec x y); split; auto; discriminate. Qed.

Lemma Rleb_gt (x y : R) : Rleb x y = false <-> (y < x)%R.
Proof.
  unfold Rleb; destruct (Rle_dec x y); split; auto; try discriminate; lra.
Qed.

Lemma Reqb_eq (x y : R) : Reqb x y = true <-> x = y.
Proof. unfold Reqb; destruct (Req_dec_T x y); split; auto; discriminate. Qed.

Lemma lit_0 : (lit 0 : R) = 0%R.
Proof. cbn; unfold Q2R; cbn; lra. Qed.

Lemma lit_1 : (lit 1 : R) = 1%R.
Proof. cbn; unfold Q2R; cbn; lra. Qed.

Lemma lit_1_0 : (lit 1.0 : R) = 1%R.
Proof. cbn; unfold Q2R; cbn; lra. Qed.

Lemma lit_2 : (lit 2 : R) = 2%R.
Proof. cbn; unfold Q2R; cbn; lra. Qed.

Lemma lit_tol : (lit 1e-10 : R) = (/ 10000000000)%R.
Proof. cbn; unfold Q2R; cbn; lra. Qed.
End ExactFacts.




(** C6. [IsStable] answers by the length of the feedback sequence: true for
    length at most 1; [|a1| < 1] for length 2; the four inequalities
    [a2 < 1], [a2 > -1], [a2 > -a1 - 1], [a2 > a1 - 1] together for length 3;
    true for every longer sequence.  In exact arithmetic the comparisons are
    the order of the reals.  On binary64 the filter with [a = [1, 1.5]] is
    reported unstable and the one with [a = [1, 0.3]] stable. *)
Theorem iir_is_stable_by_cases :
  (forall (F : Type) (Sc : Scalar F) (f : IIR.IIRFilter F),
      IIR.IsStable f =
      match IIR.aCoeffs f with
      | [] | [_] => true
      | [_; a1] => ltb (fabs a1) (lit 1.0)
      | [_; a1; a2] =>
          ltb a2 (lit 1.0) && gtb a2 (lit (-1.0))
          && gtb a2 (sub (opp a1) (lit 1.0)) && gtb a2 (sub a1 (lit 1.0))
      | _ :: _ :: _ :: _ :: _ => true
      end)
  /\ (forall (f : IIR.IIRFilter R) (a0 a1 : R),
         IIR.aCoeffs f = [a0; a1] ->
         (IIR.IsStable f = true <-> (Rabs a1 < 1)%R))
  /\ (forall (f : IIR.IIRFilter R) (a0 a1 a2 : R),
         IIR.aCoeffs f = [a0; a1; a2] ->
         (IIR.IsStable f = true
          <-> (a2 < 1 /\ a2 > -1 /\ a2 > - a1 - 1 /\ a2 > a1 - 1)%R))
  /\ stable_of [0.5]%float [1; 1.5]%float = Returned false
  /\ stable_of [0.5]%float [1; 0.3]%float = Returned true.
Proof.
  assert (Hm1 : (lit (-1.0) : R) = (-1)%R) by (cbn; unfold Q2R; cbn; lra).
  split; [|split; [|split; [|split]]].
  - intros F Sc f. unfold IIR.IsStable.
    destruct (IIR.aCoeffs f) as [|a0 [|a1 [|a2 [|a3 rest]]]]; try reflexivity.
    unfold len. cbn [List.length].
    destruct (Z.leb_spec (Z.of_nat (S (S (S (S (List.length rest)))))) 1); [lia|].
    destruct (Z.eqb_spec (Z.of_nat (S (S (S (S (List.length rest)))))) 2); [lia|].
    destruct (Z.eqb_spec (Z.of_nat (S (S (S (S (List.length rest)))))) 3); [lia|].
    reflexivity.
  - intros f a0 a1 Ha. unfold IIR.IsStable. rewrite Ha.
    cbn [len List.length Z.of_nat nth].
    cbn [Z.leb Z.eqb Pos.of_succ_nat Pos.succ Z.compare Pos.compare
         Pos.compare_cont Pos.eqb gtb ltb fabs exact].
    rewrite ExactFacts.lit_1_0. apply ExactFacts.Rltb_lt.
  - intros f a0 a1 a2 Ha. unfold IIR.IsStable. rewrite Ha.
    cbn [len List.length Z.of_nat nth].
    cbn [Z.leb Z.eqb Pos.of_succ_nat Pos.succ Z.compare Pos.compare
         Pos.compare_cont Pos.eqb gtb ltb sub opp exact].
    rewrite ExactFacts.lit_1_0, Hm1.
    rewrite !andb_true_iff, !ExactFacts.Rltb_lt. split; intros; lra.
  - vm_compute. reflexivity.
  - vm_compute. reflexivity.
Qed.

(** The first-order filter with [a = [1, 0.3]], in exact arithmetic. *)
Lemma iir_is_stable_by_cases_witness :
  IIR.IsStable {| IIR.bCoeffs := [1 / 2]%R; IIR.aCoeffs := [1; 3 / 10]%R;
                  IIR.xBuffer := [0]%R; IIR.yBuffer := [0; 0]%R;
                  IIR.xPos := 0; IIR.yPos := 0; IIR.order := 1 |} = true.
Proof.
  apply (proj1 (proj2 iir_is_stable_by_cases)
           {| IIR.bCoeffs := [1 / 2]%R; IIR.aCoeffs := [1; 3 / 10]%R;
              IIR.xBuffer := [0]%R; IIR.yBuffer := [0; 0]%R;
              IIR.xPos := 0; IIR.yPos := 0; IIR.order := 1 |}
           1%R (3 / 10)%R eq_refl).
  rewrite Rabs_pos_eq; lra.
Defined.

(** ** Construction failures *)

Module DesignFacts.
Import IIR.

Section WithScalar.
Context {F : Type} `{Scalar F} `{Libm F}.

Lemma biquad_bad_cutoff (fc Q : F) num :
  bad_cutoff fc = true -> biquad fc Q num = Panicked cutoff_msg.
Proof. intros E; unfold biquad; now rewrite E. Qed.

Lemma biquad_bad_q (fc Q : F) num :
  bad_cutoff fc = false -> leb Q (lit 0) = true ->
  biquad fc Q num = Panicked q_msg.
Proof. intros E1 E2; unfold biquad; now rewrite E1, E2. Qed.

Lemma NewIIRFilter_returns (b a : list F) :
  b <> [] -> a <> [] -> returns (NewIIRFilter b a).
Proof.
  intros Hb Ha. eexists. apply IIRFacts.NewIIRFilter_ok; assumption.
Qed.

Lemma biquad_returns (fc Q : F) num :
  bad_cutoff fc = false -> leb Q (lit 0) = false -> returns (biquad fc Q num).
Proof.
  intros E1 E2; unfold biquad; rewrite E1, E2.
  destruct (num _ _) as [[b0 b1] b2].
  apply NewIIRFilter_returns; discriminate.
Qed.
End WithScalar.

Lemma bad_cutoff_exact (fc : R) :
  bad_cutoff fc = true <-> (fc <= 0 \/ fc >= 1 / 2)%R.
Proof.
  assert (Hh : (lit 0.5 : R) = (1 / 2)%R) by (cbn; unfold Q2R; cbn; lra).
  unfold bad_cutoff, geb. rewrite ExactFacts.lit_0, Hh.
  cbn [leb exact]. rewrite orb_true_iff, !ExactFacts.Rleb_le. lra.
Qed.

Lemma bad_q_exact (Q : R) : leb Q (lit 0) = true <-> (Q <= 0)%R.
Proof. rewrite ExactFacts.lit_0. apply ExactFacts.Rleb_le. Qed.
End DesignFacts.

Module GoertzelFacts.
Import Goertzel GoertzelSpec.

Section WithScalar.
Context {F : Type} `{Scalar F} `{Libm F}.

Lemma New_invalid (freq samplingRate : F) (totalN : Z) :
  invalid freq samplingRate totalN = true ->
  exists p v r,
    NewGoertzelFilter freq samplingRate totalN = Err (InvalidParameterError p v r).
Proof.
  unfold invalid, NewGoertzelFilter.
  destruct (leb freq (lit 0)); [eauto|].
  destruct (leb samplingRate (lit 0)); [eauto|].
  destruct (totalN <=? 0); [eauto|].
  destruct (geb freq (div samplingRate (lit 2))); [eauto|discriminate].
Qed.

Lemma New_valid (freq samplingRate : F) (totalN : Z) :
  invalid freq samplingRate totalN = false ->
  exists g,
    NewGoertzelFilter freq samplingRate totalN = Ok g
    /\ Goertzel.totalN g = totalN /\ n g = 0 /\ 0 < totalN
    /\ q1 g = lit 0 /\ q2 g = lit 0
    /\ cosW g = fcos (w g) /\ sinW g = fsin (w g)
    /\ coeff g = mul (lit 2) (fcos (w g)).
Proof.
  unfold invalid, NewGoertzelFilter.
  destruct (leb freq (lit 0)); [discriminate|].
  destruct (leb samplingRate (lit 0)); [discriminate|].
  destruct (Z.leb_spec totalN 0); [discriminate|].
  destruct (geb freq (div samplingRate (lit 2))); [discriminate|].
  intros _. eexists. split; [reflexivity|]. cbn. repeat split. assumption.
Qed.
End WithScalar.
End GoertzelFacts.

(** C9, as stated, fails: the FIR and IIR constructors and the design
    factories do not return an error value, they panic.  Empty coefficient
    sequences on binary64; a cutoff of 0.7 and a quality factor of -1 in exact
    arithmetic. *)
Lemma constructors_panic :
  panics (FIR.NewFIRFilter (@nil float))
  /\ panics (IIR.NewIIRFilter (@nil float) [1; 0.5]%float)
  /\ panics (IIR.NewIIRFilter [0.5]%float (@nil float))
  /\ panics (IIR.NewFirstOrderLowPass 0.7%R)
  /\ panics (IIR.NewSecondOrderLowPass 0.1%R (-1)%R).
Proof.
  split; [eexists; reflexivity|].
  split; [eexists; reflexivity|].
  split; [eexists; reflexivity|].
  split.
  - exists IIR.cutoff_msg. unfold IIR.NewFirstOrderLowPass.
    replace (IIR.bad_cutoff 0.7%R) with true; [reflexivity|].
    symmetry. apply DesignFacts.bad_cutoff_exact. lra.
  - exists IIR.q_msg. apply DesignFacts.biquad_bad_q.
    + destruct (IIR.bad_cutoff 0.1%R) eqn:E; [|reflexivity].
      apply DesignFacts.bad_cutoff_exact in E. lra.
    + apply DesignFacts.bad_q_exact. lra.
Qed.

(** C9, amended.  A construction-time validation failure of the FIR
    constructor, the IIR constructor or a design factory is a panic carrying
    the failure's message: an empty coefficient sequence, a cutoff with
    [fc <= 0] or [fc >= 0.5], a quality factor with [Q <= 0] (checked after
    the cutoff).  A panic yields no filter, and every other input yields
    one.  Only the Goertzel constructor returns its validation failures as
    an error value, an [InvalidParameterError], and it does so exactly when
    one of its four checks fails. *)
Theorem construction_failures_panic :
  (forall (F : Type) (Sc : Scalar F),
      FIR.NewFIRFilter (@nil F) = Panicked "FIRFilter: coefficients cannot be empty"
      /\ (forall a : list F,
             IIR.NewIIRFilter [] a
             = Panicked "IIRFilter: b coefficients cannot be empty")
      /\ (forall b : list F,
             b <> [] ->
             IIR.NewIIRFilter b []
             = Panicked "IIRFilter: a coefficients cannot be empty")
      /\ (forall cs : list F, cs <> [] -> returns (FIR.NewFIRFilter cs))
      /\ (forall b a : list F, b <> [] -> a <> [] -> returns (IIR.NewIIRFilter b a)))
  /\ (forall (F : Type) (Sc : Scalar F) (L : Libm F) (fc : F),
         IIR.bad_cutoff fc = true ->
         IIR.NewFirstOrderLowPass fc = Panicked IIR.cutoff_msg
         /\ IIR.NewFirstOrderHighPass fc = Panicked IIR.cutoff_msg
         /\ IIR.NewFirstOrderLowPassExp fc = Panicked IIR.cutoff_msg
         /\ IIR.NewFirstOrderHighPassExp fc = Panicked IIR.cutoff_msg
         /\ (forall Q : F,
                IIR.NewSecondOrderLowPass fc Q = Panicked IIR.cutoff_msg
                /\ IIR.NewSecondOrderHighPass fc Q = Panicked IIR.cutoff_msg
                /\ IIR.NewSecondOrderBandPass fc Q = Panicked IIR.cutoff_msg))
  /\ (forall (F : Type) (Sc : Scalar F) (L : Libm F) (fc Q : F),
         IIR.bad_cutoff fc = false -> leb Q (lit 0) = true ->
         IIR.NewSecondOrderLowPass fc Q = Panicked IIR.q_msg
         /\ IIR.NewSecondOrderHighPass fc Q = Panicked IIR.q_msg
         /\ IIR.NewSecondOrderBandPass fc Q = Panicked IIR.q_msg)
  /\ (forall (F : Type) (Sc : Scalar F) (L : Libm F) (fc : F),
         IIR.bad_cutoff fc = false ->
         returns (IIR.NewFirstOrderLowPass fc)
         /\ returns (IIR.NewFirstOrderHighPass fc)
         /\ returns (IIR.NewFirstOrderLowPassExp fc)
         /\ returns (IIR.NewFirstOrderHighPassExp fc)
         /\ (forall Q : F,
                leb Q (lit 0) = false ->
                returns (IIR.NewSecondOrderLowPass fc Q)
                /\ returns (IIR.NewSecondOrderHighPass fc Q)
                /\ returns (IIR.NewSecondOrderBandPass fc Q)))
  /\ (forall fc : R, IIR.bad_cutoff fc = true <-> (fc <= 0 \/ fc >= 1 / 2)%R)
  /\ (forall Q : R, leb Q (lit 0) = true <-> (Q <= 0)%R)
  /\ (forall (F : Type) (Sc : Scalar F) (L : Libm F) (freq samplingRate : F)
             (totalN : Z),
         GoertzelSpec.invalid freq samplingRate totalN = true
         <-> exists p v r,
             Goertzel.NewGoertzelFilter freq samplingRate totalN
             = Err (Goertzel.InvalidParameterError p v r)).
Proof.
  split; [|split; [|split; [|split; [|split; [|split]]]]].
  - intros F Sc. split; [reflexivity|]. split; [reflexivity|].
    split; [|split].
    + intros [|b0 b] Hb; [congruence|]. unfold IIR.NewIIRFilter.
      replace (len (b0 :: b) =? 0) with false; [reflexivity|].
      symmetry; apply Z.eqb_neq; unfold len; simpl; lia.
    + intros cs Hcs. eexists. apply FIRFacts.NewFIRFilter_ok, Hcs.
    + intros b a. apply DesignFacts.NewIIRFilter_returns.
  - intros F Sc L fc E.
    unfold IIR.NewFirstOrderLowPass, IIR.NewFirstOrderHighPass,
      IIR.NewFirstOrderLowPassExp, IIR.NewFirstOrderHighPassExp.
    rewrite E. repeat split; apply DesignFacts.biquad_bad_cutoff, E.
  - intros F Sc L fc Q E1 E2.
    repeat split; apply DesignFacts.biquad_bad_q; assumption.
  - intros F Sc L fc E.
    unfold IIR.NewFirstOrderLowPass, IIR.NewFirstOrderHighPass,
      IIR.NewFirstOrderLowPassExp, IIR.NewFirstOrderHighPassExp.
    rewrite E.
    repeat split;
      try (apply DesignFacts.NewIIRFilter_returns; discriminate);
      apply DesignFacts.biquad_returns; assumption.
  - apply DesignFacts.bad_cutoff_exact.
  - apply DesignFacts.bad_q_exact.
  - intros F Sc L freq samplingRate totalN. split.
    + apply GoertzelFacts.New_invalid.
    + intros (p & v & r & E).
      destruct (GoertzelSpec.invalid freq samplingRate totalN) eqn:Hi;
        [reflexivity|].
      destruct (GoertzelFacts.New_valid _ _ _ Hi) as (g & Hg & _).
      congruence.
Qed.

(** A cutoff above Nyquist, in exact arithmetic. *)
Lemma construction_failures_panic_witness :
  IIR.NewFirstOrderLowPass 0.7%R = Panicked IIR.cutoff_msg
  /\ IIR.NewSecondOrderBandPass 0.7%R 1%R = Panicked IIR.cutoff_msg.
Proof.
  assert (E : IIR.bad_cutoff 0.7%R = true).
  { apply (proj1 (proj2 (proj2 (proj2 (proj2 construction_failures_panic))))).
    right. lra. }
  destruct (proj1 (proj2 construction_failures_panic) R exact exact_libm
                  0.7%R E) as (H1 & _ & _ & _ & H2).
  split; [exact H1 | apply H2].
Defined.

(** ** Frequency response *)

Section PolynomialFacts.
Context {F : Type} `{Scalar F}.

Lemma zsum_loop_terms (cs : list F) (z : complex F) :
  forall (k : nat) (sum : complex F),
    IIR.zsum_loop cs z sum (zpow z k) = zterms cs z k sum.
Proof.
  induction cs as [|c cs IH]; intros k sum; [reflexivity|].
  cbn [IIR.zsum_loop zterms]. apply (IH (S k)).
Qed.
End PolynomialFacts.

Module ComplexFacts.
Lemma de_moivre (t : R) (k : nat) :
  zpow (cos t, sin t) k = (cos (INR k * t), sin (INR k * t))%R.
Proof.
  induction k as [|k IH].
  - cbn [zpow]. unfold IIR.cone. rewrite ExactFacts.lit_1, ExactFacts.lit_0.
    cbn [INR]. now rewrite Rmult_0_l, cos_0, sin_0.
  - cbn [zpow]. rewrite IH, S_INR.
    replace ((INR k + 1) * t)%R with (INR k * t + t)%R by ring.
    rewrite cos_plus, sin_plus. unfold cmul, re, im. cbn. f_equal. ring.
Qed.

Lemma cdiv_cmul (x y : complex R) :
  y <> (0, 0)%R -> cmul (cdiv x y) y = x.
Proof.
  destruct x as [a b], y as [c d]. intros Hy.
  assert (Hd : (c * c + d * d <> 0)%R).
  { intros E. apply Hy.
    assert (c = 0)%R by nra. assert (d = 0)%R by nra. subst. reflexivity. }
  unfold cmul, re, im. cbn. f_equal; field; assumption.
Qed.

Lemma in_range_exact (freq : R) :
  ltb freq (lit 0) || gtb freq (lit 0.5) = false <-> (0 <= freq <= 1 / 2)%R.
Proof.
  assert (Hh : (lit 0.5 : R) = (1 / 2)%R) by (cbn; unfold Q2R; cbn; lra).
  unfold gtb. rewrite ExactFacts.lit_0, Hh. cbn [ltb exact].
  rewrite orb_false_iff, !ExactFacts.Rltb_ge. lra.
Qed.

Lemma is_zero_exact (c : complex R) :
  eqb (re c) (lit 0) && eqb (im c) (lit 0) = true <-> c = (0, 0)%R.
Proof.
  destruct c as [a b]. rewrite ExactFacts.lit_0. cbn [eqb exact re im fst snd].
  rewrite andb_true_iff, !ExactFacts.Reqb_eq. split.
  - intros [-> ->]. reflexivity.
  - intros [= -> ->]. auto.
Qed.
End ComplexFacts.



(** ** Goertzel detector *)

Module GoertzelInv.
Import Goertzel GoertzelSpec.

Section WithScalar.
Context {F : Type} `{Scalar F} `{Libm F}.

Lemma New_consistent (freq samplingRate : F) (N : Z) (g : GoertzelFilter F) :
  NewGoertzelFilter freq samplingRate N = Ok g -> consistent g.
Proof.
  intros Hnew.
  destruct (GoertzelSpec.invalid freq samplingRate N) eqn:Hi.
  - destruct (GoertzelFacts.New_invalid _ _ _ Hi) as (p & v & r & E). congruence.
  - destruct (GoertzelFacts.New_valid _ _ _ Hi)
      as (g' & E & HN & Hn & Hpos & _ & _ & Hc & Hs & Hk).
    assert (g' = g) by congruence. subst g'.
    unfold consistent. rewrite HN, Hn. repeat split; auto; lia.
Qed.

Lemma Process_inv (g g' : GoertzelFilter F) (x : F) :
  Process (Some g) x = Ok g' ->
  n g < totalN g
  /\ g' = {| k := k g; w := w g; cosW := cosW g; sinW := sinW g;
             q1 := sub (add x (mul (coeff g) (q1 g))) (q2 g); q2 := q1 g;
             n := n g + 1; totalN := totalN g; coeff := coeff g |}.
Proof.
  cbn [Process]. destruct (Z.geb_spec (n g) (totalN g)); [discriminate|].
  intros [= <-]. split; [lia | reflexivity].
Qed.

Lemma reachable_consistent (g : GoertzelFilter F) :
  reachable g -> consistent g.
Proof.
  induction 1 as [freq rate N g Hnew | g x g' _ IH Hp | g g' _ IH Hr].
  - eapply New_consistent, Hnew.
  - apply Process_inv in Hp as [Hlt ->].
    destruct IH as (Hc & Hs & Hk & HN & Hn). unfold consistent; cbn.
    repeat split; auto; lia.
  - cbn [Reset] in Hr. injection Hr as <-.
    destruct IH as (Hc & Hs & Hk & HN & Hn). unfold consistent; cbn.
    repeat split; auto; lia.
Qed.
End WithScalar.

(** In exact arithmetic the two radicands are one and the same number, a
    sum of two squares. *)
Lemma radicand_exact (g : GoertzelFilter R) :
  coeff g = (2 * cos (w g))%R ->
  magnitudeSquared g
  = ((q1 g - q2 g * cos (w g)) * (q1 g - q2 g * cos (w g))
     + (q2 g * sin (w g)) * (q2 g * sin (w g)))%R.
Proof.
  intros Hk. unfold magnitudeSquared. cbn [add sub mul exact]. rewrite Hk.
  pose proof (sin2_cos2 (w g)) as E. unfold Rsqr in E.
  replace (q2 g * sin (w g) * (q2 g * sin (w g)))%R
    with (q2 g * q2 g * (sin (w g) * sin (w g)))%R by ring.
  replace (sin (w g) * sin (w g))%R with (1 - cos (w g) * cos (w g))%R by lra.
  ring.
Qed.

Lemma consistent_exact (g : GoertzelFilter R) :
  consistent g ->
  coeff g = (2 * cos (w g))%R /\ cosW g = cos (w g) /\ sinW g = sin (w g).
Proof.
  intros (Hc & Hs & Hk & _). rewrite Hk, ExactFacts.lit_2. auto.
Qed.
End GoertzelInv.


Module GoertzelExact.
Import Goertzel GoertzelSpec.

Lemma invalid_exact (freq samplingRate : R) (N : Z) :
  GoertzelSpec.invalid freq samplingRate N = false
  <-> (0 < freq)%R /\ (0 < samplingRate)%R /\ 0 < N /\ (freq < samplingRate / 2)%R.
Proof.
  unfold GoertzelSpec.invalid, geb.
  rewrite ExactFacts.lit_0, ExactFacts.lit_2. cbn [leb div exact].
  rewrite !orb_false_iff, !ExactFacts.Rleb_gt, Z.leb_gt. tauto.
Qed.

Lemma Process_ok {F : Type} `{Scalar F} (g : GoertzelFilter F) (x : F) :
  n g < totalN g ->
  Process (Some g) x
  = Ok {| k := k g; w := w g; cosW := cosW g; sinW := sinW g;
          q1 := sub (add x (mul (coeff g) (q1 g))) (q2 g); q2 := q1 g;
          n := n g + 1; totalN := totalN g; coeff := coeff g |}.
Proof.
  intros Hlt. cbn [Process].
  destruct (Z.geb_spec (n g) (totalN g)); [lia | reflexivity].
Qed.

(** A detector for 1 Hz sampled at 4 Hz over two samples exists. *)
Lemma detector_1_4_2 :
  exists g : GoertzelFilter R,
    NewGoertzelFilter 1%R 4%R 2 = Ok g /\ totalN g = 2 /\ n g = 0.
Proof.
  destruct (GoertzelFacts.New_valid 1%R 4%R 2) as (g & Hg & HN & Hn & _).
  - apply invalid_exact. repeat split; try lra; lia.
  - exists g. auto.
Qed.

Lemma radicand_nonneg (g : GoertzelFilter R) :
  coeff g = (2 * cos (w g))%R -> (0 <= magnitudeSquared g)%R.
Proof.
  intros Hk. rewrite (GoertzelInv.radicand_exact g Hk).
  pose proof (Rle_0_sqr (q1 g - q2 g * cos (w g))) as H1.
  pose proof (Rle_0_sqr (q2 g * sin (w g))) as H2.
  unfold Rsqr in H1, H2. lra.
Qed.

Lemma radicands_agree (g : GoertzelFilter R) :
  GoertzelSpec.consistent g -> magnitudeSquared g = magnitudeSquaredOptimized g.
Proof.
  intros Hc. destruct (GoertzelInv.consistent_exact Hc) as (Hk & Hcos & Hsin).
  rewrite (GoertzelInv.radicand_exact g Hk).
  unfold magnitudeSquaredOptimized. cbn [add sub mul exact].
  now rewrite Hcos, Hsin.
Qed.
End GoertzelExact.




Lemma goertzel_dc_constructed (c s t e : float -> float) :
  c 0%float = 1%float -> s 0%float = 0%float ->
  @Goertzel.NewGoertzelFilter float binary64
    (binary64_libm c s t e) 1%float 1000%float 2
  = Ok goertzel_dc.
Proof.
  intros Hc Hs. unfold Goertzel.NewGoertzelFilter.
  replace (leb 1%float (lit 0)) with false by (vm_compute; reflexivity).
  replace (leb 1000%float (lit 0)) with false by (vm_compute; reflexivity).
  replace (geb 1%float (div 1000%float (lit 2))) with false
    by (vm_compute; reflexivity).
  replace (trunc (add (lit 0.5) (div (mul (of_int 2) 1%float) 1000%float)))
    with 0 by (vm_compute; reflexivity).
  cbn [Z.leb Z.geb Z.compare].
  replace (div (mul (mul (lit 2) fpi) (of_int 0)) (of_int 2)) with 0%float
    by (vm_compute; reflexivity).
  cbn [fcos fsin binary64_libm]. rewrite Hc, Hs.
  replace (mul (lit 2) 1%float) with 2%float by (vm_compute; reflexivity).
  replace (lit 0 : float) with 0%float by (vm_compute; reflexivity).
  reflexivity.
Qed.




(** * Further properties *)

(** ** FIR: whole runs *)

Module FIRRun.
Import FIR FIRSpec.

Section WithScalar.
Context {F : Type} `{Scalar F}.

Lemma length_fir_outputs (cs : list F) (inputs : list F) :
  forall hist, List.length (fir_outputs cs hist inputs) = List.length inputs.
Proof.
  induction inputs as [|x rest IH]; intros hist; cbn [fir_outputs List.length];
    [reflexivity | now rewrite IH].
Qed.

Lemma nth_fir_outputs (cs : list F) (d0 : F) (inputs : list F) :
  forall (hist : list F) (i : nat),
    (i < List.length inputs)%nat ->
    nth i (fir_outputs cs hist inputs) d0
    = dot cs (recent (rev (firstn (S i) inputs) ++ hist) (List.length cs)) zero.
Proof.
  induction inputs as [|x rest IH]; intros hist i Hi; cbn [List.length] in Hi;
    [lia|].
  destruct i as [|i].
  - cbn [fir_outputs nth firstn rev app]. reflexivity.
  - cbn [fir_outputs nth]. rewrite IH by lia.
    change (firstn (S (S i)) (x :: rest)) with (x :: firstn (S i) rest).
    cbn [rev]. now rewrite <- app_assoc.
Qed.

(** The ring buffer implements the difference equation over a whole run. *)
Lemma ticks_outputs (cs : list F) (inputs : list F) :
  forall f hist,
    reached cs f hist ->
    exists f',
      ticks f inputs = Returned (f', fir_outputs cs hist inputs)
      /\ reached cs f' (rev inputs ++ hist).
Proof.
  induction inputs as [|x rest IH]; intros f hist Hr.
  - exists f. now split.
  - destruct (FIRFacts.reached_inv Hr) as (Hwf & Hcs & Hh).
    destruct (FIRFacts.Tick_holds x Hwf Hh) as (Ht & Hh' & _).
    pose proof (reached_tick x Hr Ht) as Hr'.
    destruct (IH _ _ Hr') as (f' & Hts & Hr'').
    exists f'. cbn [ticks fir_outputs]. rewrite Ht. cbn [bind]. rewrite Hts.
    cbn [bind rev]. rewrite <- app_assoc. split; [|exact Hr''].
    do 3 f_equal. rewrite Hcs. f_equal.
    apply window_recent; [exact Hh'|].
    destruct Hwf as (_ & Hlen & _). rewrite len_upd, Hlen, Hcs. unfold len. lia.
Qed.

Lemma fir_run_outputs (cs inputs : list F) :
  cs <> [] -> fir_run cs inputs = Returned (fir_outputs cs [] inputs).
Proof.
  intros Hcs. unfold fir_run.
  pose proof (FIRFacts.NewFIRFilter_ok Hcs) as Hnew. rewrite Hnew. cbn [bind].
  destruct (ticks_outputs inputs (reached_new _ Hnew)) as (f' & Hts & _).
  rewrite Hts. reflexivity.
Qed.
End WithScalar.
End FIRRun.

(** X1. On every filter obtained from the constructor by ticks and resets,
    ticking through a whole input sequence never panics and returns, sample
    for sample, the outputs of the difference equation: the [i]-th output is
    [sum_k cs[k] * x[i-k]] over the samples seen so far.  Afterwards the buffer
    still has one cell per coefficient and the coefficients are the
    constructor's. *)
Theorem fir_ticks_difference_equation :
  forall (F : Type) (Sc : Scalar F) (cs : list F) (f : FIR.FIRFilter F)
         (hist inputs : list F),
    FIRSpec.reached cs f hist ->
    exists f' ys,
      FIR.ticks f inputs = Returned (f', ys)
      /\ List.length ys = List.length inputs
      /\ (forall i : nat,
             (i < List.length inputs)%nat ->
             nth i ys zero
             = dot cs (recent (rev (firstn (S i) inputs) ++ hist)
                              (List.length cs)) zero)
      /\ FIR.GetBufferSize f' = len cs
      /\ FIR.GetCoefficients f' = cs.
Proof.
  intros F Sc cs f hist inputs Hr.
  destruct (FIRRun.ticks_outputs inputs Hr) as (f' & Hts & Hr').
  destruct (FIRFacts.reached_inv Hr') as ((_ & Hlen & _) & Hcs & _).
  exists f', (fir_outputs cs hist inputs).
  split; [exact Hts|]. split; [apply FIRRun.length_fir_outputs|].
  split; [intros i Hi; now apply FIRRun.nth_fir_outputs|].
  unfold FIR.GetBufferSize, FIR.GetCoefficients. rewrite Hlen, Hcs. auto.
Qed.

(** The test filter over the impulse of the suite. *)
Lemma fir_ticks_difference_equation_witness :
  exists f' ys,
    FIR.ticks fir123 [1; 0; 0; 0]%float = Returned (f', ys)
    /\ List.length ys = 4%nat
    /\ (forall i : nat,
           (i < 4)%nat ->
           nth i ys zero
           = dot [1; 2; 3]%float
                 (recent (rev (firstn (S i) [1; 0; 0; 0]%float) ++ []) 3) zero)
    /\ FIR.GetBufferSize f' = 3
    /\ FIR.GetCoefficients f' = [1; 2; 3]%float.
Proof.
  apply (fir_ticks_difference_equation (Sc := binary64) (cs := [1; 2; 3]%float)
           (hist := []) [1; 0; 0; 0]%float).
  apply FIRSpec.reached_new. vm_compute. reflexivity.
Defined.

Module FIRExact.

Lemma zero_exact : @zero R exact = 0%R.
Proof. apply ExactFacts.lit_0. Qed.

Lemma recent_exact (h : list R) (m : nat) :
  recent h m = map (fun i => nth i h 0%R) (seq 0 m).
Proof. unfold recent. now rewrite zero_exact. Qed.

Lemma recent_step (h : list R) (m : nat) :
  recent h (S m) = nth 0 h 0%R :: recent (tl h) m.
Proof.
  rewrite !recent_exact. cbn [seq map]. f_equal.
  rewrite <- seq_shift, map_map. apply map_ext. intros i.
  destruct h as [|h0 t]; [now destruct i | reflexivity].
Qed.

Lemma dot_step (c : R) (cs : list R) (x : R) (xs : list R) (acc : R) :
  dot (c :: cs) (x :: xs) acc = dot cs xs (acc + c * x)%R.
Proof. reflexivity. Qed.

(** Data that is zero throughout adds nothing. *)
Lemma dot_zero_data (cs xs : list R) (acc : R) :
  (forall x, In x xs -> x = 0%R) -> dot cs xs acc = acc.
Proof.
  revert xs acc; induction cs as [|c cs IH]; intros [|x xs] acc Hz;
    try reflexivity.
  rewrite dot_step, IH by (intros y Hy; apply Hz; now right).
  rewrite (Hz x) by now left. ring.
Qed.

(** Coefficients that are zero throughout add nothing. *)
Lemma dot_zero_coeffs (e : nat) (xs : list R) (acc : R) :
  dot (repeat 0%R e) xs acc = acc.
Proof.
  revert xs acc; induction e as [|e IH]; intros [|x xs] acc; try reflexivity.
  cbn [repeat]. rewrite dot_step, IH. ring.
Qed.

Lemma recent_nil_zero (m : nat) (x : R) : In x (recent [] m) -> x = 0%R.
Proof.
  rewrite recent_exact. intros Hx. apply in_map_iff in Hx as (i & <- & _).
  now destruct i.
Qed.

(** A history holding a single one [i] samples back picks out [cs[i]]. *)
Lemma dot_unit_history (cs : list R) :
  forall (i : nat) (acc : R),
    dot cs (recent (repeat 0%R i ++ [1%R]) (List.length cs)) acc
    = (acc + nth i cs 0)%R.
Proof.
  induction cs as [|c cs IH]; intros i acc.
  - cbn. destruct i; ring.
  - cbn [List.length]. rewrite recent_step, dot_step.
    destruct i as [|i]; cbn [repeat app nth tl].
    + rewrite dot_zero_data by apply recent_nil_zero. ring.
    + rewrite IH. ring.
Qed.

(** A single unit coefficient at index [d] picks out the sample [d] back. *)
Lemma dot_delay (d e : nat) :
  forall (h : list R) (acc : R),
    dot (delay_coeffs d e) (recent h (List.length (delay_coeffs d e))) acc
    = (acc + nth d h 0)%R.
Proof.
  unfold delay_coeffs. induction d as [|d IH]; intros h acc.
  - cbn [repeat app List.length]. rewrite recent_step, dot_step.
    rewrite dot_zero_coeffs. ring.
  - cbn [repeat app List.length]. rewrite recent_step, dot_step, IH.
    destruct h as [|h0 t]; cbn [tl nth]; [destruct d|]; ring.
Qed.

Lemma rev_repeat_zero (i : nat) : rev (repeat 0%R i) = repeat 0%R i.
Proof.
  induction i as [|i IH]; [reflexivity|].
  cbn [repeat rev]. rewrite IH. clear IH.
  induction i as [|i IH]; [reflexivity|]. cbn [repeat app]. now rewrite IH.
Qed.

Lemma firstn_repeat_zero (i m : nat) :
  (i <= m)%nat -> firstn i (repeat 0%R m) = repeat 0%R i.
Proof.
  revert m; induction i as [|i IH]; intros [|m] Hi; try reflexivity; try lia.
  cbn [repeat firstn]. rewrite IH by lia. reflexivity.
Qed.

Lemma nth_firstn_lt (A : Type) (l : list A) (d : A) :
  forall i j : nat, (i < j)%nat -> nth i (firstn j l) d = nth i l d.
Proof.
  induction l as [|a l IH]; intros i j Hij.
  - now rewrite firstn_nil.
  - destruct j as [|j]; [lia|]. destruct i as [|i]; [reflexivity|].
    cbn [firstn nth]. apply IH. lia.
Qed.

(** The sample [d] back in a run, counted from the input sequence. *)
Lemma nth_rev_prefix (xs : list R) (i d : nat) :
  (i < List.length xs)%nat ->
  nth d (rev (firstn (S i) xs)) 0%R
  = if (i <? d)%nat then 0%R else nth (i - d) xs 0%R.
Proof.
  intros Hi.
  assert (Hl : List.length (firstn (S i) xs) = S i)
    by (rewrite length_firstn; lia).
  destruct (Nat.ltb_spec i d) as [Hlt|Hge].
  - apply nth_overflow. rewrite length_rev, Hl. lia.
  - rewrite rev_nth by (rewrite Hl; lia). rewrite Hl.
    replace (S i - S d)%nat with (i - d)%nat by lia.
    apply nth_firstn_lt. lia.
Qed.

Lemma nth_map_seq (f : nat -> R) (m i : nat) (d : R) :
  (i < m)%nat -> nth i (map f (seq 0 m)) d = f i.
Proof.
  intros Hi. rewrite nth_indep with (d' := f 0%nat)
    by (now rewrite length_map, length_seq).
  rewrite map_nth, seq_nth by assumption. reflexivity.
Qed.

Lemma nth_vadd (u : list R) :
  forall (v : list R) (i : nat),
    List.length u = List.length v ->
    nth i (vadd u v) 0%R = (nth i u 0 + nth i v 0)%R.
Proof.
  induction u as [|a u IH]; intros [|b v] i Hl; cbn in Hl; try lia.
  - destruct i; cbn; ring.
  - destruct i as [|i]; cbn [vadd nth]; [reflexivity|]. apply IH. lia.
Qed.

Lemma length_vadd (u : list R) :
  forall v : list R,
    List.length u = List.length v -> List.length (vadd u v) = List.length u.
Proof.
  induction u as [|a u IH]; intros [|b v] Hl; cbn in Hl |- *; try lia.
  now rewrite IH by lia.
Qed.

Lemma vadd_map (A : Type) (f g : A -> R) (l : list A) :
  vadd (map f l) (map g l) = map (fun i => (f i + g i)%R) l.
Proof. induction l as [|a l IH]; cbn; [reflexivity | now rewrite IH]. Qed.

Lemma recent_vadd (h1 h2 : list R) (m : nat) :
  List.length h1 = List.length h2 ->
  recent (vadd h1 h2) m = vadd (recent h1 m) (recent h2 m).
Proof.
  intros Hl. rewrite !recent_exact, vadd_map.
  apply map_ext. intros i. now apply nth_vadd.
Qed.

Lemma length_recent (h : list R) (m : nat) : List.length (recent h m) = m.
Proof. unfold recent. now rewrite length_map, length_seq. Qed.

Lemma dot_vadd (cs : list R) :
  forall (u v : list R) (a b : R),
    List.length u = List.length v ->
    dot cs (vadd u v) (a + b)%R = (dot cs u a + dot cs v b)%R.
Proof.
  induction cs as [|c cs IH]; intros [|x u] [|y v] a b Hl; cbn in Hl;
    try lia; try reflexivity.
  cbn [vadd]. rewrite !dot_step.
  replace (a + b + c * (x + y))%R with ((a + c * x) + (b + c * y))%R by ring.
  apply IH. lia.
Qed.

Lemma dot_scale (k : R) (cs : list R) :
  forall (u : list R) (a : R),
    dot cs (map (Rmult k) u) (k * a)%R = (k * dot cs u a)%R.
Proof.
  induction cs as [|c cs IH]; intros [|x u] a; try reflexivity.
  cbn [map]. rewrite !dot_step.
  replace (k * a + c * (k * x))%R with (k * (a + c * x))%R by ring.
  apply IH.
Qed.

Lemma recent_scale (k : R) (h : list R) (m : nat) :
  recent (map (Rmult k) h) m = map (Rmult k) (recent h m).
Proof.
  rewrite !recent_exact, map_map. apply map_ext. intros i.
  replace 0%R with (k * 0)%R at 1 by ring. apply map_nth.
Qed.

Lemma fir_outputs_vadd (cs : list R) (xs : list R) :
  forall (xs' h1 h2 : list R),
    List.length xs = List.length xs' ->
    List.length h1 = List.length h2 ->
    fir_outputs cs (vadd h1 h2) (vadd xs xs')
    = vadd (fir_outputs cs h1 xs) (fir_outputs cs h2 xs').
Proof.
  induction xs as [|x xs IH]; intros [|y xs'] h1 h2 Hl Hh; cbn in Hl;
    try lia; try reflexivity.
  cbn [vadd fir_outputs]. f_equal.
  - change (x + y :: vadd h1 h2)%R with (vadd (x :: h1) (y :: h2)).
    rewrite recent_vadd by (cbn; lia). rewrite zero_exact.
    replace 0%R with (0 + 0)%R at 1 by ring.
    apply dot_vadd. now rewrite !length_recent.
  - change (x + y :: vadd h1 h2)%R with (vadd (x :: h1) (y :: h2)).
    apply IH; cbn; lia.
Qed.

Lemma fir_outputs_scale (k : R) (cs : list R) (xs : list R) :
  forall h : list R,
    fir_outputs cs (map (Rmult k) h) (map (Rmult k) xs)
    = map (Rmult k) (fir_outputs cs h xs).
Proof.
  induction xs as [|x xs IH]; intros h; [reflexivity|].
  cbn [map fir_outputs]. f_equal.
  - change (k * x :: map (Rmult k) h)%R with (map (Rmult k) (x :: h)).
    rewrite recent_scale, zero_exact.
    replace 0%R with (k * 0)%R at 1 by ring. apply dot_scale.
  - change (k * x :: map (Rmult k) h)%R with (map (Rmult k) (x :: h)).
    apply IH.
Qed.
End FIRExact.

(** X2. In exact arithmetic a FIR filter is linear: run from construction,
    the response to the sample-wise sum of two input sequences of the same
    length is the sum of the two responses, and the response to a scaled
    input is the scaled response; none of the runs panics. *)
Theorem fir_superposition :
  forall (cs xs xs' : list R) (k : R),
    cs <> [] ->
    List.length xs = List.length xs' ->
    exists ys ys',
      fir_run cs xs = Returned ys
      /\ fir_run cs xs' = Returned ys'
      /\ fir_run cs (vadd xs xs') = Returned (vadd ys ys')
      /\ fir_run cs (map (Rmult k) xs) = Returned (map (Rmult k) ys).
Proof.
  intros cs xs xs' k Hcs Hl.
  exists (fir_outputs cs [] xs), (fir_outputs cs [] xs').
  rewrite !FIRRun.fir_run_outputs by assumption.
  repeat split.
  - f_equal. apply (FIRExact.fir_outputs_vadd cs xs xs' [] [] Hl eq_refl).
  - f_equal. apply (FIRExact.fir_outputs_scale k cs xs []).
Qed.

(** Two short sequences through the two-tap averager. *)
Lemma fir_superposition_witness :
  exists ys ys',
    fir_run [1 / 2; 1 / 2]%R [1; 2]%R = Returned ys
    /\ fir_run [1 / 2; 1 / 2]%R [3; 5]%R = Returned ys'
    /\ fir_run [1 / 2; 1 / 2]%R (vadd [1; 2]%R [3; 5]%R) = Returned (vadd ys ys')
    /\ fir_run [1 / 2; 1 / 2]%R (map (Rmult 7) [1; 2]%R)
       = Returned (map (Rmult 7) ys).
Proof.
  apply (fir_superposition (cs := [1 / 2; 1 / 2]%R) [1; 2]%R [3; 5]%R 7%R);
    [discriminate | reflexivity].
Defined.

(** X3. In exact arithmetic the impulse response of a FIR filter is its
    coefficient sequence: fed a one followed by [m] zeros, a freshly built
    filter returns [cs[0], cs[1], ...], continued by zeros once the
    coefficients are used up. *)
Theorem fir_impulse_response :
  forall (cs : list R) (m : nat),
    cs <> [] ->
    fir_run cs (1%R :: repeat 0%R m)
    = Returned (map (fun i => nth i cs 0%R) (seq 0 (S m))).
Proof.
  intros cs m Hcs. rewrite FIRRun.fir_run_outputs by assumption. f_equal.
  apply nth_ext with (d := 0%R) (d' := 0%R).
  - rewrite FIRRun.length_fir_outputs, length_map, length_seq.
    cbn [List.length]. now rewrite repeat_length.
  - rewrite FIRRun.length_fir_outputs. cbn [List.length].
    rewrite repeat_length. intros i Hi.
    rewrite FIRRun.nth_fir_outputs by (cbn [List.length]; rewrite repeat_length; lia).
    cbn [firstn rev]. rewrite FIRExact.firstn_repeat_zero by lia.
    rewrite FIRExact.rev_repeat_zero, app_nil_r, FIRExact.zero_exact.
    rewrite FIRExact.dot_unit_history, FIRExact.nth_map_seq by lia. ring.
Qed.

(** The impulse response of a three-tap filter, five samples long. *)
Lemma fir_impulse_response_witness :
  fir_run [1; 2; 3]%R (1%R :: repeat 0%R 4)
  = Returned (map (fun i => nth i [1; 2; 3]%R 0%R) (seq 0 5)).
Proof.
  apply (fir_impulse_response (cs := [1; 2; 3]%R) 4). discriminate.
Defined.

(** X4. In exact arithmetic a coefficient sequence that is zero except for
    a one at index [d] makes the filter a pure delay: the [i]-th output is
    the [(i-d)]-th input, and zero for the first [d] ticks.  (The
    coefficients [0, 1, 0, 0] of the demo program delay by one sample.) *)
Theorem fir_unit_coefficient_delays :
  forall (d e : nat) (xs : list R),
    fir_run (delay_coeffs d e) xs
    = Returned (map (fun i => if (i <? d)%nat then 0%R else nth (i - d) xs 0%R)
                    (seq 0 (List.length xs))).
Proof.
  intros d e xs.
  rewrite FIRRun.fir_run_outputs
    by (unfold delay_coeffs; destruct d; discriminate).
  f_equal. apply nth_ext with (d := 0%R) (d' := 0%R).
  - now rewrite FIRRun.length_fir_outputs, length_map, length_seq.
  - rewrite FIRRun.length_fir_outputs. intros i Hi.
    rewrite FIRRun.nth_fir_outputs by assumption.
    rewrite app_nil_r, FIRExact.zero_exact, FIRExact.dot_delay.
    rewrite FIRExact.nth_rev_prefix, FIRExact.nth_map_seq by assumption.
    ring.
Qed.

(** ** IIR: whole runs, reset, and the FIR special case *)

Module IIRRun.
Import IIR IIRSpec.

Section WithScalar.
Context {F : Type} `{Scalar F}.

Lemma length_iir_outputs (b a : list F) (inputs : list F) :
  forall xs ys, List.length (iir_outputs b a xs ys inputs) = List.length inputs.
Proof.
  induction inputs as [|x rest IH]; intros xs ys; cbn [iir_outputs List.length];
    [reflexivity | now rewrite IH].
Qed.

Lemma Tick_order (f f' : IIRFilter F) (x y : F) :
  Tick f x = Returned (f', y) -> order f' = order f.
Proof.
  unfold Tick.
  repeat match goal with
         | |- context [bind ?m _] => destruct m; cbn [bind]; try discriminate
         end.
  now intros [= <- _].
Qed.

Lemma reached_order (b a : list F) (f : IIRFilter F) (xs ys : list F) :
  reached b a f xs ys -> order f = Z.max (len b) (len a) - 1.
Proof.
  induction 1 as [f0 Hnew | f xs ys x f' y _ IH Ht | f xs ys _ IH].
  - now apply IIRFacts.NewIIRFilter_inv in Hnew as (_ & _ & ->).
  - now rewrite (Tick_order _ _ Ht).
  - exact IH.
Qed.

(** A reset filter is the freshly constructed one. *)
Lemma Reset_is_new (b a : list F) (f : IIRFilter F) (xs ys : list F) :
  reached b a f xs ys -> NewIIRFilter b a = Returned (Reset f).
Proof.
  intros Hr.
  pose proof (IIRFacts.reached_tracks Hr) as ((Hb & Ha & Hxl & Hyl & _) & _).
  pose proof (IIRFacts.reached_coeffs Hr) as Hc.
  pose proof (reached_order Hr) as Ho.
  destruct (IIRFacts.len_normalized b a) as [Eb Ea].
  rewrite <- Hc in Eb, Ea. cbn [fst snd] in Eb, Ea.
  assert (Hbn : b <> []).
  { intros ->. unfold len in Eb, Hb. cbn in Eb. lia. }
  assert (Han : a <> []).
  { intros ->. unfold len in Ea, Ha. cbn in Ea. lia. }
  rewrite IIRFacts.NewIIRFilter_ok by assumption.
  unfold Reset. rewrite !map_const_make, Hxl, Hyl, Eb, Ea, Ho, <- Hc.
  reflexivity.
Qed.

(** The two ring buffers implement the recurrence over a whole run. *)
Lemma Process_outputs (b a : list F) (inputs : list F) :
  forall f xs ys,
    reached b a f xs ys ->
    exists f',
      Process f inputs
      = Returned (f', iir_outputs (bCoeffs f) (aCoeffs f) xs ys inputs)
      /\ reached b a f' (rev inputs ++ xs)
                 (rev (iir_outputs (bCoeffs f) (aCoeffs f) xs ys inputs) ++ ys).
Proof.
  induction inputs as [|x rest IH]; intros f xs ys Hr.
  - exists f. now split.
  - destruct (IIRFacts.Tick_tracks x (IIRFacts.reached_tracks Hr))
      as (Ht & Hrec & _).
    pose proof (reached_tick x Hr Ht) as Hr'.
    destruct (IH _ _ _ Hr') as (f' & Hp & Hr'').
    exists f'. cbn [Process iir_outputs]. rewrite Ht. cbn [bind]. rewrite Hp.
    cbn [bind tick_state bCoeffs aCoeffs] in *. rewrite <- Hrec.
    split; [reflexivity|].
    cbn [rev]. rewrite <- !app_assoc. exact Hr''.
Qed.

(** Without feedback coefficients the recurrence is the FIR sum. *)
Lemma iir_outputs_no_feedback (b : list F) (a0 : F) (inputs : list F) :
  forall xs ys,
    iir_outputs b [a0] xs ys inputs = fir_outputs b xs inputs.
Proof.
  induction inputs as [|x rest IH]; intros xs ys; [reflexivity|].
  cbn [iir_outputs fir_outputs]. rewrite IH. reflexivity.
Qed.

Lemma iir_run_outputs (b a inputs : list F) :
  b <> [] -> a <> [] ->
  iir_run b a inputs
  = Returned (iir_outputs (fst (normalized b a)) (snd (normalized b a))
                          [] [] inputs).
Proof.
  intros Hb Ha. unfold iir_run.
  pose proof (IIRFacts.NewIIRFilter_ok Hb Ha) as Hnew.
  rewrite Hnew. cbn [bind].
  destruct (Process_outputs inputs (reached_new _ _ Hnew)) as (f' & Hp & _).
  rewrite Hp. reflexivity.
Qed.
End WithScalar.
End IIRRun.

(** X5. Whatever ticks and resets a filter built from [b] and [a] has been
    through, [Reset] puts it back in exactly the state the constructor
    returned, so that [Process] afterwards answers any input as the freshly
    built filter does, without panicking and with one output per input. *)
Theorem iir_reset_replays_fresh :
  forall (F : Type) (Sc : Scalar F) (b a : list F) (f : IIR.IIRFilter F)
         (xs ys input : list F),
    IIRSpec.reached b a f xs ys ->
    exists f0 f1 out,
      IIR.NewIIRFilter b a = Returned f0
      /\ IIR.Reset f = f0
      /\ IIR.Process f0 input = Returned (f1, out)
      /\ IIR.Process (IIR.Reset f) input = Returned (f1, out)
      /\ List.length out = List.length input.
Proof.
  intros F Sc b a f xs ys input Hr.
  pose proof (IIRRun.Reset_is_new Hr) as Hnew.
  destruct (IIRFacts.Process_total input (IIRSpec.reached_new _ _ Hnew))
    as (f1 & out & Hp & Hl).
  exists (IIR.Reset f), f1, out. auto.
Qed.

(** The test filter after one tick, reset, against a fresh one. *)
Lemma iir_reset_replays_fresh_witness :
  exists f0 f1 out,
    IIR.NewIIRFilter [0.5]%float [1; 0.3]%float = Returned f0
    /\ IIR.Reset {| IIR.bCoeffs := [0.5]%float; IIR.aCoeffs := [1; 0.3]%float;
                    IIR.xBuffer := [1]%float; IIR.yBuffer := [0.5; 0]%float;
                    IIR.xPos := 0; IIR.yPos := 1; IIR.order := 1 |} = f0
    /\ IIR.Process f0 [1; 0; 0]%float = Returned (f1, out)
    /\ IIR.Process
         (IIR.Reset {| IIR.bCoeffs := [0.5]%float; IIR.aCoeffs := [1; 0.3]%float;
                       IIR.xBuffer := [1]%float; IIR.yBuffer := [0.5; 0]%float;
                       IIR.xPos := 0; IIR.yPos := 1; IIR.order := 1 |})
         [1; 0; 0]%float = Returned (f1, out)
    /\ List.length out = 3%nat.
Proof.
  apply (iir_reset_replays_fresh (Sc := binary64) (b := [0.5]%float)
           (a := [1; 0.3]%float) (xs := [1]%float) (ys := [0.5]%float)
           [1; 0; 0]%float).
  apply IIRSpec.reached_tick with (f := iir_test); [|vm_compute; reflexivity].
  apply IIRSpec.reached_new. vm_compute. reflexivity.
Defined.

(** X6. On every filter obtained from the constructor by ticks and resets,
    [Process] never panics and returns one output per input, each the value
    of the recurrence [sum b[i]*x[n-i] - sum_(i>=1) a[i]*y[n-i]] over the
    inputs and outputs so far; it leaves the coefficients alone, and
    [GetOrder] stays [max(len b, len a) - 1]. *)
Theorem iir_process_recurrence :
  forall (F : Type) (Sc : Scalar F) (b a : list F) (f : IIR.IIRFilter F)
         (xs ys input : list F),
    IIRSpec.reached b a f xs ys ->
    exists f',
      IIR.Process f input
      = Returned (f', iir_outputs (IIR.bCoeffs f) (IIR.aCoeffs f) xs ys input)
      /\ List.length (iir_outputs (IIR.bCoeffs f) (IIR.aCoeffs f) xs ys input)
         = List.length input
      /\ IIR.GetBCoeffs f' = IIR.GetBCoeffs f
      /\ IIR.GetACoeffs f' = IIR.GetACoeffs f
      /\ IIR.GetOrder f' = Z.max (len b) (len a) - 1.
Proof.
  intros F Sc b a f xs ys input Hr.
  destruct (IIRRun.Process_outputs input Hr) as (f' & Hp & Hr').
  exists f'. split; [exact Hp|]. split; [apply IIRRun.length_iir_outputs|].
  destruct (IIRFacts.Process_coeffs _ _ Hp) as [Eb Ea].
  unfold IIR.GetBCoeffs, IIR.GetACoeffs, IIR.GetOrder.
  rewrite Eb, Ea, (IIRRun.reached_order Hr'). auto.
Qed.

(** The test filter over the impulse of the suite. *)
Lemma iir_process_recurrence_witness :
  exists f',
    IIR.Process iir_test [1; 0; 0; 0; 0]%float
    = Returned (f', iir_outputs [0.5]%float [1; 0.3]%float [] []
                                [1; 0; 0; 0; 0]%float)
    /\ List.length (iir_outputs [0.5]%float [1; 0.3]%float [] []
                                [1; 0; 0; 0; 0]%float) = 5%nat
    /\ IIR.GetBCoeffs f' = [0.5]%float
    /\ IIR.GetACoeffs f' = [1; 0.3]%float
    /\ IIR.GetOrder f' = 1.
Proof.
  apply (iir_process_recurrence (Sc := binary64) (b := [0.5]%float)
           (a := [1; 0.3]%float) (f := iir_test) (xs := []) (ys := [])
           [1; 0; 0; 0; 0]%float).
  apply IIRSpec.reached_new. vm_compute. reflexivity.
Defined.



(** ** IIR in exact arithmetic *)

Module IIRExact.
Import IIR IIRSpec.

(** A leading feedback coefficient of one is left alone. *)
Lemma normalized_unit (b a : list R) :
  normalized b (1%R :: a) = (b, 1%R :: a).
Proof.
  unfold normalized. cbn [nth].
  replace (gtb (fabs (sub 1%R (lit 1.0))) (lit 1e-10)) with false;
    [reflexivity|].
  symmetry. unfold gtb. rewrite ExactFacts.lit_1_0, ExactFacts.lit_tol.
  cbn [ltb fabs sub exact]. apply ExactFacts.Rltb_ge.
  rewrite Rminus_diag, Rabs_R0. lra.
Qed.

Lemma New_unit (b a : list R) :
  b <> [] ->
  NewIIRFilter b (1%R :: a)
  = Returned {| bCoeffs := b; aCoeffs := 1%R :: a;
                xBuffer := make zero (len b);
                yBuffer := make zero (len (1%R :: a));
                xPos := 0; yPos := 0;
                order := Z.max (len b) (len (1%R :: a)) - 1 |}.
Proof.
  intros Hb. rewrite IIRFacts.NewIIRFilter_ok by (assumption || discriminate).
  now rewrite normalized_unit.
Qed.

Lemma recurrence_first_order (b0 a1 x : R) (xs ys : list R) :
  recurrence [b0] [1%R; a1] (x :: xs) ys = (b0 * x - a1 * nth 0 ys 0)%R.
Proof.
  unfold recurrence. cbn [List.length Nat.sub skipn].
  rewrite !FIRExact.recent_step. cbn [dot dot_sub nth].
  rewrite FIRExact.zero_exact. cbn [add sub mul exact]. ring.
Qed.

(** With no further input a first-order section decays geometrically. *)
Lemma first_order_tail (b0 a1 : R) (m : nat) :
  forall (xh yh : list R) (yprev : R),
    iir_outputs [b0] [1%R; a1] xh (yprev :: yh) (repeat 0%R m)
    = map (fun n => (yprev * (- a1) ^ S n)%R) (seq 0 m).
Proof.
  induction m as [|m IH]; intros xh yh yprev; [reflexivity|].
  cbn [repeat iir_outputs seq map]. rewrite recurrence_first_order.
  cbn [nth]. rewrite IH. f_equal; [cbn [pow]; ring|].
  rewrite <- seq_shift, map_map. apply map_ext. intros n. cbn [pow]. ring.
Qed.

Lemma pow_abs_le_1 (a : R) (n : nat) : (Rabs a < 1 -> Rabs (a ^ n) <= 1)%R.
Proof.
  intros Ha. rewrite <- RPow_abs. rewrite <- (pow1 n).
  apply pow_incr. split; [apply Rabs_pos | lra].
Qed.

Lemma pow_abs_ge_1 (a : R) (n : nat) : (1 <= Rabs a -> 1 <= Rabs (a ^ n))%R.
Proof.
  intros Ha. rewrite <- RPow_abs. rewrite <- (pow1 n) at 1.
  apply pow_incr. lra.
Qed.
End IIRExact.

(** X8. In exact arithmetic, the first-order section [b = [b0]],
    [a = [1, a1]] answers the impulse with the geometric sequence
    [b0 * (-a1)^n].  [IsStable] tells whether that response stays bounded:
    when it reports stable every output is at most [|b0|] in absolute value,
    and when it reports unstable every output is at least [|b0|]. *)
Theorem iir_first_order_geometric :
  forall (b0 a1 : R) (m : nat),
    exists f,
      IIR.NewIIRFilter [b0] [1%R; a1] = Returned f
      /\ iir_run [b0] [1%R; a1] (1%R :: repeat 0%R m)
         = Returned (map (fun n => (b0 * (- a1) ^ n)%R) (seq 0 (S m)))
      /\ (IIR.IsStable f = true ->
          forall n : nat, (Rabs (b0 * (- a1) ^ n) <= Rabs b0)%R)
      /\ (IIR.IsStable f = false ->
          forall n : nat, (Rabs b0 <= Rabs (b0 * (- a1) ^ n))%R).
Proof.
  intros b0 a1 m. eexists. split; [apply IIRExact.New_unit; discriminate|].
  split; [|split].
  - rewrite IIRRun.iir_run_outputs by discriminate.
    rewrite IIRExact.normalized_unit. cbn [fst snd iir_outputs seq map].
    rewrite IIRExact.recurrence_first_order. cbn [nth].
    rewrite IIRExact.first_order_tail. f_equal. f_equal; [cbn [pow]; ring|].
    rewrite <- seq_shift, map_map. apply map_ext. intros n. cbn [pow]. ring.
  - unfold IIR.IsStable. cbn [IIR.aCoeffs len List.length Z.of_nat nth].
    cbn [Z.leb Z.eqb Pos.of_succ_nat Pos.succ Z.compare Pos.compare
         Pos.compare_cont Pos.eqb ltb fabs exact].
    rewrite ExactFacts.lit_1_0. intros Hs n.
    apply ExactFacts.Rltb_lt in Hs.
    rewrite Rabs_mult. rewrite <- (Rmult_1_r (Rabs b0)) at 2.
    apply Rmult_le_compat_l; [apply Rabs_pos|].
    apply IIRExact.pow_abs_le_1. now rewrite Rabs_Ropp.
  - unfold IIR.IsStable. cbn [IIR.aCoeffs len List.length Z.of_nat nth].
    cbn [Z.leb Z.eqb Pos.of_succ_nat Pos.succ Z.compare Pos.compare
         Pos.compare_cont Pos.eqb ltb fabs exact].
    rewrite ExactFacts.lit_1_0. intros Hs n.
    apply ExactFacts.Rltb_ge in Hs.
    rewrite Rabs_mult. rewrite <- (Rmult_1_r (Rabs b0)) at 1.
    apply Rmult_le_compat_l; [apply Rabs_pos|].
    apply IIRExact.pow_abs_ge_1. now rewrite Rabs_Ropp.
Qed.

(** The test section [b0 = 1/2], [a1 = 3/10], five samples long. *)
Lemma iir_first_order_geometric_witness :
  exists f,
    IIR.NewIIRFilter [1 / 2]%R [1; 3 / 10]%R = Returned f
    /\ iir_run [1 / 2]%R [1; 3 / 10]%R (1%R :: repeat 0%R 4)
       = Returned (map (fun n => (1 / 2 * (- (3 / 10)) ^ n)%R) (seq 0 5))
    /\ (IIR.IsStable f = true ->
        forall n : nat, (Rabs (1 / 2 * (- (3 / 10)) ^ n) <= Rabs (1 / 2))%R)
    /\ (IIR.IsStable f = false ->
        forall n : nat, (Rabs (1 / 2) <= Rabs (1 / 2 * (- (3 / 10)) ^ n))%R).
Proof.
  exact (iir_first_order_geometric (1 / 2) (3 / 10) 4).
Defined.

(** ** Frequency response at the ends of the band *)

Module ResponseExact.
Import IIR.

Lemma cadd_real (s t : R) : cadd (s, 0%R) (t, 0%R) = ((s + t)%R, 0%R).
Proof. unfold cadd, re, im. cbn. f_equal. ring. Qed.

Lemma cmul_real (x y : R) : cmul (x, 0%R) (y, 0%R) = ((x * y)%R, 0%R).
Proof. unfold cmul, re, im. cbn. f_equal; ring. Qed.

(** On the real axis the accumulation loop evaluates the real polynomial. *)
Lemma zsum_loop_real (cs : list R) (x : R) :
  forall s p : R,
    zsum_loop cs (x, 0%R) (s, 0%R) (p, 0%R) = ((s + p * polyR cs x)%R, 0%R).
Proof.
  induction cs as [|c cs IH]; intros s p.
  - cbn [zsum_loop polyR]. f_equal. ring.
  - cbn [zsum_loop polyR]. rewrite FIRExact.zero_exact.
    rewrite !cmul_real, cadd_real, IH. f_equal. ring.
Qed.

Lemma cdiv_real (x y : R) : y <> 0%R -> cdiv (x, 0%R) (y, 0%R) = ((x / y)%R, 0%R).
Proof.
  intros Hy. cbn [cdiv exact_cdiv]. unfold Exact.Cdiv. cbn [fst snd].
  f_equal; field; assumption.
Qed.

(** The response when [z] is the real number [x]. *)
Definition real_response {I : Infinity R} (f : IIRFilter R) (x : R)
  : outcome (complex R) :=
  Returned (if Req_dec_T (polyR (aCoeffs f) x) 0
            then (finf, 0%R)
            else ((polyR (bCoeffs f) x / polyR (aCoeffs f) x)%R, 0%R)).

Lemma response_on_axis {I : Infinity R} (f : IIRFilter R) (freq x : R) :
  (0 <= freq <= 1 / 2)%R ->
  cos (2 * PI * freq) = x -> sin (2 * PI * freq) = 0%R ->
  GetFrequencyResponse f freq = real_response f x.
Proof.
  intros Hf Hc Hs. unfold GetFrequencyResponse, real_response.
  rewrite (proj2 (ComplexFacts.in_range_exact freq) Hf).
  assert (E : mul (mul (lit 2.0) fpi) freq = (2 * PI * freq)%R).
  { cbn [mul exact fpi exact_libm].
    replace (lit 2.0 : R) with 2%R; [reflexivity|].
    cbn; unfold Q2R; cbn; lra. }
  rewrite E. cbn [fcos fsin exact_libm]. rewrite Hc, Hs.
  unfold czero, cone.
  rewrite FIRExact.zero_exact, ExactFacts.lit_1, ExactFacts.lit_0.
  rewrite !zsum_loop_real. cbn [re im fst snd eqb exact].
  rewrite !Rplus_0_l, !Rmult_1_l.
  unfold Exact.Reqb at 1.
  destruct (Req_dec_T (polyR (aCoeffs f) x) 0) as [Ez|Enz].
  - unfold Exact.Reqb. destruct (Req_dec_T 0 0); [reflexivity | congruence].
  - cbn [andb]. now rewrite cdiv_real.
Qed.
End ResponseExact.

(** X9. In exact arithmetic the frequency response at the two ends of
    the band is a ratio of real polynomial values: at [freq = 0] it is
    [B(1)/A(1)], the ratio of the coefficient sums, and at the Nyquist
    frequency [freq = 1/2] it is [B(-1)/A(-1)], the ratio of the alternating
    sums; in both cases the imaginary part is 0, and the result is
    [(+Inf, 0)] instead when the denominator vanishes. *)
Theorem iir_response_band_ends :
  forall (I : Infinity R) (f : IIR.IIRFilter R),
    IIR.GetFrequencyResponse f 0%R
    = Returned (if Req_dec_T (polyR (IIR.aCoeffs f) 1) 0
                then (finf, 0%R)
                else ((polyR (IIR.bCoeffs f) 1 / polyR (IIR.aCoeffs f) 1)%R, 0%R))
    /\ IIR.GetFrequencyResponse f (1 / 2)%R
       = Returned (if Req_dec_T (polyR (IIR.aCoeffs f) (-1)) 0
                   then (finf, 0%R)
                   else ((polyR (IIR.bCoeffs f) (-1)
                          / polyR (IIR.aCoeffs f) (-1))%R, 0%R)).
Proof.
  intros I f. split.
  - apply (ResponseExact.response_on_axis (I := I) f (freq := 0%R) (x := 1%R));
      [lra | | ]; rewrite Rmult_0_r; [apply cos_0 | apply sin_0].
  - apply (ResponseExact.response_on_axis (I := I) f (freq := (1 / 2)%R)
             (x := (-1)%R)); [lra | | ];
      replace (2 * PI * (1 / 2))%R with PI by field;
      [apply cos_PI | apply sin_PI].
Qed.

(** ** Design factories in exact arithmetic *)

Module DesignExact.
Import IIR.

Lemma cutoff_ok (fc : R) : (0 < fc < 1 / 2)%R -> bad_cutoff fc = false.
Proof.
  intros Hfc. destruct (bad_cutoff fc) eqn:E; [|reflexivity].
  apply DesignFacts.bad_cutoff_exact in E. lra.
Qed.

Lemma q_ok (Q : R) : (0 < Q)%R -> leb Q (lit 0) = false.
Proof.
  intros HQ. destruct (leb Q (lit 0)) eqn:E; [|reflexivity].
  apply DesignFacts.bad_q_exact in E. lra.
Qed.

Lemma response_dc {I : Infinity R} (f : IIRFilter R) (v : R) :
  polyR (aCoeffs f) 1 <> 0%R ->
  polyR (bCoeffs f) 1 = (v * polyR (aCoeffs f) 1)%R ->
  GetFrequencyResponse f 0%R = Returned (v, 0%R).
Proof.
  intros Ha Hb.
  rewrite (ResponseExact.response_on_axis (I := I) f (freq := 0%R) (x := 1%R));
    [| lra | rewrite Rmult_0_r; apply cos_0 | rewrite Rmult_0_r; apply sin_0].
  unfold ResponseExact.real_response.
  destruct (Req_dec_T (polyR (aCoeffs f) 1) 0); [contradiction|].
  rewrite Hb. do 2 f_equal. field. assumption.
Qed.

Lemma response_nyquist {I : Infinity R} (f : IIRFilter R) (v : R) :
  polyR (aCoeffs f) (-1) <> 0%R ->
  polyR (bCoeffs f) (-1) = (v * polyR (aCoeffs f) (-1))%R ->
  GetFrequencyResponse f (1 / 2)%R = Returned (v, 0%R).
Proof.
  intros Ha Hb.
  assert (E : (2 * PI * (1 / 2))%R = PI) by field.
  rewrite (ResponseExact.response_on_axis (I := I) f (freq := (1 / 2)%R)
             (x := (-1)%R));
    [| lra | rewrite E; apply cos_PI | rewrite E; apply sin_PI].
  unfold ResponseExact.real_response.
  destruct (Req_dec_T (polyR (aCoeffs f) (-1)) 0); [contradiction|].
  rewrite Hb. do 2 f_equal. field. assumption.
Qed.

(** [IsStable] on a first-order and on a second-order denominator. *)
Lemma stable_first_order (f : IIRFilter R) (a0 a1 : R) :
  aCoeffs f = [a0; a1] -> (Rabs a1 < 1)%R -> IsStable f = true.
Proof.
  intros Ha H1. unfold IsStable. rewrite Ha.
  cbn [len List.length Z.of_nat nth].
  cbn [Z.leb Z.eqb Pos.of_succ_nat Pos.succ Z.compare Pos.compare
       Pos.compare_cont Pos.eqb ltb fabs exact].
  rewrite ExactFacts.lit_1_0. now apply ExactFacts.Rltb_lt.
Qed.

Lemma stable_second_order (f : IIRFilter R) (a0 a1 a2 : R) :
  aCoeffs f = [a0; a1; a2] ->
  (a2 < 1 /\ a2 > -1 /\ a2 > - a1 - 1 /\ a2 > a1 - 1)%R ->
  IsStable f = true.
Proof.
  assert (Hm1 : (lit (-1.0) : R) = (-1)%R) by (cbn; unfold Q2R; cbn; lra).
  intros Ha H4. unfold IsStable. rewrite Ha.
  cbn [len List.length Z.of_nat nth].
  cbn [Z.leb Z.eqb Pos.of_succ_nat Pos.succ Z.compare Pos.compare
       Pos.compare_cont Pos.eqb gtb ltb sub opp exact].
  rewrite ExactFacts.lit_1_0, Hm1.
  rewrite !andb_true_iff, !ExactFacts.Rltb_lt. lra.
Qed.

(** The pre-warped cutoff [tan(pi*fc)] is positive inside the band. *)
Lemma warp_pos (fc : R) : (0 < fc < 1 / 2)%R -> (0 < tan (PI * fc))%R.
Proof.
  intros Hfc. pose proof PI_RGT_0 as Hpi.
  apply tan_gt_0; nra.
Qed.

Lemma div_lt (a b c : R) : (0 < c -> a < b * c -> a / c < b)%R.
Proof.
  intros Hc H. apply Rmult_lt_reg_r with c; [assumption|].
  unfold Rdiv. rewrite Rmult_assoc, Rinv_l by lra. lra.
Qed.

Lemma lt_div (a b c : R) : (0 < c -> a * c < b -> a < b / c)%R.
Proof.
  intros Hc H. apply Rmult_lt_reg_r with c; [assumption|].
  unfold Rdiv. rewrite Rmult_assoc, Rinv_l by lra. lra.
Qed.

(** The pole of both bilinear first-order designs lies inside the unit
    circle. *)
Lemma bilinear_pole (al : R) :
  (0 < al)%R -> (Rabs (- ((1 - al) / (1 + al))) < 1)%R.
Proof.
  intros Hal. rewrite Rabs_Ropp. apply Rabs_def1.
  - apply div_lt; lra.
  - apply lt_div; lra.
Qed.

Lemma LowPass1_eq (fc : R) :
  (0 < fc < 1 / 2)%R ->
  NewFirstOrderLowPass fc
  = Returned {| bCoeffs := [tan (PI * fc) / (1 + tan (PI * fc));
                            tan (PI * fc) / (1 + tan (PI * fc))]%R;
                aCoeffs := [1; - ((1 - tan (PI * fc)) / (1 + tan (PI * fc)))]%R;
                xBuffer := make zero 2; yBuffer := make zero 2;
                xPos := 0; yPos := 0; order := 1 |}.
Proof.
  intros Hfc. unfold NewFirstOrderLowPass. rewrite (cutoff_ok Hfc).
  cbv zeta. rewrite !ExactFacts.lit_1.
  cbn [mul div add sub opp exact fpi ftan exact_libm].
  now rewrite IIRExact.New_unit by discriminate.
Qed.

Lemma HighPass1_eq (fc : R) :
  (0 < fc < 1 / 2)%R ->
  NewFirstOrderHighPass fc
  = Returned {| bCoeffs := [1 / (1 + tan (PI * fc));
                            - (1 / (1 + tan (PI * fc)))]%R;
                aCoeffs := [1; - ((1 - tan (PI * fc)) / (1 + tan (PI * fc)))]%R;
                xBuffer := make zero 2; yBuffer := make zero 2;
                xPos := 0; yPos := 0; order := 1 |}.
Proof.
  intros Hfc. unfold NewFirstOrderHighPass. rewrite (cutoff_ok Hfc).
  cbv zeta. rewrite !ExactFacts.lit_1, !ExactFacts.lit_1_0.
  cbn [mul div add sub opp exact fpi ftan exact_libm].
  now rewrite IIRExact.New_unit by discriminate.
Qed.
End DesignExact.

(** X10. In exact arithmetic, for every cutoff [0 < fc < 1/2] the
    first-order low-pass factory returns a first-order filter that
    [IsStable] reports stable, whose frequency response is exactly 1 at
    [freq = 0] and exactly 0 at the Nyquist frequency. *)
Theorem first_order_low_pass_design :
  forall fc : R,
    (0 < fc < 1 / 2)%R ->
    exists f,
      IIR.NewFirstOrderLowPass fc = Returned f
      /\ IIR.GetOrder f = 1
      /\ IIR.IsStable f = true
      /\ (forall I : Infinity R,
             IIR.GetFrequencyResponse f 0%R = Returned (1%R, 0%R))
      /\ (forall I : Infinity R,
             IIR.GetFrequencyResponse f (1 / 2)%R = Returned (0%R, 0%R)).
Proof.
  intros fc Hfc. pose proof (DesignExact.warp_pos Hfc) as Hal.
  eexists. split; [apply DesignExact.LowPass1_eq, Hfc|].
  split; [reflexivity|]. split; [|split].
  - eapply DesignExact.stable_first_order; [reflexivity|].
    now apply DesignExact.bilinear_pole.
  - intros I. apply DesignExact.response_dc; cbn [IIR.aCoeffs IIR.bCoeffs polyR].
    + replace (1 + 1 * (- ((1 - tan (PI * fc)) / (1 + tan (PI * fc))) + 1 * 0))%R
        with (2 * tan (PI * fc) / (1 + tan (PI * fc)))%R by (field; lra).
      apply Rgt_not_eq, Rdiv_lt_0_compat; lra.
    + field. lra.
  - intros I. apply DesignExact.response_nyquist;
      cbn [IIR.aCoeffs IIR.bCoeffs polyR].
    + replace (1 + -1 * (- ((1 - tan (PI * fc)) / (1 + tan (PI * fc))) + -1 * 0))%R
        with (2 / (1 + tan (PI * fc)))%R by (field; lra).
      apply Rgt_not_eq, Rdiv_lt_0_compat; lra.
    + field. lra.
Qed.

(** The low-pass of the test suite, cutoff one tenth of the sample rate. *)
Lemma first_order_low_pass_design_witness :
  exists f,
    IIR.NewFirstOrderLowPass (1 / 10)%R = Returned f
    /\ IIR.GetOrder f = 1
    /\ IIR.IsStable f = true
    /\ (forall I : Infinity R,
           IIR.GetFrequencyResponse f 0%R = Returned (1%R, 0%R))
    /\ (forall I : Infinity R,
           IIR.GetFrequencyResponse f (1 / 2)%R = Returned (0%R, 0%R)).
Proof.
  apply (first_order_low_pass_design (fc := (1 / 10)%R)). lra.
Defined.

(** X11. In exact arithmetic, for every cutoff [0 < fc < 1/2] the
    first-order high-pass factory returns a first-order filter that
    [IsStable] reports stable, whose frequency response is exactly 0 at
    [freq = 0] and exactly 1 at the Nyquist frequency. *)
Theorem first_order_high_pass_design :
  forall fc : R,
    (0 < fc < 1 / 2)%R ->
    exists f,
      IIR.NewFirstOrderHighPass fc = Returned f
      /\ IIR.GetOrder f = 1
      /\ IIR.IsStable f = true
      /\ (forall I : Infinity R,
             IIR.GetFrequencyResponse f 0%R = Returned (0%R, 0%R))
      /\ (forall I : Infinity R,
             IIR.GetFrequencyResponse f (1 / 2)%R = Returned (1%R, 0%R)).
Proof.
  intros fc Hfc. pose proof (DesignExact.warp_pos Hfc) as Hal.
  eexists. split; [apply DesignExact.HighPass1_eq, Hfc|].
  split; [reflexivity|]. split; [|split].
  - eapply DesignExact.stable_first_order; [reflexivity|].
    now apply DesignExact.bilinear_pole.
  - intros I. apply DesignExact.response_dc; cbn [IIR.aCoeffs IIR.bCoeffs polyR].
    + replace (1 + 1 * (- ((1 - tan (PI * fc)) / (1 + tan (PI * fc))) + 1 * 0))%R
        with (2 * tan (PI * fc) / (1 + tan (PI * fc)))%R by (field; lra).
      apply Rgt_not_eq, Rdiv_lt_0_compat; lra.
    + field. lra.
  - intros I. apply DesignExact.response_nyquist;
      cbn [IIR.aCoeffs IIR.bCoeffs polyR].
    + replace (1 + -1 * (- ((1 - tan (PI * fc)) / (1 + tan (PI * fc))) + -1 * 0))%R
        with (2 / (1 + tan (PI * fc)))%R by (field; lra).
      apply Rgt_not_eq, Rdiv_lt_0_compat; lra.
    + field. lra.
Qed.

(** The high-pass of the test suite, cutoff one tenth of the sample rate. *)
Lemma first_order_high_pass_design_witness :
  exists f,
    IIR.NewFirstOrderHighPass (1 / 10)%R = Returned f
    /\ IIR.GetOrder f = 1
    /\ IIR.IsStable f = true
    /\ (forall I : Infinity R,
           IIR.GetFrequencyResponse f 0%R = Returned (0%R, 0%R))
    /\ (forall I : Infinity R,
           IIR.GetFrequencyResponse f (1 / 2)%R = Returned (1%R, 0%R)).
Proof.
  apply (first_order_high_pass_design (fc := (1 / 10)%R)). lra.
Defined.

Module BiquadExact.
Import IIR.

Lemma lit_2_0 : (lit 2.0 : R) = 2%R.
Proof. cbn; unfold Q2R; cbn; lra. Qed.

Lemma lit_m2_0 : (lit (-2.0) : R) = (-2)%R.
Proof. cbn; unfold Q2R; cbn; lra. Qed.

Lemma lit_0_0 : (lit 0.0 : R) = 0%R.
Proof. cbn; unfold Q2R; cbn; lra. Qed.

(** Inside the band the angle [2*pi*fc] lies strictly between 0 and pi. *)
Lemma angle_in_band (fc : R) :
  (0 < fc < 1 / 2)%R -> (0 < 2 * PI * fc < PI)%R.
Proof. intros Hfc. pose proof PI_RGT_0. split; nra. Qed.

Lemma cos_strict (t : R) : (0 < t < PI)%R -> (-1 < cos t < 1)%R.
Proof.
  intros [H0 H1]. pose proof (sin_gt_0 t H0 H1) as Hs.
  pose proof (sin2_cos2 t) as E. unfold Rsqr in E. split; nra.
Qed.

(** The RBJ bandwidth term [sin(w0)/(2Q)] is positive. *)
Lemma alpha_pos (fc Q : R) :
  (0 < fc < 1 / 2)%R -> (0 < Q)%R -> (0 < sin (2 * PI * fc) / (2 * Q))%R.
Proof.
  intros Hfc HQ. destruct (angle_in_band Hfc) as [H0 H1].
  apply Rdiv_lt_0_compat; [now apply sin_gt_0 | lra].
Qed.

(** What a second-order factory builds from its numerator. *)
Lemma biquad_eq (fc Q : R) (num : R -> R -> R * R * R) (b0 b1 b2 : R) :
  (0 < fc < 1 / 2)%R -> (0 < Q)%R ->
  num (sin (2 * PI * fc) / (2 * Q))%R (cos (2 * PI * fc)) = (b0, b1, b2) ->
  biquad fc Q num
  = Returned
      {| bCoeffs := [b0 / (1 + sin (2 * PI * fc) / (2 * Q));
                     b1 / (1 + sin (2 * PI * fc) / (2 * Q));
                     b2 / (1 + sin (2 * PI * fc) / (2 * Q))]%R;
         aCoeffs := [1;
                     -2 * cos (2 * PI * fc) / (1 + sin (2 * PI * fc) / (2 * Q));
                     (1 - sin (2 * PI * fc) / (2 * Q))
                     / (1 + sin (2 * PI * fc) / (2 * Q))]%R;
         xBuffer := make zero 3; yBuffer := make zero 3;
         xPos := 0; yPos := 0; order := 2 |}.
Proof.
  intros Hfc HQ Hnum. unfold biquad.
  rewrite (DesignExact.cutoff_ok Hfc), (DesignExact.q_ok HQ).
  cbv zeta. rewrite !lit_2_0, !lit_m2_0, !ExactFacts.lit_1_0, !ExactFacts.lit_1.
  cbn [mul div add sub opp exact fpi fsin fcos exact_libm].
  rewrite Hnum. now rewrite IIRExact.New_unit by discriminate.
Qed.

(** Every second-order design is stable, and its denominator takes the
    values [(2 - 2c)/d] at 1 and [(2 + 2c)/d] at -1, both positive. *)
Lemma biquad_denominator (al c : R) (f : IIRFilter R) :
  (0 < al)%R -> (-1 < c < 1)%R ->
  aCoeffs f = [1; -2 * c / (1 + al); (1 - al) / (1 + al)]%R ->
  IsStable f = true
  /\ polyR (aCoeffs f) 1 = ((2 - 2 * c) / (1 + al))%R
  /\ polyR (aCoeffs f) (-1) = ((2 + 2 * c) / (1 + al))%R
  /\ polyR (aCoeffs f) 1 <> 0%R
  /\ polyR (aCoeffs f) (-1) <> 0%R.
Proof.
  intros Hal Hc Ha.
  assert (E1 : polyR (aCoeffs f) 1 = ((2 - 2 * c) / (1 + al))%R).
  { rewrite Ha. cbn [polyR]. field. lra. }
  assert (Em : polyR (aCoeffs f) (-1) = ((2 + 2 * c) / (1 + al))%R).
  { rewrite Ha. cbn [polyR]. field. lra. }
  split; [|split; [exact E1 | split; [exact Em | split]]].
  - apply (DesignExact.stable_second_order f Ha).
    assert (Hi : (0 < / (1 + al))%R) by (apply Rinv_0_lt_compat; lra).
    assert (Hd : (/ (1 + al) * (1 + al) = 1)%R) by (apply Rinv_l; lra).
    unfold Rdiv. repeat split; nra.
  - rewrite E1. apply Rgt_not_eq, Rdiv_lt_0_compat; lra.
  - rewrite Em. apply Rgt_not_eq, Rdiv_lt_0_compat; lra.
Qed.
End BiquadExact.

(** X12. In exact arithmetic, for every cutoff [0 < fc < 1/2] and
    quality factor [Q > 0] the second-order low-pass factory returns a
    second-order filter that [IsStable] reports stable, whose frequency
    response is exactly 1 at [freq = 0] and exactly 0 at the Nyquist
    frequency. *)
Theorem second_order_low_pass_design :
  forall fc Q : R,
    (0 < fc < 1 / 2)%R -> (0 < Q)%R ->
    exists f,
      IIR.NewSecondOrderLowPass fc Q = Returned f
      /\ IIR.GetOrder f = 2
      /\ IIR.IsStable f = true
      /\ (forall I : Infinity R,
             IIR.GetFrequencyResponse f 0%R = Returned (1%R, 0%R))
      /\ (forall I : Infinity R,
             IIR.GetFrequencyResponse f (1 / 2)%R = Returned (0%R, 0%R)).
Proof.
  intros fc Q Hfc HQ.
  pose proof (BiquadExact.alpha_pos Hfc HQ) as Hal.
  pose proof (BiquadExact.cos_strict (BiquadExact.angle_in_band Hfc)) as Hc.
  eexists. split.
  { unfold IIR.NewSecondOrderLowPass.
    apply BiquadExact.biquad_eq; [assumption | assumption |].
    rewrite !BiquadExact.lit_2_0, !ExactFacts.lit_1_0. reflexivity. }
  split; [reflexivity|].
  set (al := (sin (2 * PI * fc) / (2 * Q))%R) in *.
  set (c := cos (2 * PI * fc)) in *. clearbody al c.
  match goal with
  | |- IIR.IsStable ?f = true /\ _ =>
      destruct (BiquadExact.biquad_denominator f Hal Hc eq_refl)
        as (Hs & E1 & Em & N1 & Nm)
  end.
  split; [exact Hs|]. split; intros I.
  - apply DesignExact.response_dc; [exact N1|]. rewrite E1.
    cbn [IIR.bCoeffs polyR sub div exact]. field. lra.
  - apply DesignExact.response_nyquist; [exact Nm|]. rewrite Em.
    cbn [IIR.bCoeffs polyR sub div exact]. field. lra.
Qed.

(** The low-pass biquad of the test suite: [fc = 0.1], [Q = 0.707]. *)
Lemma second_order_low_pass_design_witness :
  exists f,
    IIR.NewSecondOrderLowPass (1 / 10)%R (707 / 1000)%R = Returned f
    /\ IIR.GetOrder f = 2
    /\ IIR.IsStable f = true
    /\ (forall I : Infinity R,
           IIR.GetFrequencyResponse f 0%R = Returned (1%R, 0%R))
    /\ (forall I : Infinity R,
           IIR.GetFrequencyResponse f (1 / 2)%R = Returned (0%R, 0%R)).
Proof.
  apply (second_order_low_pass_design (fc := (1 / 10)%R) (Q := (707 / 1000)%R));
    lra.
Defined.

(** X13. In exact arithmetic, for every cutoff [0 < fc < 1/2] and
    quality factor [Q > 0] the second-order high-pass factory returns a
    second-order filter that [IsStable] reports stable, whose frequency
    response is exactly 0 at [freq = 0] and exactly 1 at the Nyquist
    frequency. *)
Theorem second_order_high_pass_design :
  forall fc Q : R,
    (0 < fc < 1 / 2)%R -> (0 < Q)%R ->
    exists f,
      IIR.NewSecondOrderHighPass fc Q = Returned f
      /\ IIR.GetOrder f = 2
      /\ IIR.IsStable f = true
      /\ (forall I : Infinity R,
             IIR.GetFrequencyResponse f 0%R = Returned (0%R, 0%R))
      /\ (forall I : Infinity R,
             IIR.GetFrequencyResponse f (1 / 2)%R = Returned (1%R, 0%R)).
Proof.
  intros fc Q Hfc HQ.
  pose proof (BiquadExact.alpha_pos Hfc HQ) as Hal.
  pose proof (BiquadExact.cos_strict (BiquadExact.angle_in_band Hfc)) as Hc.
  eexists. split.
  { unfold IIR.NewSecondOrderHighPass.
    apply BiquadExact.biquad_eq; [assumption | assumption |].
    rewrite !BiquadExact.lit_2_0, !ExactFacts.lit_1_0. reflexivity. }
  split; [reflexivity|].
  set (al := (sin (2 * PI * fc) / (2 * Q))%R) in *.
  set (c := cos (2 * PI * fc)) in *. clearbody al c.
  match goal with
  | |- IIR.IsStable ?f = true /\ _ =>
      destruct (BiquadExact.biquad_denominator f Hal Hc eq_refl)
        as (Hs & E1 & Em & N1 & Nm)
  end.
  split; [exact Hs|]. split; intros I.
  - apply DesignExact.response_dc; [exact N1|]. rewrite E1.
    cbn [IIR.bCoeffs polyR add opp div exact]. field. lra.
  - apply DesignExact.response_nyquist; [exact Nm|]. rewrite Em.
    cbn [IIR.bCoeffs polyR add opp div exact]. field. lra.
Qed.

(** A high-pass biquad at [fc = 0.1], [Q = 0.707]. *)
Lemma second_order_high_pass_design_witness :
  exists f,
    IIR.NewSecondOrderHighPass (1 / 10)%R (707 / 1000)%R = Returned f
    /\ IIR.GetOrder f = 2
    /\ IIR.IsStable f = true
    /\ (forall I : Infinity R,
           IIR.GetFrequencyResponse f 0%R = Returned (0%R, 0%R))
    /\ (forall I : Infinity R,
           IIR.GetFrequencyResponse f (1 / 2)%R = Returned (1%R, 0%R)).
Proof.
  apply (second_order_high_pass_design (fc := (1 / 10)%R) (Q := (707 / 1000)%R));
    lra.
Defined.

(** X14. In exact arithmetic, for every centre frequency
    [0 < fc < 1/2] and quality factor [Q > 0] the second-order band-pass
    factory returns a second-order filter that [IsStable] reports stable,
    whose frequency response is exactly 0 both at [freq = 0] and at the
    Nyquist frequency. *)
Theorem second_order_band_pass_design :
  forall fc Q : R,
    (0 < fc < 1 / 2)%R -> (0 < Q)%R ->
    exists f,
      IIR.NewSecondOrderBandPass fc Q = Returned f
      /\ IIR.GetOrder f = 2
      /\ IIR.IsStable f = true
      /\ (forall I : Infinity R,
             IIR.GetFrequencyResponse f 0%R = Returned (0%R, 0%R))
      /\ (forall I : Infinity R,
             IIR.GetFrequencyResponse f (1 / 2)%R = Returned (0%R, 0%R)).
Proof.
  intros fc Q Hfc HQ.
  pose proof (BiquadExact.alpha_pos Hfc HQ) as Hal.
  pose proof (BiquadExact.cos_strict (BiquadExact.angle_in_band Hfc)) as Hc.
  eexists. split.
  { unfold IIR.NewSecondOrderBandPass.
    apply BiquadExact.biquad_eq; [assumption | assumption |].
    rewrite BiquadExact.lit_0_0. reflexivity. }
  split; [reflexivity|].
  set (al := (sin (2 * PI * fc) / (2 * Q))%R) in *.
  set (c := cos (2 * PI * fc)) in *. clearbody al c.
  match goal with
  | |- IIR.IsStable ?f = true /\ _ =>
      destruct (BiquadExact.biquad_denominator f Hal Hc eq_refl)
        as (Hs & E1 & Em & N1 & Nm)
  end.
  split; [exact Hs|]. split; intros I.
  - apply DesignExact.response_dc; [exact N1|]. rewrite E1.
    cbn [IIR.bCoeffs polyR opp exact]. field. lra.
  - apply DesignExact.response_nyquist; [exact Nm|]. rewrite Em.
    cbn [IIR.bCoeffs polyR opp exact]. field. lra.
Qed.

(** The band-pass biquad of the test suite: [fc = 0.1], [Q = 2]. *)
Lemma second_order_band_pass_design_witness :
  exists f,
    IIR.NewSecondOrderBandPass (1 / 10)%R 2%R = Returned f
    /\ IIR.GetOrder f = 2
    /\ IIR.IsStable f = true
    /\ (forall I : Infinity R,
           IIR.GetFrequencyResponse f 0%R = Returned (0%R, 0%R))
    /\ (forall I : Infinity R,
           IIR.GetFrequencyResponse f (1 / 2)%R = Returned (0%R, 0%R)).
Proof.
  apply (second_order_band_pass_design (fc := (1 / 10)%R) (Q := 2%R)); lra.
Defined.

Module ExpDesignExact.
Import IIR.

(** The pole [exp(-2*pi*fc)] of the impulse-invariant designs. *)
Lemma decay_in_unit (fc : R) :
  (0 < fc)%R -> (0 < exp (-2 * PI * fc) < 1)%R.
Proof.
  intros Hfc. split; [apply exp_pos|].
  rewrite <- exp_0. apply exp_increasing.
  pose proof PI_RGT_0. nra.
Qed.

Lemma LowPassExp_eq (fc : R) :
  (0 < fc < 1 / 2)%R ->
  NewFirstOrderLowPassExp fc
  = Returned {| bCoeffs := [1 - exp (-2 * PI * fc)]%R;
                aCoeffs := [1; - (1 - (1 - exp (-2 * PI * fc)))]%R;
                xBuffer := make zero 1; yBuffer := make zero 2;
                xPos := 0; yPos := 0; order := 1 |}.
Proof.
  intros Hfc. unfold NewFirstOrderLowPassExp.
  rewrite (DesignExact.cutoff_ok Hfc). cbv zeta.
  rewrite !BiquadExact.lit_m2_0, !ExactFacts.lit_1_0, !ExactFacts.lit_1.
  cbn [mul div add sub opp exact fpi fexp exact_libm].
  now rewrite IIRExact.New_unit by discriminate.
Qed.

Lemma HighPassExp_eq (fc : R) :
  (0 < fc < 1 / 2)%R ->
  NewFirstOrderHighPassExp fc
  = Returned {| bCoeffs := [(1 + (1 - exp (-2 * PI * fc))) / 2;
                            - ((1 + (1 - exp (-2 * PI * fc))) / 2)]%R;
                aCoeffs := [1; - (1 - (1 - exp (-2 * PI * fc)))]%R;
                xBuffer := make zero 2; yBuffer := make zero 2;
                xPos := 0; yPos := 0; order := 1 |}.
Proof.
  intros Hfc. unfold NewFirstOrderHighPassExp.
  rewrite (DesignExact.cutoff_ok Hfc). cbv zeta.
  rewrite !BiquadExact.lit_m2_0, !BiquadExact.lit_2_0, !ExactFacts.lit_1_0,
    !ExactFacts.lit_1.
  cbn [mul div add sub opp exact fpi fexp exact_libm].
  now rewrite IIRExact.New_unit by discriminate.
Qed.

Lemma exp_pole_stable (f : IIRFilter R) (E : R) :
  aCoeffs f = [1; - (1 - (1 - E))]%R -> (0 < E < 1)%R -> IsStable f = true.
Proof.
  intros Ha HE. apply (DesignExact.stable_first_order f Ha).
  apply Rabs_def1; lra.
Qed.
End ExpDesignExact.

(** X15. In exact arithmetic, for every cutoff [0 < fc < 1/2] the
    exponential low-pass factory returns a first-order filter that
    [IsStable] reports stable, whose frequency response is exactly 1 at
    [freq = 0] and, with [E = exp(-2*pi*fc)], exactly [(1 - E)/(1 + E)],
    a value strictly between 0 and 1, at the Nyquist frequency. *)
Theorem exponential_low_pass_design :
  forall fc : R,
    (0 < fc < 1 / 2)%R ->
    exists f,
      IIR.NewFirstOrderLowPassExp fc = Returned f
      /\ IIR.GetOrder f = 1
      /\ IIR.IsStable f = true
      /\ (forall I : Infinity R,
             IIR.GetFrequencyResponse f 0%R = Returned (1%R, 0%R))
      /\ (forall I : Infinity R,
             IIR.GetFrequencyResponse f (1 / 2)%R
             = Returned (((1 - exp (-2 * PI * fc))
                          / (1 + exp (-2 * PI * fc)))%R, 0%R))
      /\ (0 < (1 - exp (-2 * PI * fc)) / (1 + exp (-2 * PI * fc)) < 1)%R.
Proof.
  intros fc Hfc.
  pose proof (ExpDesignExact.decay_in_unit (proj1 Hfc)) as HE.
  eexists. split; [apply ExpDesignExact.LowPassExp_eq, Hfc|].
  split; [reflexivity|].
  set (E := exp (-2 * PI * fc)) in *. clearbody E.
  split; [eapply ExpDesignExact.exp_pole_stable; [reflexivity | exact HE]|].
  split; [|split].
  - intros I. apply DesignExact.response_dc;
      cbn [IIR.aCoeffs IIR.bCoeffs polyR]; lra.
  - intros I. apply DesignExact.response_nyquist;
      cbn [IIR.aCoeffs IIR.bCoeffs polyR]; [lra|]. field. lra.
  - split; [apply Rdiv_lt_0_compat; lra | apply DesignExact.div_lt; lra].
Qed.

(** The exponential low-pass at one tenth of the sample rate. *)
Lemma exponential_low_pass_design_witness :
  exists f,
    IIR.NewFirstOrderLowPassExp (1 / 10)%R = Returned f
    /\ IIR.GetOrder f = 1
    /\ IIR.IsStable f = true
    /\ (forall I : Infinity R,
           IIR.GetFrequencyResponse f 0%R = Returned (1%R, 0%R))
    /\ (forall I : Infinity R,
           IIR.GetFrequencyResponse f (1 / 2)%R
           = Returned (((1 - exp (-2 * PI * (1 / 10)))
                        / (1 + exp (-2 * PI * (1 / 10))))%R, 0%R))
    /\ (0 < (1 - exp (-2 * PI * (1 / 10))) / (1 + exp (-2 * PI * (1 / 10))) < 1)%R.
Proof.
  apply (exponential_low_pass_design (fc := (1 / 10)%R)). lra.
Defined.

(** X16. In exact arithmetic, for every cutoff [0 < fc < 1/2] the
    exponential high-pass factory returns a first-order filter that
    [IsStable] reports stable and whose frequency response is exactly 0 at
    [freq = 0]. *)
Theorem exponential_high_pass_design :
  forall fc : R,
    (0 < fc < 1 / 2)%R ->
    exists f,
      IIR.NewFirstOrderHighPassExp fc = Returned f
      /\ IIR.GetOrder f = 1
      /\ IIR.IsStable f = true
      /\ (forall I : Infinity R,
             IIR.GetFrequencyResponse f 0%R = Returned (0%R, 0%R)).
Proof.
  intros fc Hfc.
  pose proof (ExpDesignExact.decay_in_unit (proj1 Hfc)) as HE.
  eexists. split; [apply ExpDesignExact.HighPassExp_eq, Hfc|].
  split; [reflexivity|].
  set (E := exp (-2 * PI * fc)) in *. clearbody E.
  split; [eapply ExpDesignExact.exp_pole_stable; [reflexivity | exact HE]|].
  intros I. apply DesignExact.response_dc;
    cbn [IIR.aCoeffs IIR.bCoeffs polyR]; lra.
Qed.

(** The exponential high-pass at one tenth of the sample rate. *)
Lemma exponential_high_pass_design_witness :
  exists f,
    IIR.NewFirstOrderHighPassExp (1 / 10)%R = Returned f
    /\ IIR.GetOrder f = 1
    /\ IIR.IsStable f = true
    /\ (forall I : Infinity R,
           IIR.GetFrequencyResponse f 0%R = Returned (0%R, 0%R)).
Proof.
  apply (exponential_high_pass_design (fc := (1 / 10)%R)). lra.
Defined.

(** ** Goertzel: capacity, reset, and what the detector computes *)

Module GoertzelRun.
Import Goertzel GoertzelMore.

Section WithScalar.
Context {F : Type} `{Scalar F}.

Lemma feed_within (samples : list F) :
  forall g : GoertzelFilter F,
    Z.of_nat (List.length samples) <= totalN g - n g ->
    exists g',
      feed g samples = Ok g'
      /\ n g' = n g + Z.of_nat (List.length samples)
      /\ totalN g' = totalN g.
Proof.
  induction samples as [|x rest IH]; intros g Hl.
  - exists g. cbn. repeat split. lia.
  - cbn [List.length] in Hl. cbn [feed].
    rewrite GoertzelExact.Process_ok by lia.
    edestruct IH as (g' & Hf & Hn & HN); [|exists g'; split; [exact Hf|]].
    + cbn [n totalN]. lia.
    + cbn [n totalN] in Hn, HN. cbn [List.length]. split; [lia | exact HN].
Qed.

Lemma feed_beyond (samples : list F) :
  forall g : GoertzelFilter F,
    n g <= totalN g ->
    Z.of_nat (List.length samples) > totalN g - n g ->
    feed g samples
    = Err (InvalidStateError "all samples have already been processed").
Proof.
  induction samples as [|x rest IH]; intros g Hn Hl.
  - cbn [List.length] in Hl. lia.
  - cbn [List.length] in Hl. cbn [feed Process].
    destruct (Z.geb_spec (n g) (totalN g)) as [Hge|Hlt]; [reflexivity|].
    apply IH; cbn [n totalN]; lia.
Qed.

(** [Process] and [Reset] change nothing but [q1], [q2] and [n]. *)
Definition same_setup (g0 g : GoertzelFilter F) : Prop :=
  k g = k g0 /\ w g = w g0 /\ cosW g = cosW g0 /\ sinW g = sinW g0
  /\ coeff g = coeff g0 /\ totalN g = totalN g0.

Lemma evolves_setup (g0 g : GoertzelFilter F) :
  evolves g0 g -> same_setup g0 g.
Proof.
  induction 1 as [| g x g' _ IH Hp | g g' _ IH Hr].
  - unfold same_setup. repeat split.
  - apply GoertzelInv.Process_inv in Hp as [_ ->]. exact IH.
  - cbn [Reset] in Hr. injection Hr as <-. exact IH.
Qed.
End WithScalar.

(** In exact arithmetic: the state after a run, as a complex correlation. *)
Lemma cos_sum_shift (w : R) (hist : list R) :
  forall k : nat,
    cos_sum w hist (S k)
    = (cos w * cos_sum w hist k - sin w * sin_sum w hist k)%R
    /\ sin_sum w hist (S k)
       = (sin w * cos_sum w hist k + cos w * sin_sum w hist k)%R.
Proof.
  induction hist as [|x t IH]; intros k; cbn [cos_sum sin_sum].
  - split; ring.
  - destruct (IH (S k)) as [-> ->].
    replace (INR (S k) * w)%R with (INR k * w + w)%R by (rewrite S_INR; ring).
    rewrite cos_plus, sin_plus. split; ring.
Qed.

Definition correlates (g : GoertzelFilter R) (hist : list R) : Prop :=
  (q1 g - q2 g * cos (w g) = cos_sum (w g) hist 0)%R
  /\ (q2 g * sin (w g) = sin_sum (w g) hist 0)%R.

Lemma Process_correlates (g g' : GoertzelFilter R) (x : R) (hist : list R) :
  coeff g = (2 * cos (w g))%R ->
  correlates g hist ->
  Process (Some g) x = Ok g' ->
  correlates g' (x :: hist).
Proof.
  intros Hk [Hre Him] Hp. apply GoertzelInv.Process_inv in Hp as [_ ->].
  unfold correlates. cbn [q1 q2 w cos_sum sin_sum INR].
  destruct (cos_sum_shift (w g) hist 0) as [-> ->].
  rewrite <- Hre, <- Him, Hk. cbn [add sub mul exact].
  rewrite Rmult_0_l, cos_0, sin_0.
  pose proof (sin2_cos2 (w g)) as E. unfold Rsqr in E.
  set (c := cos (w g)) in *. set (s := sin (w g)) in *.
  split.
  - match goal with
    | |- _ = ?r =>
        replace r with (x + c * q1 g - q2 g * (s * s + c * c))%R by ring
    end.
    rewrite E. ring.
  - ring.
Qed.

Lemma feed_correlates (samples : list R) :
  forall (g g' : GoertzelFilter R) (hist : list R),
    coeff g = (2 * cos (w g))%R ->
    correlates g hist ->
    feed g samples = Ok g' ->
    correlates g' (rev samples ++ hist) /\ same_setup g g'.
Proof.
  induction samples as [|x rest IH]; intros g g' hist Hk Hc Hf.
  - cbn in Hf. injection Hf as <-. split; [exact Hc|].
    unfold same_setup. repeat split.
  - cbn [feed] in Hf.
    destruct (Process (Some g) x) as [g1|e] eqn:Hp; [|discriminate].
    pose proof (@Process_correlates g g1 x hist Hk Hc Hp) as Hc1.
    pose proof (evolves_setup (@evolves_process _ _ g g x g1 (evolves_refl g) Hp))
      as (Sk & Sw & Sc & Ss & Sco & SN).
    destruct (IH g1 g' (x :: hist)) as [Hc' S'];
      [rewrite Sco, Sw; exact Hk | exact Hc1 | exact Hf |].
    cbn [rev]. rewrite <- app_assoc. split; [exact Hc'|].
    destruct S' as (Tk & Tw & Tc & Ts & Tco & TN).
    unfold same_setup. repeat split; congruence.
Qed.
End GoertzelRun.

Module GoertzelBuild.
Import Goertzel GoertzelSpec GoertzelMore.

Section WithScalar.
Context {F : Type} `{Scalar F} `{Libm F}.

(** The state a successful construction returns, written out. *)
Lemma New_valid_eq (freq samplingRate : F) (N : Z) :
  invalid freq samplingRate N = false ->
  let k0 := trunc (add (lit 0.5) (div (mul (of_int N) freq) samplingRate)) in
  let kk := if k0 >=? N then N - 1 else k0 in
  let ww := div (mul (mul (lit 2) fpi) (of_int kk)) (of_int N) in
  NewGoertzelFilter freq samplingRate N
  = Ok {| k := kk; w := ww; cosW := fcos ww; sinW := fsin ww;
          q1 := lit 0; q2 := lit 0; n := 0; totalN := N;
          coeff := mul (lit 2) (fcos ww) |}.
Proof.
  unfold invalid, NewGoertzelFilter.
  destruct (leb freq (lit 0)); [discriminate|].
  destruct (leb samplingRate (lit 0)); [discriminate|].
  destruct (N <=? 0); [discriminate|].
  destruct (geb freq (div samplingRate (lit 2))); [discriminate|].
  reflexivity.
Qed.

Lemma New_ok_valid (freq samplingRate : F) (N : Z) (g0 : GoertzelFilter F) :
  NewGoertzelFilter freq samplingRate N = Ok g0 ->
  invalid freq samplingRate N = false.
Proof.
  intros Hnew. destruct (invalid freq samplingRate N) eqn:Hi; [|reflexivity].
  destruct (GoertzelFacts.New_invalid _ _ _ Hi) as (p & v & r & E). congruence.
Qed.

Lemma Reset_evolved (freq samplingRate : F) (N : Z) (g0 g : GoertzelFilter F) :
  NewGoertzelFilter freq samplingRate N = Ok g0 ->
  evolves g0 g -> Reset (Some g) = Ok g0.
Proof.
  intros Hnew Hev.
  destruct (GoertzelRun.evolves_setup Hev) as (Sk & Sw & Sc & Ss & Sco & SN).
  pose proof Hnew as Hv. apply New_ok_valid in Hv.
  pose proof (New_valid_eq _ _ _ Hv) as E. cbv zeta in E.
  rewrite E in Hnew. injection Hnew as <-.
  cbn [Reset]. cbn [k w cosW sinW coeff totalN] in *.
  now rewrite Sk, Sw, Sc, Ss, Sco, SN.
Qed.
End WithScalar.

(** Truncation of a non-negative real. *)
Lemma Rtrunc_bounds (x : R) :
  (0 <= x)%R -> (IZR (Exact.Rtrunc x) <= x < IZR (Exact.Rtrunc x) + 1)%R.
Proof.
  intros Hx. unfold Exact.Rtrunc.
  destruct (Rle_dec 0 x) as [_|Hn]; [|contradiction].
  destruct (base_Int_part x) as [H1 H2]. lra.
Qed.

(** The bin the constructor picks, in exact arithmetic: the clamp is never
    needed, and the bin is the one nearest to [N*freq/rate]. *)
Lemma bin_exact (freq rate : R) (N : Z) :
  invalid freq rate N = false ->
  let k0 := Exact.Rtrunc (1 / 2 + IZR N * freq / rate) in
  (k0 >=? N) = false /\ 0 <= k0 /\ 2 * k0 <= N
  /\ (IZR k0 - 1 / 2 <= IZR N * freq / rate < IZR k0 + 1 / 2)%R.
Proof.
  intros Hv. apply GoertzelExact.invalid_exact in Hv as (Hf & Hr & HN & Hny).
  intros k0.
  assert (HNr : (1 <= IZR N)%R) by (apply IZR_le; lia).
  assert (Ht0 : (0 < IZR N * freq / rate)%R)
    by (apply Rdiv_lt_0_compat; nra).
  assert (Ht1 : (IZR N * freq / rate < IZR N / 2)%R)
    by (apply DesignExact.div_lt; nra).
  destruct (Rtrunc_bounds (x := (1 / 2 + IZR N * freq / rate)%R)) as [B1 B2];
    [lra|]. fold k0 in B1, B2.
  assert (H0 : 0 <= k0).
  { assert (-1 < k0); [|lia]. apply lt_IZR. lra. }
  assert (H2 : 2 * k0 <= N).
  { assert (2 * k0 < N + 1); [|lia]. apply lt_IZR.
    rewrite mult_IZR, plus_IZR. lra. }
  split; [|split; [exact H0 | split; [exact H2 | lra]]].
  destruct (Z.geb_spec k0 N); [lia | reflexivity].
Qed.

Lemma New_exact (freq rate : R) (N : Z) (g0 : GoertzelFilter R) :
  NewGoertzelFilter freq rate N = Ok g0 ->
  k g0 = Exact.Rtrunc (1 / 2 + IZR N * freq / rate)
  /\ w g0 = (2 * PI * IZR (k g0) / IZR N)%R
  /\ totalN g0 = N /\ n g0 = 0 /\ q1 g0 = 0%R /\ q2 g0 = 0%R
  /\ invalid freq rate N = false.
Proof.
  intros Hnew. pose proof Hnew as Hv. apply New_ok_valid in Hv.
  pose proof (New_valid_eq _ _ _ Hv) as E. cbv zeta in E.
  assert (Hh : (lit 0.5 : R) = (1 / 2)%R) by (cbn; unfold Q2R; cbn; lra).
  rewrite Hh, ExactFacts.lit_2, ExactFacts.lit_0 in E.
  cbn [add mul div of_int trunc fpi fcos fsin exact exact_libm] in E.
  destruct (@bin_exact freq rate N Hv) as (Hc & _). rewrite Hc in E.
  assert (Hg : Ok g0 = Ok _ :> result (error R) _)
    by (rewrite <- Hnew; exact E).
  injection Hg as ->. cbn [k w totalN n q1 q2].
  repeat split. exact Hv.
Qed.
End GoertzelBuild.

(** X17. A detector with [n <= totalN] accepts exactly the samples that
    still fit: feeding it [m <= totalN - n] samples one by one succeeds,
    leaves [GetProcessedCount = n + m] and makes [IsComplete] true exactly
    when [n + m = totalN]; feeding it more fails with the
    [InvalidStateError] of a full detector. *)
Theorem goertzel_capacity :
  forall (F : Type) (Sc : Scalar F) (g : Goertzel.GoertzelFilter F)
         (samples : list F),
    Goertzel.n g <= Goertzel.totalN g ->
    (Z.of_nat (List.length samples) <= Goertzel.totalN g - Goertzel.n g ->
     exists g',
       Goertzel.feed g samples = Ok g'
       /\ Goertzel.GetProcessedCount (Some g')
          = Goertzel.n g + Z.of_nat (List.length samples)
       /\ Goertzel.IsComplete (Some g')
          = (Goertzel.n g + Z.of_nat (List.length samples) =? Goertzel.totalN g))
    /\ (Z.of_nat (List.length samples) > Goertzel.totalN g - Goertzel.n g ->
        Goertzel.feed g samples
        = Err (Goertzel.InvalidStateError
                 "all samples have already been processed")).
Proof.
  intros F Sc g samples Hn. split.
  - intros Hl. destruct (GoertzelRun.feed_within samples g Hl)
      as (g' & Hf & Hn' & HN).
    exists g'. split; [exact Hf|]. cbn [Goertzel.GetProcessedCount Goertzel.IsComplete].
    split; [exact Hn'|]. rewrite Hn', HN.
    destruct (Z.geb_spec (Goertzel.n g + Z.of_nat (List.length samples))
                         (Goertzel.totalN g));
      destruct (Z.eqb_spec (Goertzel.n g + Z.of_nat (List.length samples))
                           (Goertzel.totalN g)); try reflexivity; lia.
  - intros Hl. now apply GoertzelRun.feed_beyond.
Qed.

(** The two-sample detector on binary64: two samples fit, three do not. *)
Lemma goertzel_capacity_witness :
  (exists g',
      Goertzel.feed goertzel_dc [1; 2]%float = Ok g'
      /\ Goertzel.GetProcessedCount (Some g') = 0 + 2
      /\ Goertzel.IsComplete (Some g') = (0 + 2 =? 2))
  /\ Goertzel.feed goertzel_dc [1; 2; 3]%float
     = Err (Goertzel.InvalidStateError "all samples have already been processed").
Proof.
  split.
  - apply (proj1 (@goertzel_capacity float binary64 goertzel_dc [1; 2]%float
                    ltac:(cbn; lia))). cbn. lia.
  - apply (proj2 (@goertzel_capacity float binary64 goertzel_dc [1; 2; 3]%float
                    ltac:(cbn; lia))). cbn. lia.
Defined.

(** X18. Whatever successful [Process] and [Reset] calls a constructed
    detector has been through, [Reset] returns it to exactly the state the
    constructor produced: [q1], [q2] and [n] are zero again and the bin, the
    angle, its cosine and sine, the coefficient and the capacity are
    untouched. *)
Theorem goertzel_reset_restores :
  forall (F : Type) (Sc : Scalar F) (L : Libm F) (freq samplingRate : F)
         (N : Z) (g0 g : Goertzel.GoertzelFilter F),
    Goertzel.NewGoertzelFilter freq samplingRate N = Ok g0 ->
    GoertzelMore.evolves g0 g ->
    Goertzel.Reset (Some g) = Ok g0.
Proof.
  intros F Sc L freq samplingRate N g0 g. apply GoertzelBuild.Reset_evolved.
Qed.

(** The detector for 1 Hz sampled at 4 Hz, after one sample. *)
Lemma goertzel_reset_restores_witness :
  exists g0 g : Goertzel.GoertzelFilter R,
    Goertzel.NewGoertzelFilter 1%R 4%R 2 = Ok g0
    /\ Goertzel.Process (Some g0) 1%R = Ok g
    /\ Goertzel.Reset (Some g) = Ok g0.
Proof.
  destruct GoertzelExact.detector_1_4_2 as (g0 & Hg & HN & Hn).
  assert (Hp := GoertzelExact.Process_ok g0 1%R ltac:(lia)).
  exists g0. eexists. split; [exact Hg|]. split; [exact Hp|].
  apply (@goertzel_reset_restores R exact exact_libm 1%R 4%R 2 g0 _ Hg).
  eapply GoertzelMore.evolves_process; [apply GoertzelMore.evolves_refl | exact Hp].
Defined.

Module GoertzelDFT.
Import Goertzel GoertzelSpec GoertzelMore.

(** What a run from a constructed detector leaves behind. *)
Lemma run_state (freq rate : R) (N : Z) (g0 g : GoertzelFilter R)
      (samples : list R) :
  NewGoertzelFilter freq rate N = Ok g0 ->
  feed g0 samples = Ok g ->
  n g = Z.of_nat (List.length samples) /\ totalN g = N /\ 0 < N
  /\ w g = w g0
  /\ coeff g = (2 * cos (w g0))%R
  /\ cosW g = cos (w g0) /\ sinW g = sin (w g0)
  /\ (q1 g - q2 g * cos (w g0) = cos_sum (w g0) (rev samples) 0)%R
  /\ (q2 g * sin (w g0) = sin_sum (w g0) (rev samples) 0)%R.
Proof.
  intros Hnew Hfeed.
  pose proof Hnew as T. apply GoertzelBuild.New_exact in T.
  destruct T as (_ & _ & HN & Hn & Hq1 & Hq2 & Hv).
  pose proof Hnew as Hcons. apply GoertzelInv.New_consistent in Hcons.
  destruct (GoertzelInv.consistent_exact Hcons) as (Hk & Hcos & Hsin).
  destruct Hcons as (_ & _ & _ & Hpos & _).
  assert (Hc0 : GoertzelRun.correlates g0 []).
  { unfold GoertzelRun.correlates. rewrite Hq1, Hq2. cbn. split; ring. }
  pose proof Hfeed as T.
  apply (@GoertzelRun.feed_correlates samples g0 g [] Hk Hc0) in T.
  destruct T as ([Hre Him] & Sk & Sw & Sc & Ss & Sco & SN).
  rewrite app_nil_r in Hre, Him. rewrite Sw in Hre, Him.
  assert (Hcount : n g = Z.of_nat (List.length samples)).
  { destruct (Z_le_gt_dec (Z.of_nat (List.length samples)) (totalN g0 - n g0))
      as [Hle|Hgt].
    - destruct (GoertzelRun.feed_within samples g0 Hle) as (g' & Hf & Hn' & _).
      assert (g' = g) by congruence. subst g'. lia.
    - rewrite GoertzelRun.feed_beyond in Hfeed by lia. discriminate. }
  repeat split; try congruence; lia.
Qed.
End GoertzelDFT.

(** X19. In exact arithmetic the detector computes the magnitude of one
    bin of the discrete Fourier transform.  After a constructed detector has
    processed the samples [x_0 .. x_(m-1)], [m >= 1], both magnitude queries
    return [2*|X|/N], where [X = sum_i x_(m-1-i) * e^(j*i*w)] is the
    correlation of the samples with the complex exponential at the bin's
    angular frequency [w = 2*pi*k/N], and [GetPower] returns half the square
    of that magnitude. *)
Theorem goertzel_computes_dft_bin :
  forall (freq rate : R) (N : Z) (g0 g : Goertzel.GoertzelFilter R)
         (samples : list R),
    Goertzel.NewGoertzelFilter freq rate N = Ok g0 ->
    Goertzel.feed g0 samples = Ok g ->
    samples <> [] ->
    let w := (2 * PI * IZR (Goertzel.k g0) / IZR N)%R in
    let X_re := cos_sum w (rev samples) 0 in
    let X_im := sin_sum w (rev samples) 0 in
    let magnitude := (2 * sqrt (X_re * X_re + X_im * X_im) / IZR N)%R in
    Goertzel.w g0 = w
    /\ Goertzel.GetMagnitudeOptimized (Some g) = Ok magnitude
    /\ Goertzel.GetMagnitude (Some g) = Ok magnitude
    /\ Goertzel.GetPower (Some g) = Ok (magnitude * magnitude / 2)%R.
Proof.
  intros freq rate N g0 g samples Hnew Hfeed Hne.
  pose proof Hnew as T. apply GoertzelBuild.New_exact in T.
  destruct T as (_ & Hw & _).
  destruct (@GoertzelDFT.run_state freq rate N g0 g samples Hnew Hfeed)
    as (Hn & HN & Hpos & Sw & Hk & Hcos & Hsin & Hre & Him).
  rewrite <- Hw. cbv zeta. split; [reflexivity|].
  assert (Hn0 : (Goertzel.n g =? 0) = false).
  { apply Z.eqb_neq. rewrite Hn. destruct samples; [congruence | cbn; lia]. }
  assert (Hopt : Goertzel.magnitudeSquaredOptimized g
                 = (cos_sum (Goertzel.w g0) (rev samples) 0
                    * cos_sum (Goertzel.w g0) (rev samples) 0
                    + sin_sum (Goertzel.w g0) (rev samples) 0
                      * sin_sum (Goertzel.w g0) (rev samples) 0)%R).
  { unfold Goertzel.magnitudeSquaredOptimized. cbn [add sub mul exact].
    now rewrite Hcos, Hsin, Hre, Him. }
  assert (Hms : Goertzel.magnitudeSquared g = Goertzel.magnitudeSquaredOptimized g).
  { rewrite GoertzelInv.radicand_exact by (rewrite Sw; exact Hk).
    unfold Goertzel.magnitudeSquaredOptimized. cbn [add sub mul exact].
    now rewrite Hcos, Hsin, Sw. }
  assert (Hlt : ltb (Goertzel.magnitudeSquaredOptimized g) (lit 0) = false).
  { rewrite ExactFacts.lit_0, Hopt. apply ExactFacts.Rltb_ge.
    pose proof (Rle_0_sqr (cos_sum (Goertzel.w g0) (rev samples) 0)) as H1.
    pose proof (Rle_0_sqr (sin_sum (Goertzel.w g0) (rev samples) 0)) as H2.
    unfold Rsqr in H1, H2. cbn [exact]. lra. }
  assert (Hmo : Goertzel.GetMagnitudeOptimized (Some g)
                = Ok (2 * sqrt (Goertzel.magnitudeSquaredOptimized g) / IZR N)%R).
  { cbn [Goertzel.GetMagnitudeOptimized]. rewrite Hn0, Hlt, ExactFacts.lit_2, HN.
    reflexivity. }
  assert (Hm : Goertzel.GetMagnitude (Some g)
               = Ok (2 * sqrt (Goertzel.magnitudeSquaredOptimized g) / IZR N)%R).
  { cbn [Goertzel.GetMagnitude]. rewrite Hn0, Hms, Hlt, ExactFacts.lit_2, HN.
    reflexivity. }
  rewrite <- Hopt. split; [exact Hmo|]. split; [exact Hm|].
  unfold Goertzel.GetPower. rewrite Hm, ExactFacts.lit_2. reflexivity.
Qed.

(** The detector for 1 Hz sampled at 4 Hz, after the samples 1 and 0. *)
Lemma goertzel_computes_dft_bin_witness :
  exists g0 g : Goertzel.GoertzelFilter R,
    Goertzel.NewGoertzelFilter 1%R 4%R 2 = Ok g0
    /\ Goertzel.feed g0 [1; 0]%R = Ok g
    /\ Goertzel.GetMagnitude (Some g) = Goertzel.GetMagnitudeOptimized (Some g)
    /\ Goertzel.GetMagnitude (Some g)
       = Ok (2 * sqrt (cos_sum (2 * PI * IZR (Goertzel.k g0) / 2) [0; 1]%R 0
                       * cos_sum (2 * PI * IZR (Goertzel.k g0) / 2) [0; 1]%R 0
                       + sin_sum (2 * PI * IZR (Goertzel.k g0) / 2) [0; 1]%R 0
                         * sin_sum (2 * PI * IZR (Goertzel.k g0) / 2) [0; 1]%R 0)
             / 2)%R.
Proof.
  destruct GoertzelExact.detector_1_4_2 as (g0 & Hg & HN & Hn).
  destruct (GoertzelRun.feed_within [1; 0]%R g0) as (g & Hf & _);
    [cbn; lia|].
  exists g0, g. split; [exact Hg|]. split; [exact Hf|].
  destruct (@goertzel_computes_dft_bin 1%R 4%R 2 g0 g [1; 0]%R Hg Hf)
    as (_ & Ho & Hm & _); [discriminate|].
  split; [now rewrite Ho, Hm | exact Hm].
Defined.

(** X20. In exact arithmetic the bin a successful construction picks is
    the one nearest to the requested frequency: [0 <= k] and [2*k <= N], so
    the bin never exceeds the Nyquist bin (and the clamp to [N - 1] is never
    needed), and the frequency [GetTargetFrequency] reports for the sampling
    rate of the construction differs from the requested frequency by at
    most half a bin width, [rate/(2*N)]. *)
Theorem goertzel_bin_is_nearest :
  forall (freq rate : R) (N : Z) (g0 : Goertzel.GoertzelFilter R),
    Goertzel.NewGoertzelFilter freq rate N = Ok g0 ->
    0 <= Goertzel.GetCoefficient (Some g0)
    /\ 2 * Goertzel.GetCoefficient (Some g0) <= N
    /\ GoertzelMore.GetTargetFrequency (Some g0) rate
       = (IZR (Goertzel.k g0) * rate / IZR N)%R
    /\ (Rabs (GoertzelMore.GetTargetFrequency (Some g0) rate - freq)
        <= rate / (2 * IZR N))%R.
Proof.
  intros freq rate N g0 Hnew.
  pose proof Hnew as T. apply GoertzelBuild.New_exact in T.
  destruct T as (Hk & _ & HN & _ & _ & _ & Hv).
  destruct (@GoertzelBuild.bin_exact freq rate N Hv) as (_ & H0 & H2 & Hb).
  rewrite <- Hk in H0, H2, Hb.
  apply GoertzelExact.invalid_exact in Hv as (Hf & Hr & HNpos & Hny).
  assert (HNr : (0 < IZR N)%R) by (apply IZR_lt; lia).
  assert (Ht : GoertzelMore.GetTargetFrequency (Some g0) rate
               = (IZR (Goertzel.k g0) * rate / IZR N)%R).
  { cbn [GoertzelMore.GetTargetFrequency]. rewrite HN.
    destruct (Z.eqb_spec N 0); [lia | reflexivity]. }
  cbn [Goertzel.GetCoefficient].
  split; [exact H0|]. split; [exact H2|]. split; [exact Ht|].
  rewrite Ht.
  set (t := (IZR N * freq / rate)%R) in *.
  replace (IZR (Goertzel.k g0) * rate / IZR N - freq)%R
    with ((IZR (Goertzel.k g0) - t) * (rate / IZR N))%R
    by (unfold t; field; lra).
  replace (rate / (2 * IZR N))%R with (1 / 2 * (rate / IZR N))%R
    by (field; lra).
  assert (Hp : (0 < rate / IZR N)%R) by (apply Rdiv_lt_0_compat; lra).
  apply Rabs_le. split; nra.
Qed.

(** The detector for 1 Hz sampled at 4 Hz over two samples. *)
Lemma goertzel_bin_is_nearest_witness :
  exists g0 : Goertzel.GoertzelFilter R,
    Goertzel.NewGoertzelFilter 1%R 4%R 2 = Ok g0
    /\ 0 <= Goertzel.GetCoefficient (Some g0)
    /\ 2 * Goertzel.GetCoefficient (Some g0) <= 2
    /\ (Rabs (GoertzelMore.GetTargetFrequency (Some g0) 4 - 1) <= 4 / (2 * 2))%R.
Proof.
  destruct GoertzelExact.detector_1_4_2 as (g0 & Hg & _).
  exists g0. split; [exact Hg|].
  destruct (@goertzel_bin_is_nearest 1%R 4%R 2 g0 Hg) as (H0 & H2 & _ & Hb).
  auto.
Defined.

(** ** Phase detector *)

Module PhaseExact.
Import Phase.

(** Truncation toward zero: the fractional part has the sign of the
    argument. *)
Lemma Rtrunc_frac (t : R) :
  ((0 <= t -> 0 <= t - IZR (Exact.Rtrunc t) < 1)
   /\ (t < 0 -> -1 < t - IZR (Exact.Rtrunc t) <= 0))%R.
Proof.
  split; intros Ht.
  - destruct (GoertzelBuild.Rtrunc_bounds Ht). lra.
  - unfold Exact.Rtrunc. destruct (Rle_dec 0 t) as [H0|_]; [lra|].
    destruct (base_Int_part (- t)) as [H1 H2].
    rewrite opp_IZR. lra.
Qed.

Lemma Rtrunc_unique (t : R) (z : Z) :
  (0 <= t)%R -> (IZR z <= t < IZR z + 1)%R -> Exact.Rtrunc t = z.
Proof.
  intros Ht [H1 H2]. destruct (GoertzelBuild.Rtrunc_bounds Ht) as [B1 B2].
  assert (z < Exact.Rtrunc t + 1) by (apply lt_IZR; rewrite plus_IZR; lra).
  assert (Exact.Rtrunc t < z + 1) by (apply lt_IZR; rewrite plus_IZR; lra).
  lia.
Qed.

(** [math.Mod(x, y)] for a positive modulus. *)
Lemma Rfmod_range (x y : R) :
  (0 < y)%R ->
  ((0 <= x -> 0 <= ExactMath.Rfmod x y < y)
   /\ (x < 0 -> - y < ExactMath.Rfmod x y <= 0))%R.
Proof.
  intros Hy. unfold ExactMath.Rfmod.
  assert (E : (x - y * IZR (Exact.Rtrunc (x / y))
               = y * (x / y - IZR (Exact.Rtrunc (x / y))))%R) by (field; lra).
  rewrite E. destruct (Rtrunc_frac (x / y)) as [Fp Fn].
  split; intros Hx.
  - assert (0 <= x / y)%R by (apply Rle_mult_inv_pos; lra).
    specialize (Fp H). nra.
  - assert (x / y < 0)%R.
    { pose proof (Rinv_0_lt_compat y Hy). unfold Rdiv. nra. }
    specialize (Fn H). nra.
Qed.

(** The value before the final test for [-pi]. *)
Definition folded (phase : R) : R :=
  let m := ExactMath.Rfmod (phase + PI) (2 * PI) in
  ((if Exact.Rltb m 0 then m + 2 * PI else m) - PI)%R.

Lemma normalizePhase_eq (phase : R) :
  normalizePhase phase
  = if Exact.Reqb (folded phase) (- PI) then PI else folded phase.
Proof.
  unfold normalizePhase, folded. rewrite ExactFacts.lit_2, ExactFacts.lit_0.
  reflexivity.
Qed.

Lemma folded_range (phase : R) :
  (- PI <= folded phase < PI)%R
  /\ exists z : Z, folded phase = (phase + 2 * PI * IZR z)%R.
Proof.
  pose proof PI_RGT_0 as Hpi. unfold folded.
  destruct (Rfmod_range (phase + PI) (y := (2 * PI)%R)) as [Rp Rn]; [lra|].
  assert (Hz : ExactMath.Rfmod (phase + PI) (2 * PI)
               = (phase + PI - 2 * PI * IZR (Exact.Rtrunc ((phase + PI) / (2 * PI))))%R)
    by reflexivity.
  set (m := ExactMath.Rfmod (phase + PI) (2 * PI)) in *.
  set (q := Exact.Rtrunc ((phase + PI) / (2 * PI))) in *.
  destruct (Rle_lt_dec 0 (phase + PI)) as [Hx|Hx].
  - specialize (Rp Hx).
    replace (Exact.Rltb m 0) with false
      by (symmetry; apply ExactFacts.Rltb_ge; lra).
    split; [lra|]. exists (- q). rewrite opp_IZR. lra.
  - specialize (Rn Hx). unfold Exact.Rltb. destruct (Rlt_dec m 0) as [Hm|Hm].
    + split; [lra|]. exists (1 - q). rewrite minus_IZR. lra.
    + split; [lra|]. exists (- q). rewrite opp_IZR. lra.
Qed.

Lemma normalizePhase_range (phase : R) :
  (- PI < normalizePhase phase <= PI)%R
  /\ exists z : Z, normalizePhase phase = (phase + 2 * PI * IZR z)%R.
Proof.
  pose proof PI_RGT_0 as Hpi. rewrite normalizePhase_eq.
  destruct (folded_range phase) as [[H1 H2] [z Hz]].
  unfold Exact.Reqb. destruct (Req_dec_T (folded phase) (- PI)) as [E|E].
  - split; [lra|]. exists (z + 1). rewrite plus_IZR. lra.
  - split; [lra|]. exists z. exact Hz.
Qed.

Lemma normalizePhase_fixed (p : R) :
  (- PI < p <= PI)%R -> normalizePhase p = p.
Proof.
  intros [H1 H2]. pose proof PI_RGT_0 as Hpi.
  rewrite normalizePhase_eq. unfold folded, ExactMath.Rfmod.
  destruct (Req_dec_T p PI) as [->|Hne].
  - replace ((PI + PI) / (2 * PI))%R with 1%R by (field; lra).
    rewrite (Rtrunc_unique (t := 1%R) 1) by lra.
    replace (PI + PI - 2 * PI * 1)%R with 0%R by ring.
    replace (Exact.Rltb 0 0) with false
      by (symmetry; apply ExactFacts.Rltb_ge; lra).
    replace (0 - PI)%R with (- PI)%R by ring.
    unfold Exact.Reqb. destruct (Req_dec_T (- PI) (- PI)); [reflexivity|lra].
  - assert (Ht : (0 <= (p + PI) / (2 * PI) < 1)%R).
    { split; [apply Rle_mult_inv_pos; lra | apply DesignExact.div_lt; lra]. }
    rewrite (Rtrunc_unique (t := ((p + PI) / (2 * PI))%R) 0) by lra.
    replace (p + PI - 2 * PI * 0)%R with (p + PI)%R by ring.
    replace (Exact.Rltb (p + PI) 0) with false
      by (symmetry; apply ExactFacts.Rltb_ge; lra).
    replace (p + PI - PI)%R with p by ring.
    unfold Exact.Reqb. destruct (Req_dec_T p (- PI)); [lra | reflexivity].
Qed.
End PhaseExact.

(** X21. In exact arithmetic [normalizePhase] maps every phase to the
    representative of its class modulo [2*pi] in the interval
    [(-pi, pi]]: the result lies in that interval, differs from the argument
    by an integer multiple of [2*pi], and a phase already in the interval is
    returned unchanged. *)
Theorem normalize_phase_principal_value :
  forall phase : R,
    (- PI < Phase.normalizePhase phase <= PI)%R
    /\ (exists z : Z, Phase.normalizePhase phase = (phase + 2 * PI * IZR z)%R)
    /\ ((- PI < phase <= PI)%R -> Phase.normalizePhase phase = phase)
    /\ Phase.normalizePhase (Phase.normalizePhase phase)
       = Phase.normalizePhase phase.
Proof.
  intros phase. destruct (PhaseExact.normalizePhase_range phase) as [Hr Hz].
  split; [exact Hr|]. split; [exact Hz|].
  split; [apply PhaseExact.normalizePhase_fixed|].
  now apply PhaseExact.normalizePhase_fixed.
Qed.

(** A phase of one radian is already normalised. *)
Lemma normalize_phase_principal_value_witness :
  Phase.normalizePhase 1%R = 1%R.
Proof.
  apply (proj1 (proj2 (proj2 (normalize_phase_principal_value 1%R)))).
  pose proof PI2_3_2. lra.
Defined.


Module PhaseLoop.
Import Phase.

Lemma lit_tenth : (lit 0.1 : R) = (/ 10)%R.
Proof. cbn; unfold Q2R; cbn; lra. Qed.

(** The loop filter is a convex combination: it keeps the error within
    [[-pi, pi]] whenever the coefficient lies in [(0, 1]]. *)
Lemma blend_bounded (a d e : R) :
  (0 < a <= 1)%R -> (Rabs d <= PI)%R -> (Rabs e <= PI)%R ->
  (Rabs (a * d + (1 - a) * e) <= PI)%R.
Proof.
  intros Ha Hd He.
  assert (- PI <= d <= PI)%R by (unfold Rabs in Hd; destruct (Rcase_abs d); lra).
  assert (- PI <= e <= PI)%R by (unfold Rabs in He; destruct (Rcase_abs e); lra).
  apply Rabs_le. split; nra.
Qed.

Lemma new_alpha (a : R) :
  let a' := if leb a (lit 0) || gtb a (lit 1) then lit 0.1 else a in
  (0 < a' <= 1)%R.
Proof.
  cbn zeta. rewrite ExactFacts.lit_0, ExactFacts.lit_1, lit_tenth.
  unfold gtb. cbn [leb ltb exact].
  destruct (Exact.Rleb a 0) eqn:E1; cbn [orb]; [lra|].
  destruct (Exact.Rltb 1 a) eqn:E2; [lra|].
  apply ExactFacts.Rleb_gt in E1. apply ExactFacts.Rltb_ge in E2. lra.
Qed.

Section AnyComplexLibrary.
Context {C : Cmplx R} {D : ComplexDiv R}.

Lemma reachable_inv (cpd : CoherentPhaseDetector R) :
  reachable cpd ->
  (0 < alpha cpd <= 1)%R /\ (Rabs (filteredError cpd) <= PI)%R.
Proof.
  pose proof PI_RGT_0 as Hpi.
  induction 1 as [ref a | cpd input _ [IHa IHe] | cpd _ [IHa IHe]
                  | cpd offset _ [IHa IHe] | cpd newRef _ [IHa IHe]].
  - cbn [NewCoherentPhaseDetector alpha filteredError]. split.
    + apply new_alpha.
    + rewrite ExactFacts.lit_0, Rabs_R0. lra.
  - cbn [Detect fst alpha filteredError]. split; [exact IHa|].
    rewrite ExactFacts.lit_1. cbn [add mul sub exact].
    apply blend_bounded; [exact IHa | | exact IHe].
    match goal with
    | |- (Rabs (normalizePhase ?p) <= _)%R =>
        destruct (PhaseExact.normalizePhase_range p) as [[L U] _]
    end.
    apply Rabs_le. lra.
  - cbn [UpdateOffset alpha filteredError]. split; [exact IHa|].
    rewrite ExactFacts.lit_0, Rabs_R0. lra.
  - cbn [SetPhaseOffset alpha filteredError]. split; assumption.
  - cbn [UpdateReferenceSignal alpha filteredError]. split; assumption.
Qed.
End AnyComplexLibrary.
End PhaseLoop.




(** ** Windows *)

Module WindowLoops.
Import Windows.
Section WithScalar.
Context {F : Type} `{Scalar F} `{Libm F}.

(** The window loop fills the slice from [n] on and leaves the part below
    [n] alone. *)
Lemma window_loop_fills (N : Z) (todo : nat) :
  forall (n : nat) (window : list F),
    (n + todo = List.length window)%nat ->
    exists w,
      window_loop todo N (Z.of_nat n) window = Returned w
      /\ List.length w = List.length window
      /\ forall k d, (k < List.length window)%nat ->
           nth k w d = if (k <? n)%nat then nth k window d
                       else term N (Z.of_nat k).
Proof.
  induction todo as [|todo IH]; intros n window Hn.
  - exists window. split; [reflexivity|]. split; [reflexivity|].
    intros k d Hk. replace (k <? n)%nat with true; [reflexivity|].
    symmetry. apply Nat.ltb_lt. lia.
  - cbn [window_loop]. rewrite store_ok by (unfold len; lia).
    cbn [bind]. rewrite Nat2Z.id.
    replace (Z.of_nat n + 1) with (Z.of_nat (S n)) by lia.
    destruct (IH (S n) (upd window n (term N (Z.of_nat n))))
      as (w & Hw & Hl & Hk).
    { rewrite length_upd. lia. }
    exists w. split; [exact Hw|]. rewrite length_upd in Hl, Hk.
    split; [exact Hl|]. intros k d Hlt. rewrite (Hk k d Hlt).
    destruct (Nat.ltb_spec k (S n)) as [H1|H1];
      destruct (Nat.ltb_spec k n) as [H2|H2]; try lia; try reflexivity.
    + apply nth_upd_other. lia.
    + assert (k = n) by lia. subst k. apply nth_upd_same. lia.
Qed.

Lemma blackmanHarrisWindow_returns (N : Z) :
  0 <= N ->
  exists w,
    blackmanHarrisWindow N = Returned w
    /\ len w = N
    /\ forall k d, 0 <= k < N -> nth (Z.to_nat k) w d = term N k.
Proof.
  intros HN. unfold blackmanHarrisWindow.
  replace (N <? 0) with false by (symmetry; apply Z.ltb_ge; lia).
  assert (Hl : List.length (make (zero : F) N) = Z.to_nat N)
    by (unfold make; apply repeat_length).
  destruct (@window_loop_fills N (Z.to_nat N) 0%nat (make zero N))
    as (w & Hw & Hlen & Hk); [lia|].
  exists w. split; [exact Hw|]. split; [unfold len; lia|].
  intros k d Hkr. rewrite Hk by lia.
  replace (Z.to_nat k <? 0)%nat with false by (symmetry; apply Nat.ltb_ge; lia).
  now rewrite Z2Nat.id by lia.
Qed.

Lemma apply_loop_fills (coeffs window : list F) (todo : nat) :
  forall (i : nat) (m : list F),
    (i + todo = List.length m)%nat ->
    List.length coeffs = List.length m ->
    List.length window = List.length m ->
    exists out,
      apply_loop todo (Z.of_nat i) coeffs window m = Returned out
      /\ List.length out = List.length m
      /\ forall k, (k < List.length m)%nat ->
           nth k out zero
           = if (k <? i)%nat then nth k m zero
             else mul (nth k coeffs zero) (nth k window zero).
Proof.
  induction todo as [|todo IH]; intros i m Hi Hc Hw.
  - exists m. split; [reflexivity|]. split; [reflexivity|].
    intros k Hk. replace (k <? i)%nat with true; [reflexivity|].
    symmetry. apply Nat.ltb_lt. lia.
  - cbn [apply_loop].
    rewrite !index_ok by (unfold len; lia). cbn [bind].
    rewrite store_ok by (unfold len; lia). cbn [bind]. rewrite Nat2Z.id.
    replace (Z.of_nat i + 1) with (Z.of_nat (S i)) by lia.
    destruct (IH (S i) (upd m i (mul (nth i coeffs zero) (nth i window zero))))
      as (out & Ho & Hl & Hk); rewrite ?length_upd; try lia.
    exists out. split; [exact Ho|]. rewrite length_upd in Hl, Hk.
    split; [exact Hl|]. intros k Hlt. rewrite (Hk k Hlt).
    destruct (Nat.ltb_spec k (S i)) as [H1|H1];
      destruct (Nat.ltb_spec k i) as [H2|H2]; try lia; try reflexivity.
    + apply nth_upd_other. lia.
    + assert (k = i) by lia. subst k. apply nth_upd_same. lia.
Qed.

Lemma Apply_returns (coeffs : list F) :
  exists out,
    ApplyBlackmanHarrisWindow coeffs = Returned out
    /\ len out = len coeffs
    /\ forall i, 0 <= i < len coeffs ->
         nth (Z.to_nat i) out zero
         = mul (nth (Z.to_nat i) coeffs zero) (term (len coeffs) i).
Proof.
  unfold ApplyBlackmanHarrisWindow.
  destruct (@blackmanHarrisWindow_returns (len coeffs)) as (w & Hw & Hlw & Hkw);
    [apply len_nonneg|].
  rewrite Hw. cbn [bind].
  assert (Hm : List.length (make (zero : F) (len coeffs)) = List.length coeffs).
  { unfold make, len. rewrite repeat_length. lia. }
  destruct (@apply_loop_fills coeffs w (Z.to_nat (len coeffs)) 0%nat
              (make zero (len coeffs)))
    as (out & Ho & Hl & Hk).
  - rewrite Hm. unfold len. lia.
  - now rewrite Hm.
  - rewrite Hm. unfold len in Hlw. lia.
  - rewrite Hm in Hl, Hk.
    exists out. split; [exact Ho|]. split; [unfold len; lia|].
    intros i Hi. rewrite Hk by (unfold len in Hi; lia).
    replace (Z.to_nat i <? 0)%nat with false
      by (symmetry; apply Nat.ltb_ge; lia).
    now rewrite Hkw by lia.
Qed.
End WithScalar.
End WindowLoops.

(** X23. For every number system, [ApplyBlackmanHarrisWindow] never panics:
    it returns a slice as long as its argument (the empty slice for an empty
    one) whose entry [i] is [coeffs[i]] multiplied by the window term
    [a0 - a1*cos x + a2*cos 2x - a3*cos 3x] at [x = 2*pi*i/(N-1)], and the
    window on its own returns [N] such terms for every [N >= 0] and panics
    for a negative length. *)
Theorem apply_window_pointwise :
  forall (F : Type) (Sc : Scalar F) (L : Libm F) (coeffs : list F),
    (exists out,
       Windows.ApplyBlackmanHarrisWindow coeffs = Returned out
       /\ len out = len coeffs
       /\ forall i, 0 <= i < len coeffs ->
            index zero out i
            = Returned (mul (nth (Z.to_nat i) coeffs zero)
                            (Windows.term (len coeffs) i)))
    /\ forall N : Z,
         if N <? 0 then panics (Windows.blackmanHarrisWindow (F := F) N)
         else exists w,
             Windows.blackmanHarrisWindow N = Returned w
             /\ len w = N
             /\ forall k, 0 <= k < N ->
                  index zero w k = Returned (Windows.term N k).
Proof.
  intros F Sc L coeffs. split.
  - destruct (WindowLoops.Apply_returns coeffs) as (out & Ho & Hl & Hk).
    exists out. split; [exact Ho|]. split; [exact Hl|].
    intros i Hi. rewrite index_ok by lia. now rewrite Hk.
  - intros N. destruct (Z.ltb_spec N 0) as [HN|HN].
    + unfold Windows.blackmanHarrisWindow.
      replace (N <? 0) with true by (symmetry; apply Z.ltb_lt; lia).
      eexists; reflexivity.
    + destruct (@WindowLoops.blackmanHarrisWindow_returns F Sc L N HN)
        as (w & Hw & Hl & Hk).
      exists w. split; [exact Hw|]. split; [exact Hl|].
      intros k Hkr. rewrite index_ok by lia. now rewrite Hk.
Qed.


Module WindowExact.
Import Windows.

Lemma lit_a0 : (lit 0.35875 : R) = (35875 / 100000)%R.
Proof. cbn; unfold Q2R; cbn; lra. Qed.
Lemma lit_a1 : (lit 0.48829 : R) = (48829 / 100000)%R.
Proof. cbn; unfold Q2R; cbn; lra. Qed.
Lemma lit_a2 : (lit 0.14128 : R) = (14128 / 100000)%R.
Proof. cbn; unfold Q2R; cbn; lra. Qed.
Lemma lit_a3 : (lit 0.01168 : R) = (1168 / 100000)%R.
Proof. cbn; unfold Q2R; cbn; lra. Qed.
Lemma lit_3 : (lit 3 : R) = 3%R.
Proof. cbn; unfold Q2R; cbn; lra. Qed.

(** The angle of the window at index [n]. *)
Definition angle (N n : Z) : R := (PI * 2 * IZR n / IZR (N - 1))%R.

Lemma term_eq (N n : Z) :
  term N n
  = (35875 / 100000 - 48829 / 100000 * cos (angle N n)
     + 14128 / 100000 * cos (2 * angle N n)
     - 1168 / 100000 * cos (3 * angle N n))%R.
Proof.
  unfold term, angle. cbn zeta.
  rewrite lit_a0, lit_a1, lit_a2, lit_a3, lit_3, ExactFacts.lit_2.
  reflexivity.
Qed.

Lemma cos_3a (x : R) :
  cos (3 * x) = (4 * cos x * cos x * cos x - 3 * cos x)%R.
Proof.
  replace (3 * x)%R with (2 * x + x)%R by ring.
  rewrite cos_plus, cos_2a_cos, sin_2a.
  pose proof (sin2_cos2 x) as S. unfold Rsqr in S.
  replace (2 * sin x * cos x * sin x)%R
    with (2 * cos x * (1 - cos x * cos x))%R by (rewrite <- S; ring).
  ring.
Qed.

(** The window as a cubic in the cosine of the angle. *)
Lemma term_cubic (N n : Z) :
  let c := cos (angle N n) in
  term N n
  = (21747 / 100000 - 45325 / 100000 * c + 28256 / 100000 * c * c
     - 4672 / 100000 * c * c * c)%R.
Proof.
  cbn zeta. rewrite term_eq, cos_2a_cos, cos_3a. field.
Qed.

Lemma term_bounds (N n : Z) :
  (6 / 100000 <= term N n <= 1)%R.
Proof.
  pose proof (term_cubic N n) as E. cbn zeta in E. rewrite E.
  destruct (COS_bound (angle N n)) as [Hl Hu].
  set (c := cos (angle N n)) in *. clearbody c.
  assert (Hq : (0 <= 21741 / 100000 - 23584 / 100000 * c
                     + 4672 / 100000 * c * c)%R) by nra.
  assert (Hr : (0 <= 99997 / 100000 - 54672 / 100000 * c
                     + 4672 / 100000 * c * c)%R) by nra.
  split.
  - replace (21747 / 100000 - 45325 / 100000 * c + 28256 / 100000 * c * c
             - 4672 / 100000 * c * c * c)%R
      with (6 / 100000
            + (1 - c) * (21741 / 100000 - 23584 / 100000 * c
                         + 4672 / 100000 * c * c))%R by field.
    assert (0 <= (1 - c) * (21741 / 100000 - 23584 / 100000 * c
                            + 4672 / 100000 * c * c))%R
      by (apply Rmult_le_pos; lra).
    lra.
  - replace (21747 / 100000 - 45325 / 100000 * c + 28256 / 100000 * c * c
             - 4672 / 100000 * c * c * c)%R
      with (1 - (1 + c) * (78253 / 100000 - 32928 / 100000 * c
                           + 4672 / 100000 * c * c))%R by field.
    assert (0 <= (1 + c) * (78253 / 100000 - 32928 / 100000 * c
                            + 4672 / 100000 * c * c))%R
      by (apply Rmult_le_pos; [lra | nra]).
    lra.
Qed.

Lemma angle_mirror (N n : Z) :
  N <> 1 -> angle N (N - 1 - n) = (2 * PI - angle N n)%R.
Proof.
  intros HN. unfold angle. rewrite !minus_IZR.
  assert (IZR N - 1 <> 0)%R.
  { intros E. apply HN. apply eq_IZR. lra. }
  field. exact H.
Qed.

Lemma cos_mirror (k : nat) (x : R) :
  cos (INR k * (2 * PI - x)) = cos (INR k * x).
Proof.
  replace (INR k * (2 * PI - x))%R with (- (INR k * x) + 2 * INR k * PI)%R
    by ring.
  now rewrite cos_period, cos_neg.
Qed.

Lemma term_mirror (N n : Z) : N <> 1 -> term N (N - 1 - n) = term N n.
Proof.
  intros HN. rewrite !term_eq, angle_mirror by assumption.
  pose proof (cos_mirror 1 (angle N n)) as C1.
  pose proof (cos_mirror 2 (angle N n)) as C2.
  pose proof (cos_mirror 3 (angle N n)) as C3.
  cbn [INR] in C1, C2, C3.
  replace (1 * (2 * PI - angle N n))%R with (2 * PI - angle N n)%R in C1 by ring.
  replace (1 * angle N n)%R with (angle N n) in C1 by ring.
  replace ((1 + 1) * (2 * PI - angle N n))%R
    with (2 * (2 * PI - angle N n))%R in C2 by ring.
  replace ((1 + 1) * angle N n)%R with (2 * angle N n)%R in C2 by ring.
  replace ((1 + 1 + 1) * (2 * PI - angle N n))%R
    with (3 * (2 * PI - angle N n))%R in C3 by ring.
  replace ((1 + 1 + 1) * angle N n)%R with (3 * angle N n)%R in C3 by ring.
  now rewrite C1, C2, C3.
Qed.

Lemma term_first (N : Z) : term N 0 = (6 / 100000)%R.
Proof.
  rewrite term_eq. unfold angle.
  replace (PI * 2 * 0 / IZR (N - 1))%R with 0%R by (unfold Rdiv; ring).
  rewrite !Rmult_0_r, cos_0. field.
Qed.

Lemma term_middle (m : Z) : 0 < m -> term (2 * m + 1) m = 1%R.
Proof.
  intros Hm. rewrite term_eq. unfold angle.
  replace (2 * m + 1 - 1) with (2 * m) by lia. rewrite mult_IZR.
  assert (IZR m <> 0)%R by (apply not_0_IZR; lia).
  replace (PI * 2 * IZR m / (2 * IZR m))%R with PI by (field; assumption).
  rewrite cos_2PI, cos_PI.
  replace (3 * PI)%R with (PI + 2 * INR 1 * PI)%R by (cbn [INR]; ring).
  rewrite cos_period, cos_PI. field.
Qed.
End WindowExact.

(** X24. In exact arithmetic the window of [N >= 2] points takes values
    between [0.00006] and [1]: it is [0.00006] at both ends, symmetric about
    its middle, and [1] at the middle point of an odd length.  So
    [ApplyBlackmanHarrisWindow] never enlarges a coefficient and never
    changes its sign. *)
Theorem window_values :
  forall N : Z,
    2 <= N ->
    exists w : list R,
      Windows.blackmanHarrisWindow N = Returned w
      /\ len w = N
      /\ (forall n, 0 <= n < N ->
            (6 / 100000 <= nth (Z.to_nat n) w 0 <= 1)%R
            /\ nth (Z.to_nat (N - 1 - n)) w 0%R = nth (Z.to_nat n) w 0%R)
      /\ nth 0 w 0%R = (6 / 100000)%R
      /\ nth (Z.to_nat (N - 1)) w 0%R = (6 / 100000)%R
      /\ (Z.odd N = true -> nth (Z.to_nat ((N - 1) / 2)) w 0%R = 1%R).
Proof.
  intros N HN.
  destruct (@WindowLoops.blackmanHarrisWindow_returns R exact exact_libm N)
    as (w & Hw & Hl & Hk); [lia|].
  exists w. split; [exact Hw|]. split; [exact Hl|].
  split; [|split; [|split]].
  - intros n Hn. rewrite !Hk by lia. split.
    + apply WindowExact.term_bounds.
    + apply WindowExact.term_mirror. lia.
  - change (nth 0 w 0%R) with (nth (Z.to_nat 0) w 0%R).
    rewrite Hk by lia. apply WindowExact.term_first.
  - rewrite Hk by lia.
    replace (Windows.term N (N - 1)) with (Windows.term N (N - 1 - 0))
      by (f_equal; lia).
    rewrite WindowExact.term_mirror by lia. apply WindowExact.term_first.
  - intros Hodd. rewrite Hk by (split; [apply Z.div_pos; lia
                                       | apply Z.div_lt_upper_bound; lia]).
    rewrite Zodd_bool_iff in Hodd. apply Zodd_ex in Hodd as [m Hm].
    rewrite Hm in HN |- *. replace (2 * m + 1 - 1) with (m * 2) by lia.
    rewrite Z.div_mul by lia. apply WindowExact.term_middle. lia.
Qed.

(** The five-point window. *)
Lemma window_values_witness :
  exists w : list R,
    Windows.blackmanHarrisWindow 5 = Returned w /\ nth 2 w 0%R = 1%R.
Proof.
  destruct (@window_values 5) as (w & Hw & _ & _ & _ & _ & Hm); [lia|].
  exists w. split; [exact Hw|]. apply (Hm eq_refl).
Defined.

(** X25. In exact arithmetic windowing commutes with reversing the
    coefficients: the window applied to the reversed slice is the reverse of
    the windowed slice.  In particular a symmetric (linear-phase) set of
    coefficients stays symmetric. *)
Theorem apply_window_reversal :
  forall coeffs out : list R,
    Windows.ApplyBlackmanHarrisWindow coeffs = Returned out ->
    Windows.ApplyBlackmanHarrisWindow (rev coeffs) = Returned (rev out)
    /\ (rev coeffs = coeffs -> rev out = out).
Proof.
  intros coeffs out Hout.
  assert (Hrev : Windows.ApplyBlackmanHarrisWindow (rev coeffs)
                 = Returned (rev out)).
  { destruct (WindowLoops.Apply_returns coeffs) as (o & Ho & Hl & Hk).
    rewrite Hout in Ho. injection Ho as <-.
    destruct (WindowLoops.Apply_returns (rev coeffs)) as (o' & Ho' & Hl' & Hk').
    rewrite Ho'. f_equal.
    assert (Hlr : len (rev coeffs) = len coeffs)
      by (unfold len; now rewrite length_rev).
    rewrite Hlr in Hl', Hk'. unfold len in Hl, Hl'.
    apply nth_ext with (d := 0%R) (d' := 0%R).
    - rewrite length_rev. lia.
    - intros i Hi.
      assert (Hic : (i < List.length coeffs)%nat) by lia.
      assert (Hio : (i < List.length out)%nat) by lia.
      specialize (Hk' (Z.of_nat i)). rewrite Nat2Z.id in Hk'.
      change (zero : R) with (lit 0 : R) in Hk', Hk.
      rewrite ExactFacts.lit_0 in Hk', Hk.
      rewrite Hk' by (unfold len; lia).
      rewrite !rev_nth by assumption.
      specialize (Hk (Z.of_nat (List.length out - S i))).
      rewrite Nat2Z.id in Hk. rewrite Hk by (unfold len; lia).
      replace (List.length coeffs - S i)%nat with (List.length out - S i)%nat
        by lia.
      f_equal.
      destruct (Z.eq_dec (len coeffs) 1) as [E1|E1].
      + unfold len in E1. f_equal. lia.
      + rewrite <- (WindowExact.term_mirror (N := len coeffs)
                      (Z.of_nat (List.length out - S i))) by assumption.
        f_equal. unfold len. lia. }
  split; [exact Hrev|]. intros Hsym. rewrite Hsym in Hrev.
  rewrite Hout in Hrev. now injection Hrev.
Qed.

(** The symmetric coefficients [1, 2, 1]. *)
Lemma apply_window_reversal_witness :
  exists out : list R,
    Windows.ApplyBlackmanHarrisWindow [1; 2; 1]%R = Returned out
    /\ rev out = out.
Proof.
  destruct (WindowLoops.Apply_returns [1; 2; 1]%R) as (out & Ho & _).
  exists out. split; [exact Ho|].
  apply (proj2 (@apply_window_reversal [1; 2; 1]%R out Ho)). reflexivity.
Defined.


(** ** Reference signal generator *)

Module GeneratorLoops.
Import Generators.
Section WithScalar.
Context {F : Type} `{Scalar F} `{Libm F} `{Rounding F}.

(** What one round of the loop assigns to [signals[i]], if anything. *)
Definition assigned (rsg : ReferenceSignalGenerator F) (i : Z) : option F :=
  let timeStep := div (lit 1.0) (SampleRate rsg) in
  let angularFreq := mul (mul (lit 2) fpi) (Frequency rsg) in
  let time := mul (of_int i) timeStep in
  let normalizedTime := mul (Frequency rsg) time in
  if Kind rsg =? Sine then Some (generateSine rsg angularFreq time)
  else if Kind rsg =? Cosine then Some (generateCosine rsg angularFreq time)
  else if Kind rsg =? Square then Some (generateSquare rsg normalizedTime)
  else if Kind rsg =? Sawtooth then Some (generateSawtooth rsg normalizedTime)
  else if Kind rsg =? Triangle then Some (generateTriangle rsg normalizedTime)
  else None.

Definition written (rsg : ReferenceSignalGenerator F) (i : Z) : F :=
  match assigned rsg i with Some v => v | None => zero end.

Lemma generate_step_assigned (rsg : ReferenceSignalGenerator F) (i : Z)
    (signals : list F) :
  generate_step rsg (div (lit 1.0) (SampleRate rsg))
                (mul (mul (lit 2) fpi) (Frequency rsg)) i signals
  = match assigned rsg i with
    | Some v => store signals i v
    | None => Returned signals
    end.
Proof.
  unfold generate_step, assigned. cbn zeta.
  repeat match goal with |- context [if ?b then _ else _] => destruct b end;
    reflexivity.
Qed.

Lemma generate_loop_fills (rsg : ReferenceSignalGenerator F) (todo : nat) :
  forall (i : nat) (signals : list F),
    (i + todo = List.length signals)%nat ->
    exists out,
      generate_loop rsg (div (lit 1.0) (SampleRate rsg))
                    (mul (mul (lit 2) fpi) (Frequency rsg))
                    todo (Z.of_nat i) signals = Returned out
      /\ List.length out = List.length signals
      /\ forall k, (k < List.length signals)%nat ->
           nth k out zero
           = if (k <? i)%nat then nth k signals zero
             else match assigned rsg (Z.of_nat k) with
                  | Some v => v
                  | None => nth k signals zero
                  end.
Proof.
  induction todo as [|todo IH]; intros i signals Hi.
  - exists signals. split; [reflexivity|]. split; [reflexivity|].
    intros k Hk. replace (k <? i)%nat with true; [reflexivity|].
    symmetry. apply Nat.ltb_lt. lia.
  - cbn [generate_loop]. rewrite generate_step_assigned.
    replace (Z.of_nat i + 1) with (Z.of_nat (S i)) by lia.
    destruct (assigned rsg (Z.of_nat i)) as [v|] eqn:Ea.
    + rewrite store_ok by (unfold len; lia). cbn [bind]. rewrite Nat2Z.id.
      destruct (IH (S i) (upd signals i v)) as (out & Ho & Hl & Hk).
      { rewrite length_upd. lia. }
      exists out. split; [exact Ho|]. rewrite length_upd in Hl, Hk.
      split; [exact Hl|]. intros k Hlt. rewrite (Hk k Hlt).
      destruct (Nat.ltb_spec k (S i)) as [L1|L1];
        destruct (Nat.ltb_spec k i) as [L2|L2]; try lia.
      * apply nth_upd_other. lia.
      * assert (k = i) by lia. subst k. rewrite Ea. apply nth_upd_same. lia.
      * destruct (assigned rsg (Z.of_nat k)); [reflexivity|].
        apply nth_upd_other. lia.
    + cbn [bind].
      destruct (IH (S i) signals) as (out & Ho & Hl & Hk); [lia|].
      exists out. split; [exact Ho|]. split; [exact Hl|].
      intros k Hlt. rewrite (Hk k Hlt).
      destruct (Nat.ltb_spec k (S i)) as [L1|L1];
        destruct (Nat.ltb_spec k i) as [L2|L2]; try lia; try reflexivity.
      assert (k = i) by lia. subst k. now rewrite Ea.
Qed.

(** A validated generator whose sample count is not negative returns that
    many samples, sample [i] being what round [i] writes. *)
Lemma Generate_returns (rsg : ReferenceSignalGenerator F) :
  validate rsg = None ->
  0 <= trunc (fround (mul (TotalTime rsg) (SampleRate rsg))) ->
  exists signals,
    Generate rsg = Returned (Ok signals)
    /\ len signals = trunc (fround (mul (TotalTime rsg) (SampleRate rsg)))
    /\ forall i, 0 <= i < len signals ->
         nth (Z.to_nat i) signals zero = written rsg i.
Proof.
  intros Hv Hn. unfold Generate. rewrite Hv.
  set (numSamples := trunc (fround (mul (TotalTime rsg) (SampleRate rsg)))) in *.
  replace (numSamples <? 0) with false by (symmetry; apply Z.ltb_ge; lia).
  cbn zeta.
  assert (Hm : List.length (make (zero : F) numSamples) = Z.to_nat numSamples)
    by (unfold make; apply repeat_length).
  destruct (@generate_loop_fills rsg (Z.to_nat numSamples) 0%nat
              (make zero numSamples)) as (out & Ho & Hl & Hk); [lia|].
  cbn [Z.of_nat] in Ho. rewrite Ho. cbn [bind].
  rewrite Hm in Hl, Hk.
  assert (Hlen : len out = numSamples) by (unfold len; lia).
  exists out. split; [reflexivity|]. split; [exact Hlen|].
  intros i Hi. rewrite Hk by lia.
  replace (Z.to_nat i <? 0)%nat with false by (symmetry; apply Nat.ltb_ge; lia).
  rewrite Z2Nat.id by lia. unfold written.
  destruct (assigned rsg i); [reflexivity | apply nth_make].
Qed.
End WithScalar.
End GeneratorLoops.

Module GeneratorExact.
Import Generators GeneratorLoops.

(** The parameters [validate] accepts. *)
Definition valid (rsg : ReferenceSignalGenerator R) : Prop :=
  (0 < Frequency rsg /\ 0 < SampleRate rsg /\ 0 < TotalTime rsg
   /\ 0 < Amplitude rsg /\ 0 < DutyCycle rsg < 1
   /\ Frequency rsg * 2 < SampleRate rsg)%R.

Lemma lit_quarter : (lit 0.25 : R) = (1 / 4)%R.
Proof. cbn; unfold Q2R; cbn; lra. Qed.
Lemma lit_three_quarters : (lit 0.75 : R) = (3 / 4)%R.
Proof. cbn; unfold Q2R; cbn; lra. Qed.
Lemma lit_4 : (lit 4 : R) = 4%R.
Proof. cbn; unfold Q2R; cbn; lra. Qed.

Lemma validate_valid (rsg : ReferenceSignalGenerator R) :
  valid rsg <-> validate rsg = None.
Proof.
  unfold valid, validate, geb. rewrite ExactFacts.lit_0, ExactFacts.lit_1,
    ExactFacts.lit_2.
  cbn [leb ltb mul div exact].
  repeat match goal with
  | |- context [Exact.Rleb ?a ?b] =>
      let E := fresh "E" in
      destruct (Exact.Rleb a b) eqn:E;
      [apply ExactFacts.Rleb_le in E | apply ExactFacts.Rleb_gt in E];
      cbn [orb]
  end; split; intros Hv; try discriminate; try reflexivity; lra.
Qed.

Lemma frac_range (y : R) : (0 <= y - ExactRounding.Rfloor y < 1)%R.
Proof.
  unfold ExactRounding.Rfloor. destruct (base_Int_part y). lra.
Qed.

Lemma Int_part_unique (x : R) (z : Z) :
  (IZR z <= x < IZR z + 1)%R -> Int_part x = z.
Proof.
  intros [H1 H2]. destruct (base_Int_part x) as [B1 B2].
  assert (z < Int_part x + 1) by (apply lt_IZR; rewrite plus_IZR; lra).
  assert (Int_part x < z + 1) by (apply lt_IZR; rewrite plus_IZR; lra).
  lia.
Qed.

(** The sample count of a positive duration. *)
Lemma count_round (x : R) :
  (0 < x)%R ->
  let n := Exact.Rtrunc (ExactRounding.Rround x) in
  0 <= n /\ (Rabs (IZR n - x) <= 1 / 2)%R.
Proof.
  intros Hx. cbn zeta. unfold ExactRounding.Rround.
  destruct (Rle_dec 0 x) as [_|Hn]; [|lra].
  destruct (base_Int_part (x + 1 / 2)) as [B1 B2].
  set (z := Int_part (x + 1 / 2)) in *.
  assert (Hz : 0 <= z).
  { assert (-1 < z); [|lia]. apply lt_IZR. lra. }
  assert (Ht : Exact.Rtrunc (IZR z) = z).
  { apply PhaseExact.Rtrunc_unique; [apply IZR_le; lia | lra]. }
  rewrite Ht. split; [exact Hz|]. apply Rabs_le. lra.
Qed.

Lemma assigned_bounded (rsg : ReferenceSignalGenerator R) (i : Z) (v : R) :
  (0 < Amplitude rsg)%R -> assigned rsg i = Some v ->
  (Rabs v <= Amplitude rsg)%R.
Proof.
  intros HA. unfold assigned. cbn zeta.
  set (time := mul (of_int i) (div (lit 1.0) (SampleRate rsg))).
  set (angularFreq := mul (mul (lit 2) fpi) (Frequency rsg)).
  set (nt := mul (Frequency rsg) time).
  assert (Hfr := frac_range (nt + Phase rsg / (2 * PI))%R).
  assert (Q1 : Q2R 1 = 1%R) by apply ExactFacts.lit_1.
  assert (Q2 : Q2R 2 = 2%R) by apply ExactFacts.lit_2.
  assert (Q4 : Q2R 4 = 4%R) by apply lit_4.
  assert (Qq : Q2R 0.25 = (1 / 4)%R) by apply lit_quarter.
  assert (Qt : Q2R 0.75 = (3 / 4)%R) by apply lit_three_quarters.
  destruct (Kind rsg =? Sine);
    [|destruct (Kind rsg =? Cosine);
      [|destruct (Kind rsg =? Square);
        [|destruct (Kind rsg =? Sawtooth);
          [|destruct (Kind rsg =? Triangle); [|discriminate]]]]];
    intros E; injection E as <-.
  - unfold generateSine. cbn [mul add fsin exact exact_libm].
    destruct (SIN_bound (angularFreq * time + Phase rsg)).
    apply Rabs_le. split; nra.
  - unfold generateCosine. cbn [mul add fcos exact exact_libm].
    destruct (COS_bound (angularFreq * time + Phase rsg)).
    apply Rabs_le. split; nra.
  - unfold generateSquare. cbn zeta.
    destruct (ltb _ _); cbn [opp exact]; apply Rabs_le; lra.
  - unfold generateSawtooth. cbn zeta.
    rewrite !Q2, Q1. apply Rabs_le. split; nra.
  - unfold generateTriangle. cbn zeta.
    rewrite ExactFacts.lit_2, lit_4, lit_quarter, lit_three_quarters.
    cbn [mul add sub div ffloor fpi ltb exact exact_libm exact_rounding].
    set (fp := (nt + Phase rsg / (2 * PI)
                - ExactRounding.Rfloor (nt + Phase rsg / (2 * PI)))%R) in *.
    destruct (Exact.Rltb fp (1 / 4)) eqn:E1.
    + apply ExactFacts.Rltb_lt in E1. apply Rabs_le. split; nra.
    + apply ExactFacts.Rltb_ge in E1.
      destruct (Exact.Rltb fp (3 / 4)) eqn:E2.
      * apply ExactFacts.Rltb_lt in E2. apply Rabs_le. split; nra.
      * apply ExactFacts.Rltb_ge in E2. apply Rabs_le. split; nra.
Qed.

Lemma written_bounded (rsg : ReferenceSignalGenerator R) (i : Z) :
  (0 < Amplitude rsg)%R -> (Rabs (written rsg i) <= Amplitude rsg)%R.
Proof.
  intros HA. unfold written. destruct (assigned rsg i) as [v|] eqn:E.
  - now apply assigned_bounded with (i := i).
  - change (zero : R) with (lit 0 : R). rewrite ExactFacts.lit_0, Rabs_R0. lra.
Qed.
End GeneratorExact.




Module GeneratorPeriod.
Import Generators GeneratorLoops.

Lemma floor_shift (y : R) :
  ExactRounding.Rfloor (y + 1) = (ExactRounding.Rfloor y + 1)%R.
Proof.
  unfold ExactRounding.Rfloor. destruct (base_Int_part y) as [B1 B2].
  rewrite (GeneratorExact.Int_part_unique (x := (y + 1)%R) (Int_part y + 1)).
  - now rewrite plus_IZR.
  - rewrite plus_IZR. lra.
Qed.

Lemma frac_shift (y y' : R) :
  y' = (y + 1)%R ->
  (y' - ExactRounding.Rfloor y' = y - ExactRounding.Rfloor y)%R.
Proof. intros ->. rewrite floor_shift. ring. Qed.

(** Success of [Generate] means the parameters were accepted and the slice
    could be made. *)
Lemma Generate_ok (rsg : ReferenceSignalGenerator R) (signals : list R) :
  Generate rsg = Returned (Ok signals) ->
  validate rsg = None
  /\ 0 <= Exact.Rtrunc (ExactRounding.Rround (TotalTime rsg * SampleRate rsg)).
Proof.
  unfold Generate. destruct (validate rsg) as [e|]; [discriminate|].
  cbn [trunc fround mul exact exact_rounding].
  destruct (Z.ltb_spec (Exact.Rtrunc (ExactRounding.Rround
                          (TotalTime rsg * SampleRate rsg))) 0) as [Hn|Hn];
    [discriminate|].
  intros _. split; [reflexivity | exact Hn].
Qed.

Section OnePeriod.
Variables (rsg : ReferenceSignalGenerator R) (P : Z).
Hypothesis (Hf : (0 < Frequency rsg)%R) (HP : 0 < P).
Hypothesis (Hrate : SampleRate rsg = (Frequency rsg * IZR P)%R).

Lemma assigned_periodic (i : Z) : assigned rsg (i + P) = assigned rsg i.
Proof.
  assert (HPr : (0 < IZR P)%R) by (apply IZR_lt; exact HP).
  unfold assigned. cbn zeta.
  rewrite ExactFacts.lit_1_0, ExactFacts.lit_2.
  cbn [mul div of_int fpi exact exact_libm].
  rewrite Hrate, plus_IZR.
  set (F0 := Frequency rsg) in *.
  assert (Ht : ((IZR i + IZR P) * (1 / (F0 * IZR P))
                = IZR i * (1 / (F0 * IZR P)) + 1 / F0)%R) by (field; lra).
  rewrite Ht. set (time := (IZR i * (1 / (F0 * IZR P)))%R).
  assert (Hnt : (F0 * (time + 1 / F0) = F0 * time + 1)%R) by (field; lra).
  rewrite Hnt. set (nt := (F0 * time)%R).
  assert (Hfrac : ((nt + 1 + Phase rsg / (2 * PI))
                   - ExactRounding.Rfloor (nt + 1 + Phase rsg / (2 * PI))
                   = (nt + Phase rsg / (2 * PI))
                     - ExactRounding.Rfloor (nt + Phase rsg / (2 * PI)))%R).
  { apply frac_shift. ring. }
  destruct (Kind rsg =? Sine).
  { unfold generateSine. cbn [mul add fsin exact exact_libm].
    replace (2 * PI * F0 * (time + 1 / F0) + Phase rsg)%R
      with (2 * PI * F0 * time + Phase rsg + 2 * INR 1 * PI)%R
      by (cbn [INR]; field; lra).
    now rewrite sin_period. }
  destruct (Kind rsg =? Cosine).
  { unfold generateCosine. cbn [mul add fcos exact exact_libm].
    replace (2 * PI * F0 * (time + 1 / F0) + Phase rsg)%R
      with (2 * PI * F0 * time + Phase rsg + 2 * INR 1 * PI)%R
      by (cbn [INR]; field; lra).
    now rewrite cos_period. }
  destruct (Kind rsg =? Square).
  { unfold generateSquare. cbn zeta. rewrite ExactFacts.lit_2.
    cbn [mul add sub div ffloor fpi exact exact_libm exact_rounding].
    now rewrite Hfrac. }
  destruct (Kind rsg =? Sawtooth).
  { unfold generateSawtooth. cbn zeta. rewrite !ExactFacts.lit_2.
    cbn [mul add sub div ffloor fpi exact exact_libm exact_rounding].
    now rewrite Hfrac. }
  destruct (Kind rsg =? Triangle); [|reflexivity].
  unfold generateTriangle. cbn zeta. rewrite !ExactFacts.lit_2.
  cbn [mul add sub div ffloor fpi exact exact_libm exact_rounding].
  now rewrite Hfrac.
Qed.
End OnePeriod.
End GeneratorPeriod.

(** X27. In exact arithmetic, when the sampling rate is a whole number [P]
    of samples per signal period ([SampleRate = Frequency * P]), the
    generated signal repeats every [P] samples, for every signal type. *)
Theorem generate_periodic :
  forall (rsg : Generators.ReferenceSignalGenerator R) (P : Z)
         (signals : list R),
    Generators.Generate rsg = Returned (Ok signals) ->
    0 < P ->
    Generators.SampleRate rsg = (Generators.Frequency rsg * IZR P)%R ->
    forall i, 0 <= i -> i + P < len signals ->
      nth (Z.to_nat (i + P)) signals 0%R = nth (Z.to_nat i) signals 0%R.
Proof.
  intros rsg P signals Hg HP Hrate i Hi HiP.
  destruct (@GeneratorPeriod.Generate_ok rsg signals Hg) as [Hv Hn].
  destruct (@GeneratorLoops.Generate_returns R exact exact_libm
              exact_rounding rsg Hv Hn) as (s & Hs & Hl & Hk).
  rewrite Hg in Hs. injection Hs as <-.
  change (zero : R) with (lit 0 : R) in Hk. rewrite ExactFacts.lit_0 in Hk.
  rewrite !Hk by lia. unfold GeneratorLoops.written.
  rewrite GeneratorPeriod.assigned_periodic; [reflexivity | | exact HP | exact Hrate].
  apply GeneratorExact.validate_valid in Hv. apply Hv.
Qed.

(** A 100 Hz square wave at ten samples per period, a hundred samples. *)
Lemma generate_periodic_witness :
  exists signals : list R,
    Generators.Generate
      {| Generators.Frequency := 100; Generators.SampleRate := 100 * 10;
         Generators.TotalTime := 1 / 10; Generators.Amplitude := 2;
         Generators.Phase := 0; Generators.Kind := Generators.Square;
         Generators.DutyCycle := 1 / 2 |}%R = Returned (Ok signals)
    /\ nth 13 signals 0%R = nth 3 signals 0%R.
Proof.
  set (rsg := {| Generators.Frequency := 100; Generators.SampleRate := 100 * 10;
                 Generators.TotalTime := 1 / 10; Generators.Amplitude := 2;
                 Generators.Phase := 0; Generators.Kind := Generators.Square;
                 Generators.DutyCycle := 1 / 2 |}%R).
  assert (Hv : Generators.validate rsg = None).
  { apply GeneratorExact.validate_valid.
    unfold GeneratorExact.valid, rsg; cbn; lra. }
  destruct (@GeneratorExact.count_round
              (Generators.TotalTime rsg * Generators.SampleRate rsg)%R)
    as [Hn Hr]; [unfold rsg; cbn; lra|].
  destruct (@GeneratorLoops.Generate_returns R exact exact_libm
              exact_rounding rsg Hv Hn) as (signals & Hg & Hl & _).
  exists signals. split; [exact Hg|].
  assert (Hlen : len signals = 100).
  { cbn [trunc fround mul exact exact_rounding] in Hl. rewrite <- Hl in Hr.
    unfold rsg in Hr; cbn [Generators.TotalTime Generators.SampleRate] in Hr.
    unfold Rabs in Hr. destruct (Rcase_abs _) in Hr.
    - assert (99 < len signals) by (apply lt_IZR; lra).
      assert (len signals < 101) by (apply lt_IZR; lra). lia.
    - assert (99 < len signals) by (apply lt_IZR; lra).
      assert (len signals < 101) by (apply lt_IZR; lra). lia. }
  apply (@generate_periodic rsg 10 signals Hg eq_refl eq_refl 3); lia.
Defined.


(** ** IIR: group delay *)

Module GroupDelayExact.
Import IIR IIRGroupDelay.

Lemma lit_tiny : (lit 1e-12 : R) = (/ 1000000000000)%R.
Proof. cbn; unfold Q2R; cbn; lra. Qed.

(** At [z = 1] the loop adds up the coefficients and their first moment. *)
Lemma deriv_loop_dc (cs : list R) :
  forall (i : Z) (s p : R),
    0 <= i ->
    deriv_loop cs i (1, 0)%R (s, 0%R) (p, 0%R) (1, 0)%R
    = ((s + total cs, 0)%R, (p + moment cs i, 0)%R).
Proof.
  induction cs as [|c cs IH]; intros i s p Hi.
  - cbn [deriv_loop total moment]. f_equal; f_equal; ring.
  - cbn [deriv_loop total moment].
    change (zero : R) with (lit 0 : R). rewrite ExactFacts.lit_0.
    assert (Ez : cmul (1, 0)%R (1, 0)%R = (1, 0)%R).
    { unfold cmul, re, im. cbn. f_equal; ring. }
    rewrite Ez.
    assert (Es : cadd (s, 0%R) (cmul (c, 0%R) (1, 0)%R) = ((s + c)%R, 0%R)).
    { unfold cadd, cmul, re, im. cbn. f_equal; ring. }
    rewrite Es.
    assert (Ep : (if 0 <? i
                  then cadd (p, 0%R)
                         (cdiv (cmul (mul c (of_int i), 0%R) (1, 0)%R) (1, 0)%R)
                  else (p, 0%R))
                 = ((p + c * IZR i)%R, 0%R)).
    { destruct (Z.ltb_spec 0 i) as [Hp|Hp].
      - unfold cadd, cmul, re, im. cbn. unfold Exact.Cdiv. cbn.
        f_equal; field.
      - assert (i = 0) by lia. subst i. f_equal. ring. }
    rewrite Ep. rewrite IH by lia. f_equal; f_equal; ring.
Qed.

Lemma unit_circle (t : R) (k : nat) :
  let zk := zpow (cos t, sin t) k in
  (fst zk * fst zk + snd zk * snd zk = 1)%R.
Proof.
  cbn zeta. rewrite ComplexFacts.de_moivre. cbn [fst snd].
  pose proof (sin2_cos2 (INR k * t)) as E. unfold Rsqr in E. lra.
Qed.

(** Leading zero coefficients add nothing to either sum. *)
Lemma deriv_loop_delay (g : R) (z : complex R) (d : nat) :
  forall k : nat,
    deriv_loop (repeat 0%R d ++ [g]) (Z.of_nat k) z (0, 0)%R (0, 0)%R
               (zpow z k)
    = (cadd (0, 0)%R (cmul (g, 0%R) (zpow z (k + d))),
       if 0 <? Z.of_nat (k + d)
       then cadd (0, 0)%R
              (cdiv (cmul ((g * IZR (Z.of_nat (k + d)))%R, 0%R)
                          (zpow z (k + d))) z)
       else (0, 0)%R).
Proof.
  induction d as [|d IH]; intros k.
  - cbn [repeat app deriv_loop]. rewrite Nat.add_0_r.
    change (zero : R) with (lit 0 : R). rewrite ExactFacts.lit_0. reflexivity.
  - cbn [repeat app deriv_loop].
    change (zero : R) with (lit 0 : R). rewrite ExactFacts.lit_0.
    replace (Z.of_nat k + 1) with (Z.of_nat (S k)) by lia.
    assert (Es : cadd (0, 0)%R (cmul (0, 0)%R (zpow z k)) = (0, 0)%R).
    { unfold cadd, cmul, re, im. cbn. f_equal; ring. }
    rewrite Es.
    assert (Ep : (if 0 <? Z.of_nat k
                  then cadd (0, 0)%R
                         (cdiv (cmul (mul 0%R (of_int (Z.of_nat k)), 0%R)
                                     (zpow z k)) z)
                  else (0, 0)%R) = (0, 0)%R).
    { destruct (0 <? Z.of_nat k); [|reflexivity].
      unfold cadd, cmul, re, im. cbn. unfold Exact.Cdiv, Rdiv. cbn.
      f_equal; ring. }
    rewrite Ep.
    change (cmul (zpow z k) z) with (zpow z (S k)).
    rewrite IH. replace (S k + d)%nat with (k + S d)%nat by lia. reflexivity.
Qed.
End GroupDelayExact.


(** X28. In exact arithmetic, at frequency zero the group delay of a filter
    whose denominator coefficients do not sum to zero is the centre of
    gravity of the numerator coefficients minus that of the denominator
    coefficients, [sum(i*b[i])/sum(b) - sum(i*a[i])/sum(a)]; it is reported
    as zero when the gain [|sum(b)/sum(a)|] is below [1e-12]. *)
Theorem group_delay_at_dc :
  forall f : IIR.IIRFilter R,
    total (IIR.aCoeffs f) <> 0%R ->
    IIRGroupDelay.GetGroupDelay f 0%R
    = Returned
        (if Exact.Rltb (Rabs (total (IIR.bCoeffs f) / total (IIR.aCoeffs f)))
                       (/ 1000000000000)
         then 0%R
         else (moment (IIR.bCoeffs f) 0 / total (IIR.bCoeffs f)
               - moment (IIR.aCoeffs f) 0 / total (IIR.aCoeffs f))%R).
Proof.
  intros f HA. unfold IIRGroupDelay.GetGroupDelay.
  rewrite (proj2 (ComplexFacts.in_range_exact 0%R)) by lra.
  assert (Ez : (fcos (mul (mul (lit 2.0) fpi) 0%R),
                fsin (mul (mul (lit 2.0) fpi) 0%R)) = (1, 0)%R).
  { cbn [mul fcos fsin exact exact_libm].
    rewrite Rmult_0_r, cos_0, sin_0. reflexivity. }
  cbn zeta. rewrite Ez.
  unfold IIR.czero, IIR.cone.
  change (zero : R) with (lit 0 : R).
  rewrite ExactFacts.lit_0, ExactFacts.lit_1, GroupDelayExact.lit_tiny.
  rewrite !GroupDelayExact.deriv_loop_dc by lia.
  set (B0 := total (IIR.bCoeffs f)) in *.
  set (A0 := total (IIR.aCoeffs f)) in *.
  set (B1 := moment (IIR.bCoeffs f) 0).
  set (A1 := moment (IIR.aCoeffs f) 0).
  rewrite !Rplus_0_l.
  assert (Eh : cdiv (B0, 0%R) (A0, 0%R) = ((B0 / A0)%R, 0%R)).
  { cbn. unfold Exact.Cdiv. cbn. f_equal; field; exact HA. }
  rewrite Eh.
  assert (Eabs : cabs ((B0 / A0)%R, 0%R) = Rabs (B0 / A0)).
  { cbn. rewrite Rmult_0_l, Rplus_0_r. apply sqrt_Rsqr_abs. }
  rewrite Eabs. cbn [ltb exact].
  destruct (Exact.Rltb (Rabs (B0 / A0)) (/ 1000000000000)) eqn:Et;
    [reflexivity|].
  apply ExactFacts.Rltb_ge in Et.
  assert (HB : B0 <> 0%R).
  { intros E. rewrite E in Et. unfold Rdiv in Et.
    rewrite Rmult_0_l, Rabs_R0 in Et. lra. }
  f_equal. unfold IIRGroupDelay.csub, cmul, re, im. cbn.
  unfold Exact.Cdiv. cbn. field. split; assumption.
Qed.

(** The filter [y[n] = 0.5*x[n] + 0.3*y[n-1]] of the test suite: its delay
    at frequency zero is [3/7] of a sample. *)
Lemma group_delay_at_dc_witness :
  IIRGroupDelay.GetGroupDelay
    {| IIR.bCoeffs := [1 / 2]%R; IIR.aCoeffs := [1; - (3 / 10)]%R;
       IIR.xBuffer := [0]%R; IIR.yBuffer := [0; 0]%R;
       IIR.xPos := 0; IIR.yPos := 1; IIR.order := 1 |} 0%R
  = Returned
      (if Exact.Rltb (Rabs ((1 / 2 + 0) / (1 + (- (3 / 10) + 0))))
                     (/ 1000000000000)
       then 0%R
       else ((1 / 2 * 0 + 0) / (1 / 2 + 0)
             - (1 * 0 + (- (3 / 10) * 1 + 0)) / (1 + (- (3 / 10) + 0)))%R).
Proof.
  apply (@group_delay_at_dc
           {| IIR.bCoeffs := [1 / 2]%R; IIR.aCoeffs := [1; - (3 / 10)]%R;
              IIR.xBuffer := [0]%R; IIR.yBuffer := [0; 0]%R;
              IIR.xPos := 0; IIR.yPos := 1; IIR.order := 1 |}).
  cbn. lra.
Defined.


Module GroupDelayUnit.
Import IIR IIRGroupDelay.

(** The sums of the loop for the denominator [1]. *)
Lemma deriv_loop_one (z : complex R) :
  deriv_loop [1%R] 0 z (0, 0)%R (0, 0)%R (1, 0)%R = ((1, 0)%R, (0, 0)%R).
Proof.
  cbn [deriv_loop Z.ltb Z.compare].
  change (zero : R) with (lit 0 : R). rewrite ExactFacts.lit_0.
  unfold cadd, cmul, re, im. cbn. f_equal. f_equal; ring.
Qed.

Lemma cdiv_unit (x y c s : R) :
  (c * c + s * s = 1)%R ->
  cdiv (x, y) (c, s) = ((x * c + y * s)%R, (y * c - x * s)%R).
Proof.
  intros Hz. cbn. unfold Exact.Cdiv. cbn. rewrite Hz. f_equal; field.
Qed.

(** The last steps of [GetGroupDelay] for numerator sum [g*w], numerator
    derivative [g*n*w/z] and denominator [1], with [z] and [w] on the unit
    circle. *)
Lemma delay_algebra (g n c s C S : R) :
  (c * c + s * s = 1)%R -> (C * C + S * S = 1)%R -> g <> 0%R ->
  let z : complex R := (c, s) in
  let w : complex R := (C, S) in
  let bSum := cadd (0, 0)%R (cmul (g, 0%R) w) in
  let bPrimeSum := cadd (0, 0)%R (cdiv (cmul ((g * n)%R, 0%R) w) z) in
  let h := cdiv bSum (1, 0)%R in
  cabs h = Rabs g
  /\ re (cdiv (cmul z (cdiv (csub (cmul bPrimeSum (1, 0)%R)
                                  (cmul bSum (0, 0)%R))
                            (cmul (1, 0)%R (1, 0)%R))) h) = n.
Proof.
  intros Hz Hw Hg. cbn zeta.
  assert (Hone : (1 * 1 + 0 * 0 = 1)%R) by ring.
  assert (Eb : cadd (0, 0)%R (cmul (g, 0%R) (C, S)) = ((g * C)%R, (g * S)%R)).
  { unfold cadd, cmul, re, im. cbn. f_equal; ring. }
  assert (En : cmul ((g * n)%R, 0%R) (C, S)
               = ((g * n * C)%R, (g * n * S)%R)).
  { unfold cmul, re, im. cbn. f_equal; ring. }
  rewrite Eb, En, (cdiv_unit _ _ Hz), (cdiv_unit _ _ Hone).
  set (p := (g * n * C * c + g * n * S * s)%R).
  set (q := (g * n * S * c - g * n * C * s)%R).
  assert (Ep : cadd (0, 0)%R (p, q) = (p, q)).
  { unfold cadd, re, im. cbn. f_equal; ring. }
  rewrite Ep.
  assert (Eh : ((g * C * 1 + g * S * 0)%R, (g * S * 1 - g * C * 0)%R)
               = ((g * C)%R, (g * S)%R)) by (f_equal; ring).
  rewrite Eh.
  assert (Ed : cdiv (csub (cmul (p, q) (1, 0)%R)
                          (cmul ((g * C)%R, (g * S)%R) (0, 0)%R))
                    (cmul (1, 0)%R (1, 0)%R) = (p, q)).
  { assert (E1 : cmul (1, 0)%R (1, 0)%R = (1, 0)%R)
      by (unfold cmul, re, im; cbn; f_equal; ring).
    rewrite E1.
    assert (E2 : csub (cmul (p, q) (1, 0)%R)
                      (cmul ((g * C)%R, (g * S)%R) (0, 0)%R) = (p, q))
      by (unfold csub, cmul, re, im; cbn; f_equal; ring).
    rewrite E2, (cdiv_unit _ _ Hone). f_equal; ring. }
  rewrite Ed.
  assert (Ez : cmul (c, s) (p, q) = ((g * n * C)%R, (g * n * S)%R)).
  { unfold cmul, re, im, p, q. cbn. f_equal.
    - replace (c * (g * n * C * c + g * n * S * s)
               - s * (g * n * S * c - g * n * C * s))%R
        with (g * n * C * (c * c + s * s))%R by ring.
      rewrite Hz. ring.
    - replace (c * (g * n * S * c - g * n * C * s)
               + s * (g * n * C * c + g * n * S * s))%R
        with (g * n * S * (c * c + s * s))%R by ring.
      rewrite Hz. ring. }
  rewrite Ez.
  assert (Hd : (g * C * (g * C) + g * S * (g * S) = g * g)%R).
  { replace (g * C * (g * C) + g * S * (g * S))%R
      with (g * g * (C * C + S * S))%R by ring.
    rewrite Hw. ring. }
  split.
  - cbn. rewrite Hd. apply sqrt_Rsqr_abs.
  - cbn. unfold Exact.Cdiv. cbn. rewrite Hd.
    replace (g * n * C * (g * C) + g * n * S * (g * S))%R
      with (g * g * n * (C * C + S * S))%R by ring.
    rewrite Hw. field. exact Hg.
Qed.
End GroupDelayUnit.


(** X29. In exact arithmetic a pure delay, numerator [d] zeros followed by a
    gain [g] with [|g| >= 1e-12] and denominator [1], has group delay [d]
    samples at every frequency of the band [[0, 0.5]]; outside the band
    [GetGroupDelay] panics. *)
Theorem group_delay_of_pure_delay :
  forall (f : IIR.IIRFilter R) (d : nat) (g freq : R),
    IIR.bCoeffs f = repeat 0%R d ++ [g] ->
    IIR.aCoeffs f = [1%R] ->
    (/ 1000000000000 <= Rabs g)%R ->
    ((0 <= freq <= 1 / 2)%R ->
     IIRGroupDelay.GetGroupDelay f freq = Returned (INR d))
    /\ (~ (0 <= freq <= 1 / 2)%R ->
        panics (IIRGroupDelay.GetGroupDelay f freq)).
Proof.
  intros f d g freq Hb Ha Hg. unfold IIRGroupDelay.GetGroupDelay. split.
  - intros Hr. rewrite (proj2 (ComplexFacts.in_range_exact freq) Hr).
    cbn zeta. rewrite Hb, Ha.
    set (omega := mul (mul (lit 2.0) fpi) freq).
    unfold IIR.czero. change (zero : R) with (lit 0 : R).
    rewrite ExactFacts.lit_0, GroupDelayExact.lit_tiny.
    change IIR.cone with (zpow (fcos omega, fsin omega) 0) at 1.
    rewrite (GroupDelayExact.deriv_loop_delay g (fcos omega, fsin omega) d 0).
    unfold IIR.cone. rewrite ExactFacts.lit_1, ExactFacts.lit_0.
    rewrite GroupDelayUnit.deriv_loop_one.
    cbn [Nat.add fcos fsin exact_libm].
    rewrite ComplexFacts.de_moivre.
    assert (Hz : (cos omega * cos omega + sin omega * sin omega = 1)%R).
    { pose proof (sin2_cos2 omega) as E. unfold Rsqr in E. lra. }
    assert (Hw : (cos (INR d * omega) * cos (INR d * omega)
                  + sin (INR d * omega) * sin (INR d * omega) = 1)%R).
    { pose proof (sin2_cos2 (INR d * omega)) as E. unfold Rsqr in E. lra. }
    assert (Hg0 : g <> 0%R).
    { intros E. rewrite E, Rabs_R0 in Hg. lra. }
    destruct (@GroupDelayUnit.delay_algebra g (INR d) (cos omega) (sin omega)
                (cos (INR d * omega)) (sin (INR d * omega)) Hz Hw Hg0)
      as [Habs Hre].
    assert (Eprime :
      (if 0 <? Z.of_nat d
       then cadd (0, 0)%R
              (cdiv (cmul ((g * IZR (Z.of_nat d))%R, 0%R)
                          (cos (INR d * omega), sin (INR d * omega)))
                    (cos omega, sin omega))
       else (0, 0)%R)
      = cadd (0, 0)%R
          (cdiv (cmul ((g * INR d)%R, 0%R)
                      (cos (INR d * omega), sin (INR d * omega)))
                (cos omega, sin omega))).
    { rewrite <- INR_IZR_INZ. destruct (Z.ltb_spec 0 (Z.of_nat d)) as [Hd|Hd];
        [reflexivity|].
      assert (d = 0%nat) by lia. subst d. cbn [INR].
      assert (E0 : cmul ((g * 0)%R, 0%R)
                        (cos (0 * omega), sin (0 * omega)) = (0, 0)%R)
        by (unfold cmul, re, im; cbn; f_equal; ring).
      rewrite E0, (GroupDelayUnit.cdiv_unit _ _ Hz).
      unfold cadd, re, im. cbn. f_equal; ring. }
    rewrite Eprime. cbn iota beta.
    rewrite Habs. cbn [ltb exact].
    replace (Exact.Rltb (Rabs g) (/ 1000000000000)) with false
      by (symmetry; apply ExactFacts.Rltb_ge; exact Hg).
    f_equal. exact Hre.
  - intros Hr.
    destruct (ltb freq (lit 0) || gtb freq (lit 0.5)) eqn:E.
    + eexists; reflexivity.
    + exfalso. apply Hr. now apply ComplexFacts.in_range_exact.
Qed.

(** A delay by two samples with gain one half, at a tenth of the sampling
    rate. *)
Lemma group_delay_of_pure_delay_witness :
  IIRGroupDelay.GetGroupDelay
    {| IIR.bCoeffs := [0; 0; 1 / 2]%R; IIR.aCoeffs := [1]%R;
       IIR.xBuffer := [0; 0; 0]%R; IIR.yBuffer := [0]%R;
       IIR.xPos := 2; IIR.yPos := 0; IIR.order := 2 |} (1 / 10)%R
  = Returned 2%R.
Proof.
  apply (proj1 (@group_delay_of_pure_delay
           {| IIR.bCoeffs := [0; 0; 1 / 2]%R; IIR.aCoeffs := [1]%R;
              IIR.xBuffer := [0; 0; 0]%R; IIR.yBuffer := [0]%R;
              IIR.xPos := 2; IIR.yPos := 0; IIR.order := 2 |}
           2%nat (1 / 2)%R (1 / 10)%R eq_refl eq_refl
           ltac:(rewrite Rabs_pos_eq; lra))).
  lra.
Defined.


(** ** Windows in binary64: a single coefficient *)

Module WindowBinary64.
Lemma mul_nan_r (x : float) : PrimFloat.mul x nan = nan.
Proof.
  apply Prim2SF_inj. rewrite mul_spec.
  change (Prim2SF nan) with S754_nan.
  unfold SF64mul, SFmul. destruct (Prim2SF x); reflexivity.
Qed.

(** The only window term of a one-point window: its angle is [0/0]. *)
Lemma term_single (c s t e : float -> float) :
  c nan = nan ->
  @Windows.term float binary64 (binary64_libm c s t e) 1 0 = nan.
Proof.
  intros Hc. unfold Windows.term. cbn zeta.
  cbn [fcos fpi binary64_libm].
  assert (Ex : div (mul (mul Binary64.pi (lit 2)) (of_int 0)) (of_int (1 - 1))
               = nan) by (vm_compute; reflexivity).
  rewrite Ex.
  assert (E2 : mul (lit 2) nan = nan) by (vm_compute; reflexivity).
  assert (E3 : mul (lit 3) nan = nan) by (vm_compute; reflexivity).
  rewrite E2, E3, Hc. vm_compute. reflexivity.
Qed.
End WindowBinary64.

(** X30. In binary64, with a cosine that maps NaN to NaN as [math.Cos] does,
    windowing a single coefficient loses it: the one-point window divides
    zero by zero, so [ApplyBlackmanHarrisWindow] returns a slice holding NaN
    whatever the coefficient was. *)
Theorem apply_window_single_coefficient :
  forall (c s t e : float -> float) (coeff : float),
    c nan = nan ->
    @Windows.ApplyBlackmanHarrisWindow float binary64 (binary64_libm c s t e)
      [coeff]
    = Returned [nan].
Proof.
  intros c s t e coeff Hc.
  unfold Windows.ApplyBlackmanHarrisWindow, Windows.blackmanHarrisWindow.
  cbn [len List.length Z.of_nat Pos.of_succ_nat Z.ltb Z.compare Z.to_nat].
  change (Pos.to_nat 1) with 1%nat. unfold make.
  change (Z.to_nat 1) with 1%nat. cbn [Windows.window_loop repeat].
  rewrite (@WindowBinary64.term_single c s t e Hc).
  cbn. rewrite WindowBinary64.mul_nan_r. reflexivity.
Qed.

(** The coefficient one, with a cosine that is exact at zero. *)
Lemma apply_window_single_coefficient_witness :
  @Windows.ApplyBlackmanHarrisWindow float binary64
    (binary64_libm (fun x => PrimFloat.add (PrimFloat.sub x x) 1)
                   (fun x => x) (fun x => x) (fun x => x))
    [1%float]
  = Returned [nan].
Proof.
  apply (@apply_window_single_coefficient
           (fun x => PrimFloat.add (PrimFloat.sub x x) 1)
           (fun x => x) (fun x => x) (fun x => x) 1%float).
  vm_compute. reflexivity.
Defined.
